(** * vlitz agent: a shallow embedding of [src/agent.js]

    The agent is a JavaScript program that runs inside a dynamic
    instrumentation toolkit (DIT).  Its handlers are embedded here as Rocq
    functions over

    - a small model of the JavaScript values the handlers exchange
      (module [JS]),
    - a model of the toolkit: address space, protections, memory contents,
      modules and interceptor listeners (module [DIT]),
    - the agent's own mutable globals ([activeHooks], [hookIdCounter],
      [scanResults], [scanSnapshots]) threaded explicitly (module [Agent]).

    A handler that can raise returns a [completion]; a handler that catches
    returns the envelope the source builds in its [catch] block.

    JavaScript numbers that count or measure (the hook id counter, lengths,
    sizes, argument counts) are taken as unbounded integers: they stay far
    inside the range in which JavaScript arithmetic on them is exact.
    Addresses are natural numbers and pointer arithmetic does not wrap:
    no range of the target ends beyond the address space. *)

From Stdlib Require Import ZArith NArith List String Ascii Bool Lia.
From Stdlib Require Import HexadecimalString HexadecimalN DecimalString DecimalN.
From stdpp Require Import base option list gmap strings pretty.
Import ListNotations.

Open Scope string_scope.

(* ===================================================================== *)
(** ** JavaScript values and completions                                  *)
(* ===================================================================== *)

Module JS.

(** A JavaScript evaluation either completes normally or throws; the
    payload of [Throw] is the [message] of the error object. *)
Inductive completion (A : Type) : Type :=
| Normal (a : A)
| Throw (msg : string).
Arguments Normal {A} a.
Arguments Throw {A} msg.

Definition bind {A B} (c : completion A) (k : A -> completion B) : completion B :=
  match c with
  | Normal a => k a
  | Throw e => Throw e
  end.

#[export] Instance completion_ret : MRet completion := fun _ a => Normal a.
#[export] Instance completion_bind : MBind completion :=
  fun _ _ k c => bind c k.

(** The numbers the agent's records carry (sizes, counters, thread ids,
    line numbers) are integers; [NaN] is what a failed numeric conversion
    yields.  Fractional numbers only occur as typed memory values and are
    kept apart (see [Runtime]). *)
Inductive number : Type :=
| Int (z : Z)
| NaN.

Inductive jsval : Type :=
| JUndef
| JNull
| JBool (b : bool)
| JNum (n : number)
| JStr (s : string).

#[export] Instance number_eq_dec : EqDecision number.
Proof. solve_decision. Defined.
#[export] Instance jsval_eq_dec : EqDecision jsval.
Proof. solve_decision. Defined.

(** [String(v)] *)
Definition to_string (v : jsval) : string :=
  match v with
  | JUndef => "undefined"
  | JNull => "null"
  | JBool true => "true"
  | JBool false => "false"
  | JNum (Int z) => pretty z
  | JNum NaN => "NaN"
  | JStr s => s
  end.

(** Truthiness, as used by [||], [&&], [!] and [if]. *)
Definition truthy (v : jsval) : bool :=
  match v with
  | JUndef | JNull => false
  | JBool b => b
  | JNum (Int z) => negb (z =? 0)%Z
  | JNum NaN => false
  | JStr s => negb (String.eqb s "")
  end.

(** [a || b] *)
Definition js_or (a b : jsval) : jsval := if truthy a then a else b.

(** [String.prototype.toLowerCase], on the ASCII letters. *)
Definition lower_ascii (c : ascii) : ascii :=
  let n := N_of_ascii c in
  if (65 <=? n)%N && (n <=? 90)%N then ascii_of_N (n + 32) else c.

Fixpoint toLowerCase (s : string) : string :=
  match s with
  | EmptyString => EmptyString
  | String c s' => String (lower_ascii c) (toLowerCase s')
  end.

(** [s.includes(t)]: [t] occurs in [s] at some position. *)
Fixpoint includes (s t : string) : bool :=
  String.prefix t s ||
  match s with
  | EmptyString => false
  | String _ s' => includes s' t
  end.

(** Comparison of numbers: every comparison with [NaN] is false. *)
Definition num_ltb (a b : number) : bool :=
  match a, b with Int x, Int y => (x <? y)%Z | _, _ => false end.
Definition num_leb (a b : number) : bool :=
  match a, b with Int x, Int y => (x <=? y)%Z | _, _ => false end.
Definition num_eqb (a b : number) : bool :=
  match a, b with Int x, Int y => (x =? y)%Z | _, _ => false end.
Definition isNaN (a : number) : bool :=
  match a with NaN => true | Int _ => false end.

(** What the JavaScript runtime supplies and this development does not
    spell out: the conversions of strings to numbers, binary floating
    point, and the relational operators on the toolkit's pointer objects.
    Every theorem below holds for every runtime. *)
Class Runtime : Type := {
  (** [Number(s)] on a string *)
  StringToNumber : string -> number;
  (** [parseInt(s)] *)
  parseInt : string -> number;
  (** IEEE numbers as read from memory *)
  float : Type;
  parseFloat : string -> float;
  float_of_Z : Z -> float;
  float_eqb : float -> float -> bool;
  float_ltb : float -> float -> bool;
  float_leb : float -> float -> bool;
  (** [Math.abs(a - b) < 0.0001] *)
  float_close : float -> float -> bool;
  (** [readFloat] and [readDouble] on the bytes found in memory *)
  decode_float : list Byte.byte -> float;
  decode_double : list Byte.byte -> float;
  (** [a >= b] and [a < b] on two pointer objects *)
  ptr_geb : N -> N -> bool;
  ptr_ltb : N -> N -> bool
}.

Section WithRuntime.
Context {RT : Runtime}.

(** [Number(v)] *)
Definition to_number (v : jsval) : number :=
  match v with
  | JUndef => NaN
  | JNull => Int 0
  | JBool true => Int 1
  | JBool false => Int 0
  | JNum n => n
  | JStr s => StringToNumber s
  end.

(** [a == b] on primitives. *)
Definition loose_eq (a b : jsval) : bool :=
  match a, b with
  | JUndef, (JUndef | JNull) | JNull, (JUndef | JNull) => true
  | JUndef, _ | JNull, _ | _, JUndef | _, JNull => false
  | JStr s, JStr t => String.eqb s t
  | JBool x, JBool y => Bool.eqb x y
  | _, _ => num_eqb (to_number a) (to_number b)
  end.

Definition is_number (v : jsval) : bool :=
  match v with JNum _ => true | _ => false end.

(** The shape shared by the four ordering operators of [filtered]: numeric
    when both sides are numbers or both convert, otherwise on the strings. *)
Definition ordered (num : number -> number -> bool)
    (str : string -> string -> bool) (a b : jsval) : bool :=
  if is_number a && is_number b then num (to_number a) (to_number b)
  else
    let numA := to_number a in
    let numB := to_number b in
    if negb (isNaN numA) && negb (isNaN numB) then num numA numB
    else str (to_string a) (to_string b).

End WithRuntime.

End JS.
Export JS.

(* ===================================================================== *)
(** ** Filter expressions: [filtered(arr, filter)]                        *)
(* ===================================================================== *)

Module Filter.

(** A record handed to [filtered].  [oid] stands for the identity of the
    JavaScript object: two records built by separate object literals differ
    in it even when their properties agree. *)
Record obj : Type := Obj {
  oid : nat;
  props : gmap string jsval
}.

#[export] Instance obj_eq_dec : EqDecision obj.
Proof. solve_decision. Defined.

(** [item[key]] *)
Definition get (o : obj) (key : string) : jsval :=
  default JUndef (props o !! key).

(** The elements of a filter: the literals ['and'] and ['or'], a tuple
    [[key, op, value]], or anything else (skipped by the loop). *)
Inductive fitem : Type :=
| FAnd
| FOr
| FCond (key op value : jsval)
| FSkip.

Section WithRuntime.
Context {RT : Runtime}.

(** The [operators] table; [None] for an [op] it does not list. *)
Definition operators (op : string) : option (jsval -> jsval -> bool) :=
  if String.eqb op "=" then Some loose_eq
  else if String.eqb op "!=" then Some (fun a b => negb (loose_eq a b))
  else if String.eqb op "<" then Some (ordered num_ltb String.ltb)
  else if String.eqb op ">" then
    Some (ordered (fun x y => num_ltb y x) (fun s t => String.ltb t s))
  else if String.eqb op "<=" then Some (ordered num_leb String.leb)
  else if String.eqb op ">=" then
    Some (ordered (fun x y => num_leb y x) (fun s t => String.leb t s))
  else if String.eqb op ":" then
    Some (fun a b => includes (toLowerCase (to_string a)) (toLowerCase (to_string b)))
  else if String.eqb op "!:" then
    Some (fun a b => negb (includes (toLowerCase (to_string a)) (toLowerCase (to_string b))))
  else None.

(** [evaluate(item, [key, op, value])] *)
Definition evaluate (item : obj) (key op value : jsval) : bool :=
  match operators (to_string op) with
  | Some operator => operator (get item (to_string key)) value
  | None => true
  end.

(** [finalResults.add(r)] for every [r] of a block: a [Set] keeps the
    first insertion of each object. *)
Fixpoint add_all (block finalResults : list obj) : list obj :=
  match block with
  | [] => finalResults
  | r :: block' =>
      add_all block'
        (if bool_decide (r ∈ finalResults) then finalResults
         else finalResults ++ [r])
  end.

(** The [for (const item of filter)] loop, then the final flush. *)
Fixpoint filter_loop (arr : list obj) (items : list fitem)
    (finalResults currentAndBlock : list obj) : list obj :=
  match items with
  | [] => add_all currentAndBlock finalResults
  | FAnd :: rest => filter_loop arr rest finalResults currentAndBlock
  | FOr :: rest =>
      filter_loop arr rest (add_all currentAndBlock finalResults) arr
  | FCond key op value :: rest =>
      filter_loop arr rest finalResults
        (List.filter (fun v => evaluate v key op value) currentAndBlock)
  | FSkip :: rest => filter_loop arr rest finalResults currentAndBlock
  end.

(** [filtered(arr, filter)]; [None] is a missing or non-array filter. *)
Definition filtered (arr : list obj) (filter : option (list fitem)) : list obj :=
  match filter with
  | None | Some [] => arr
  | Some items => filter_loop arr items [] arr
  end.

(** The loop of [filtered] as it bears on one element of [arr]:
    [current] tells whether the element is in [currentAndBlock]; a tuple
    narrows the block, ['or'] flushes it and starts again from all of
    [arr], and the end of the filter flushes what is left. *)
Fixpoint accepts (items : list fitem) (item : obj) (current : bool) : bool :=
  match items with
  | [] => current
  | FAnd :: rest => accepts rest item current
  | FOr :: rest => current || accepts rest item true
  | FCond key op value :: rest =>
      accepts rest item (current && evaluate item key op value)
  | FSkip :: rest => accepts rest item current
  end.

End WithRuntime.

End Filter.

(* ===================================================================== *)
(** ** Pointers: [ptr(v)] and [NativePointer.toString()]                  *)
(* ===================================================================== *)

Module Pointer.

(** [p.toString()]: lower-case hexadecimal with the [0x] prefix. *)
Definition toString (p : N) : string :=
  "0x" +:+ HexadecimalString.NilZero.string_of_uint (N.to_hex_uint p).

Definition parse_hex (s : string) : option N :=
  N.of_hex_uint <$> HexadecimalString.NilZero.uint_of_string (toLowerCase s).

Definition parse_dec (s : string) : option N :=
  N.of_uint <$> DecimalString.NilZero.uint_of_string s.

(** [ptr(v)], the toolkit's address constructor.  Addresses travel as
    decimal or [0x]-prefixed hexadecimal strings, or as numbers; a negative
    number denotes the address it wraps to in 64 bits.  Anything else is
    rejected with an exception. *)
Definition ptr (v : jsval) : completion N :=
  match v with
  | JStr (String "0" (String "x" digits)) =>
      match parse_hex digits with
      | Some p => Normal p
      | None => Throw "invalid pointer"
      end
  | JStr s =>
      match parse_dec s with
      | Some p => Normal p
      | None => Throw "invalid pointer"
      end
  | JNum (Int z) => Normal (Z.to_N (z mod 2 ^ 64))
  | _ => Throw "expected a pointer"
  end.

End Pointer.
Export Pointer.

(* ===================================================================== *)
(** ** Interceptor callbacks synthesised by [hook_attach]                 *)
(* ===================================================================== *)

Module Callbacks.

(** The [config] argument of [hook_attach]: each field is the JavaScript
    value found under that key ([JUndef] when the key is missing);
    [cfg_modifyArgs] is the array when there is one. *)
Record config : Type := Config {
  cfg_onEnter : jsval;
  cfg_onLeave : jsval;
  cfg_logArgs : jsval;
  cfg_logRetval : jsval;
  cfg_argCount : jsval;
  cfg_modifyArgs : option (list jsval);
  cfg_modifyRetval : jsval;
  cfg_backtrace : jsval
}.

(** [config = {}] *)
Definition empty_config : config :=
  Config JUndef JUndef JUndef JUndef JUndef None JUndef JUndef.

(** The [hookConfig] object built from it. *)
Record hookConfig : Type := HookConfig {
  hc_onEnter : bool;
  hc_onLeave : bool;
  hc_logArgs : bool;
  hc_logRetval : bool;
  hc_argCount : jsval;
  hc_modifyArgs : option (list jsval);
  hc_modifyRetval : jsval;
  hc_backtrace : bool
}.

Definition is_true (v : jsval) : bool :=
  match v with JBool true => true | _ => false end.
Definition is_false (v : jsval) : bool :=
  match v with JBool false => true | _ => false end.
Definition nullish (v : jsval) : bool :=
  match v with JNull | JUndef => true | _ => false end.

Definition make_hookConfig (config : config) : hookConfig :=
  {| hc_onEnter := negb (is_false (cfg_onEnter config));
     hc_onLeave := is_true (cfg_onLeave config);
     hc_logArgs := is_true (cfg_logArgs config);
     hc_logRetval := is_true (cfg_logRetval config);
     hc_argCount := js_or (cfg_argCount config) (JNum (Int 4));
     hc_modifyArgs := cfg_modifyArgs config;
     hc_modifyRetval := js_or (cfg_modifyRetval config) JNull;
     hc_backtrace := is_true (cfg_backtrace config) |}.

(** [hook_enable] hands the stored [hookConfig] back to [hook_attach] as
    its [config]. *)
Definition as_config (h : hookConfig) : config :=
  {| cfg_onEnter := JBool (hc_onEnter h);
     cfg_onLeave := JBool (hc_onLeave h);
     cfg_logArgs := JBool (hc_logArgs h);
     cfg_logRetval := JBool (hc_logRetval h);
     cfg_argCount := hc_argCount h;
     cfg_modifyArgs := hc_modifyArgs h;
     cfg_modifyRetval := hc_modifyRetval h;
     cfg_backtrace := JBool (hc_backtrace h) |}.

(** What the callbacks close over. *)
Record closure : Type := Closure {
  cl_id : string;
  cl_address : jsval;
  cl_config : hookConfig
}.

(** The argument slots of one invocation: slot [i] holds a pointer-sized
    value, or cannot be accessed ([None]). *)
Definition slots : Type := nat -> option N.

(** [args[idx] = p]; an inaccessible slot cannot be written either. *)
Definition set_slot (args : slots) (idx : nat) (p : N) : slots :=
  fun i => if Nat.eqb i idx then
             match args i with Some _ => Some p | None => None end
           else args i.

(** The invocation object [this] as far as the callbacks read it;
    [backtrace_of] is the outcome of [Thread.backtrace(this.context, ...)]
    and [symbol_name] is [DebugSymbol.fromAddress(addr).name]. *)
Record invocation : Type := Invocation {
  threadId : Z;
  depth : Z;
  backtrace_of : completion (list N);
  symbol_name : N -> option string
}.

(** The events pushed through [send]. *)
Inductive event : Type :=
| HookEnter (id : string) (address : jsval) (threadId depth : Z)
    (args : option (list string))
    (backtrace : option (list (string * option string)))
| HookLeave (id : string) (address : jsval) (threadId : Z)
    (retval : option string) (args : option (list string)).

(** [this.hookContext] *)
Record hookContext : Type := HookContext {
  ctx_args : list string;
  ctx_config : hookConfig
}.

Record entered : Type := Entered {
  enter_sent : list event;
  enter_args : slots;
  enter_this : completion hookContext
}.

Record returned : Type := Returned {
  leave_sent : list event;
  leave_retval : N
}.

Section WithRuntime.
Context {RT : Runtime}.

(** How many times [for (let i = 0; i < count; i++)] runs. *)
Definition iterations (count : jsval) : nat :=
  match to_number count with
  | Int z => Z.to_nat z
  | NaN => 0
  end.

(** [try { out.push(args[i].toString()) } catch (e) { out.push('(error)') }]
    for [i] below [n]. *)
Definition sample_args (args : slots) (n : nat) : list string :=
  List.map (fun i => match args i with
                     | Some p => toString p
                     | None => "(error)"
                     end) (seq 0 n).

(** [hookConfig.modifyArgs.forEach((mod, idx) => ...)] from index [idx]. *)
Fixpoint apply_mods (mods : list jsval) (idx : nat) (args : slots) : slots :=
  match mods with
  | [] => args
  | mod_ :: rest =>
      apply_mods rest (S idx)
        (if nullish mod_ then args
         else match ptr mod_ with
              | Normal p => set_slot args idx p
              | Throw _ => args
              end)
  end.

Definition onEnter (c : closure) (this : invocation) (args : slots) : entered :=
  let hookConfig := cl_config c in
  let sent : completion (list event) :=
    if hc_onEnter hookConfig then
      let data_args :=
        if hc_logArgs hookConfig
        then Some (sample_args args (iterations (hc_argCount hookConfig)))
        else None in
      data_backtrace ←
        (if hc_backtrace hookConfig then
           bt ← backtrace_of this;
           Normal (Some (List.map (fun addr => (toString addr, symbol_name this addr)) bt))
         else Normal None);
      Normal [HookEnter (cl_id c) (cl_address c) (threadId this) (depth this)
                data_args data_backtrace]
    else Normal [] in
  match sent with
  | Throw e => Entered [] args (Throw e)
  | Normal events =>
      let args' :=
        match hc_modifyArgs hookConfig with
        | Some mods => apply_mods mods 0 args
        | None => args
        end in
      let saved :=
        if hc_logArgs hookConfig
        then sample_args args' (iterations (hc_argCount hookConfig))
        else [] in
      Entered events args' (Normal (HookContext saved hookConfig))
  end.

Definition onLeave (c : closure) (this : invocation)
    (context : option hookContext) (retval : N) : returned :=
  let hookConfig := cl_config c in
  let events :=
    if hc_onLeave hookConfig then
      let data_retval :=
        if hc_logRetval hookConfig then Some (toString retval) else None in
      let data_args :=
        match context with
        | Some ctx => if hc_logArgs hookConfig then Some (ctx_args ctx) else None
        | None => None
        end in
      [HookLeave (cl_id c) (cl_address c) (threadId this) data_retval data_args]
    else [] in
  let retval' :=
    if nullish (hc_modifyRetval hookConfig) then retval
    else match ptr (hc_modifyRetval hookConfig) with
         | Normal p => p
         | Throw _ => retval
         end in
  Returned events retval'.

End WithRuntime.

End Callbacks.
Export Callbacks.

(* ===================================================================== *)
(** ** The toolkit: address space, memory, modules, interceptor           *)
(* ===================================================================== *)

Module DIT.

Abbreviation byte := Byte.byte.

(** Page protection as a set of flags; [protection_string] is the
    three-character form the toolkit reports (['r-x']). *)
Record prot : Type := Prot { p_r : bool; p_w : bool; p_x : bool }.

#[export] Instance prot_eq_dec : EqDecision prot.
Proof. solve_decision. Defined.

Definition protection_string (p : prot) : string :=
  (if p_r p then "r" else "-") +:+
  (if p_w p then "w" else "-") +:+
  (if p_x p then "x" else "-").

Definition protection_char (c : ascii) : bool :=
  Ascii.eqb c "r" || Ascii.eqb c "w" || Ascii.eqb c "x" || Ascii.eqb c "-".

Fixpoint protection_chars (s : string) : bool :=
  match s with
  | EmptyString => true
  | String c s' => protection_char c && protection_chars s'
  end.

(** How the toolkit reads a protection specifier: the flags named in it;
    any other character is an error. *)
Definition parse_protection (s : string) : completion prot :=
  if protection_chars s
  then Normal (Prot (includes s "r") (includes s "w") (includes s "x"))
  else Throw "invalid character in memory protection specifier string".

Record range : Type := Range {
  base : N;
  size : N;
  r_prot : prot;
  file : option string
}.

(** [range.protection] *)
Definition protection (r : range) : string := protection_string (r_prot r).

Record module : Type := Module_ {
  m_name : string;
  m_base : N;
  m_size : N;
  m_path : string
}.

Record listener : Type := Listener {
  l_handle : nat;
  l_target : N;
  l_closure : closure
}.

(** The state of the target process as the agent can observe and change
    it.  [unhookable] lists the addresses at which [Interceptor.attach]
    refuses to install a listener. *)
Record world : Type := World {
  ranges : list range;
  memory : gmap N byte;
  modules : list module;
  pointerSize : nat;
  listeners : list listener;
  next_handle : nat;
  unhookable : list N
}.

Definition with_ranges (w : world) (rs : list range) : world :=
  {| ranges := rs; memory := memory w; modules := modules w;
     pointerSize := pointerSize w; listeners := listeners w;
     next_handle := next_handle w; unhookable := unhookable w |}.

Definition with_memory (w : world) (m : gmap N byte) : world :=
  {| ranges := ranges w; memory := m; modules := modules w;
     pointerSize := pointerSize w; listeners := listeners w;
     next_handle := next_handle w; unhookable := unhookable w |}.

Definition with_listeners (w : world) (ls : list listener) (next : nat) : world :=
  {| ranges := ranges w; memory := memory w; modules := modules w;
     pointerSize := pointerSize w; listeners := ls;
     next_handle := next; unhookable := unhookable w |}.

Definition contains (r : range) (a : N) : bool :=
  (base r <=? a)%N && (a <? base r + size r)%N.

(** [Process.findRangeByAddress(a)] *)
Definition findRangeByAddress (w : world) (a : N) : option range :=
  List.find (fun r => contains r a) (ranges w).

(** [Process.findModuleByAddress(a)] *)
Definition findModuleByAddress (w : world) (a : N) : option module :=
  List.find (fun m => (m_base m <=? a)%N && (a <? m_base m + m_size m)%N)
    (modules w).

Definition at_least (want have : prot) : bool :=
  implb (p_r want) (p_r have) && implb (p_w want) (p_w have) &&
  implb (p_x want) (p_x have).

(** [Process.enumerateRanges(protect)]: the ranges that grant at least the
    named flags. *)
Definition enumerateRanges (w : world) (protect : string)
    : completion (list range) :=
  want ← parse_protection protect;
  Normal (List.filter (fun r => at_least want (r_prot r)) (ranges w)).

Definition prot_at (w : world) (a : N) : option prot :=
  r_prot <$> findRangeByAddress w a.

Definition readable (w : world) (a : N) : bool :=
  match prot_at w a with Some p => p_r p | None => false end.

Definition writable (w : world) (a : N) : bool :=
  match prot_at w a with Some p => p_w p | None => false end.

Definition mapped (w : world) (a : N) : bool :=
  match prot_at w a with Some _ => true | None => false end.

(** The byte stored at a mapped address. *)
Definition load (w : world) (a : N) : byte :=
  default Byte.x00 (memory w !! a).

Definition store (w : world) (a : N) (b : byte) : world :=
  with_memory w (<[a := b]> (memory w)).

(** The [n] bytes stored from [a] on. *)
Fixpoint load_span (w : world) (a : N) (n : nat) : list byte :=
  match n with
  | O => []
  | S n' => load w a :: load_span w (a + 1) n'
  end.

Definition access_violation (a : N) : string :=
  "access violation accessing " +:+ toString a.

(** [p.readByteArray(n)]: the bytes are fetched in address order and the
    first one that may not be read raises. *)
Fixpoint read_bytes (w : world) (a : N) (n : nat) : completion (list byte) :=
  match n with
  | O => Normal []
  | S n' =>
      if readable w a then
        bs ← read_bytes w (a + 1) n';
        Normal (load w a :: bs)
      else Throw (access_violation a)
  end.

(** [p.writeByteArray(bytes)]: bytes are stored in address order; the
    first address that may not be written raises and leaves the earlier
    bytes stored. *)
Fixpoint write_bytes (w : world) (a : N) (bytes : list byte)
    : world * completion unit :=
  match bytes with
  | [] => (w, Normal tt)
  | b :: bytes' =>
      if writable w a then write_bytes (store w a b) (a + 1) bytes'
      else (w, Throw (access_violation a))
  end.

(** The world after [bytes] have all been stored from [a] on. *)
Fixpoint store_span (w : world) (a : N) (bytes : list byte) : world :=
  match bytes with
  | [] => w
  | b :: bytes' => store_span (store w a b) (a + 1) bytes'
  end.

(** Membership of the span of [n] bytes that starts at [a]. *)
Definition in_span (a : N) (n : nat) (x : N) : bool :=
  (a <=? x)%N && (x <? a + N.of_nat n)%N.

(** [Memory.protect(a, n, protection)] follows.  The span is re-protected
    at byte granularity: every enumerated range is cut at the ends of the
    span and the part inside receives the new flags. *)
Definition reprotect (a n : N) (p : prot) (r : range) : list range :=
  let lo := N.max (base r) a in
  let hi := N.min (base r + size r) (a + n) in
  if (lo <? hi)%N then
    (if (base r <? lo)%N
     then [Range (base r) (lo - base r) (r_prot r) (file r)] else []) ++
    [Range lo (hi - lo) p (file r)] ++
    (if (hi <? base r + size r)%N
     then [Range hi (base r + size r - hi) (r_prot r) (file r)] else [])
  else [r].

Fixpoint span_all (f : N -> bool) (a : N) (n : nat) : bool :=
  match n with
  | O => true
  | S n' => f a && span_all f (a + 1) n'
  end.

(** The call answers [false], and changes nothing, when part of the span
    is not mapped; a malformed specifier raises. *)
Definition Memory_protect (w : world) (a : N) (n : nat) (protection : string)
    : world * completion bool :=
  match parse_protection protection with
  | Throw e => (w, Throw e)
  | Normal p =>
      if span_all (mapped w) a n
      then (with_ranges w (flat_map (reprotect a (N.of_nat n) p) (ranges w)),
            Normal true)
      else (w, Normal false)
  end.

(** Little-endian decoding of the integers read from memory. *)
Definition le_unsigned (bs : list byte) : Z :=
  fold_right (fun b acc => Z.of_N (Byte.to_N b) + 256 * acc)%Z 0%Z bs.

Definition le_signed (bs : list byte) : Z :=
  let u := le_unsigned bs in
  let bits := (8 * Z.of_nat (length bs))%Z in
  if (u <? 2 ^ (bits - 1))%Z then u else (u - 2 ^ bits)%Z.

Definition readU (w : world) (a : N) (width : nat) : completion Z :=
  bs ← read_bytes w a width; Normal (le_unsigned bs).

Definition readS (w : world) (a : N) (width : nat) : completion Z :=
  bs ← read_bytes w a width; Normal (le_signed bs).

Definition readS8 w a := readS w a 1.
Definition readU8 w a := readU w a 1.
Definition readS16 w a := readS w a 2.
Definition readU16 w a := readU w a 2.
Definition readS32 w a := readS w a 4.
Definition readU32 w a := readU w a 4.
Definition readS64 w a := readS w a 8.
Definition readU64 w a := readU w a 8.

Definition readPointer (w : world) (a : N) : completion N :=
  bs ← read_bytes w a (pointerSize w); Normal (Z.to_N (le_unsigned bs)).

(** The bytes of a C string: up to [n] of them, stopping at the first NUL. *)
Fixpoint cstring_bytes (w : world) (a : N) (n : nat) : completion (list byte) :=
  match n with
  | O => Normal []
  | S n' =>
      if readable w a then
        if Byte.eqb (load w a) Byte.x00 then Normal []
        else bs ← cstring_bytes w (a + 1) n'; Normal (load w a :: bs)
      else Throw (access_violation a)
  end.

(** [p.readCString(n)]; the toolkit answers [null] for the null pointer. *)
Definition readCString (w : world) (a : N) (n : nat) : completion (option string) :=
  if (a =? 0)%N then Normal None
  else bs ← cstring_bytes w a n; Normal (Some (string_of_list_byte bs)).

Section WithRuntime.
Context {RT : Runtime}.

Definition readFloat (w : world) (a : N) : completion float :=
  bs ← read_bytes w a 4; Normal (decode_float bs).

Definition readDouble (w : world) (a : N) : completion float :=
  bs ← read_bytes w a 8; Normal (decode_double bs).

End WithRuntime.

(** [Interceptor.attach(target, callbacks)] *)
Definition Interceptor_attach (w : world) (target : N) (c : closure)
    : world * completion nat :=
  if bool_decide (target ∈ unhookable w)
  then (w, Throw ("unable to intercept function at " +:+ toString target))
  else
    let h := next_handle w in
    (with_listeners w (listeners w ++ [Listener h target c]) (S h), Normal h).

(** [listener.detach()] *)
Definition detach (w : world) (h : nat) : world :=
  with_listeners w
    (List.filter (fun l => negb (Nat.eqb (l_handle l) h)) (listeners w))
    (next_handle w).

End DIT.
Export DIT.

(* ===================================================================== *)
(** ** The agent: [rpc.exports] over its globals                          *)
(* ===================================================================== *)

Module Agent.

(** An entry of [activeHooks]. *)
Record hook : Type := Hook {
  h_listener : option nat;
  h_config : hookConfig;
  h_address : jsval;
  h_enabled : bool;
  h_target : string
}.

(** [activeHooks] is a [Map]: keys in insertion order, one entry per key. *)
Definition hook_table : Type := list (string * hook).

Definition table_get (t : hook_table) (id : string) : option hook :=
  snd <$> List.find (fun e => String.eqb (fst e) id) t.

Definition table_delete (t : hook_table) (id : string) : hook_table :=
  List.filter (fun e => negb (String.eqb (fst e) id)) t.

Definition table_set (t : hook_table) (id : string) (h : hook) : hook_table :=
  match table_get t id with
  | Some _ => List.map (fun e => if String.eqb (fst e) id then (id, h) else e) t
  | None => (t ++ [(id, h)])%list
  end.

(** The envelopes and values the handlers below return. *)
Inductive envelope : Type :=
| Attached (id : string) (address : jsval)
| Success
| SuccessMessage (message : string)
| Reattached (newId : string)
| Cleared (count : nat)
| Patched (address : jsval) (original patched : list byte)
| Failure (error : string).

Section WithRuntime.
Context {RT : Runtime}.

(** A typed value read from memory: a JavaScript number, an [Int64]
    object, or a floating-point number. *)
Inductive typed : Type :=
| TNum (n : number)
| TInt64 (z : Z)
| TFloat (f : float).

Record scan_result : Type := ScanResult {
  sr_address : string;
  sr_size : N;
  sr_pattern : string;
  sr_originalValue : option typed;
  sr_currentValue : option typed
}.

Record snapshot : Type := Snapshot {
  original : typed;
  current : typed
}.

(** The module-level variables of the script. *)
Record agent : Type := AgentState {
  activeHooks : hook_table;
  hookIdCounter : N;
  scanResults : list scan_result;
  scanSnapshots : gmap string snapshot
}.

(** The state right after injection. *)
Definition injected : agent := AgentState [] 0 [] ∅.

Definition with_hooks (st : agent) (t : hook_table) (counter : N) : agent :=
  AgentState t counter (scanResults st) (scanSnapshots st).

Definition with_scan (st : agent) (rs : list scan_result) : agent :=
  AgentState (activeHooks st) (hookIdCounter st) rs (scanSnapshots st).

Definition with_snapshots (st : agent) (m : gmap string snapshot) : agent :=
  AgentState (activeHooks st) (hookIdCounter st) (scanResults st) m.

(* --------------------------------------------------------------------- *)
(** *** Memory readers                                                    *)
(* --------------------------------------------------------------------- *)

Inductive rpcval : Type :=
| RNull
| RNum (z : Z)
| RInt64 (z : Z)
| RFloat (f : float)
| RStr (s : string)
| RBytes (bs : list byte).

Definition reader_byte (w : world) (a : jsval) : completion rpcval :=
  p ← ptr a; v ← readS8 w p; Normal (RNum v).
Definition reader_ubyte (w : world) (a : jsval) : completion rpcval :=
  p ← ptr a; v ← readU8 w p; Normal (RNum v).
Definition reader_short (w : world) (a : jsval) : completion rpcval :=
  p ← ptr a; v ← readS16 w p; Normal (RNum v).
Definition reader_ushort (w : world) (a : jsval) : completion rpcval :=
  p ← ptr a; v ← readU16 w p; Normal (RNum v).
Definition reader_int (w : world) (a : jsval) : completion rpcval :=
  p ← ptr a; v ← readS32 w p; Normal (RNum v).
Definition reader_uint (w : world) (a : jsval) : completion rpcval :=
  p ← ptr a; v ← readU32 w p; Normal (RNum v).
Definition reader_long (w : world) (a : jsval) : completion rpcval :=
  p ← ptr a; v ← readS64 w p; Normal (RInt64 v).
Definition reader_ulong (w : world) (a : jsval) : completion rpcval :=
  p ← ptr a; v ← readU64 w p; Normal (RInt64 v).
Definition reader_float (w : world) (a : jsval) : completion rpcval :=
  p ← ptr a; v ← readFloat w p; Normal (RFloat v).
Definition reader_double (w : world) (a : jsval) : completion rpcval :=
  p ← ptr a; v ← readDouble w p; Normal (RFloat v).
Definition reader_string (w : world) (a : jsval) (l : option nat)
    : completion rpcval :=
  p ← ptr a; s ← readCString w p (default 256 l);
  Normal (match s with Some s => RStr s | None => RNull end).
Definition reader_bytes (w : world) (a : jsval) (l : option nat)
    : completion rpcval :=
  p ← ptr a; bs ← read_bytes w p (default 8 l); Normal (RBytes bs).
Definition reader_pointer (w : world) (a : jsval) : completion rpcval :=
  p ← ptr a; q ← readPointer w p; Normal (RStr (toString q)).

(** The thirteen reader handlers by name; [l] is the optional length of
    [reader_string] and [reader_bytes]. *)
Inductive reader_name : Type :=
| Rbyte | Rubyte | Rshort | Rushort | Rint | Ruint | Rlong | Rulong
| Rfloat | Rdouble | Rstring | Rbytes | Rpointer.

Definition reader (k : reader_name) (w : world) (a : jsval) (l : option nat)
    : completion rpcval :=
  match k with
  | Rbyte => reader_byte w a
  | Rubyte => reader_ubyte w a
  | Rshort => reader_short w a
  | Rushort => reader_ushort w a
  | Rint => reader_int w a
  | Ruint => reader_uint w a
  | Rlong => reader_long w a
  | Rulong => reader_ulong w a
  | Rfloat => reader_float w a
  | Rdouble => reader_double w a
  | Rstring => reader_string w a l
  | Rbytes => reader_bytes w a l
  | Rpointer => reader_pointer w a
  end.

(** The number of bytes a reader fetches, for the readers that fetch a
    span known in advance ([reader_string] stops at the first NUL). *)
Definition reader_span (k : reader_name) (w : world) (l : option nat)
    : option nat :=
  match k with
  | Rbyte | Rubyte => Some 1
  | Rshort | Rushort => Some 2
  | Rint | Ruint | Rfloat => Some 4
  | Rlong | Rulong | Rdouble => Some 8
  | Rstring => None
  | Rbytes => Some (default 8 l)
  | Rpointer => Some (pointerSize w)
  end.

(** The memory access a reader performs at [p], with its value dropped:
    what remains is whether the access faults. *)
Definition underlying_read (k : reader_name) (w : world) (p : N)
    (l : option nat) : completion unit :=
  match reader_span k w l with
  | Some n => _ ← read_bytes w p n; Normal tt
  | None => _ ← readCString w p (default 256 l); Normal tt
  end.

(* --------------------------------------------------------------------- *)
(** *** Module and range listing                                          *)
(* --------------------------------------------------------------------- *)

Definition range_record (i : nat) (m : range) : Filter.obj :=
  Filter.Obj i
    (<["address" := JStr (toString (base m))]>
     (<["size" := JNum (Int (Z.of_N (size m)))]>
      (<["protection" := JStr (protection m)]> ∅))).

Definition list_ranges_by_module (w : world) (a : jsval)
    (protect : option string) (filter : option (list Filter.fitem))
    : completion (list Filter.obj) :=
  p ← ptr a;
  match findModuleByAddress w p with
  | None => Normal []
  | Some md =>
      rs ← enumerateRanges w (default "---" protect);
      Normal (Filter.filtered
        (imap range_record
           (List.filter
              (fun m => ptr_geb (base m) (m_base md) &&
                        ptr_ltb (base m + size m) (m_base md + m_size md))
              rs))
        filter)
  end.

(* --------------------------------------------------------------------- *)
(** *** Function hooking                                                  *)
(* --------------------------------------------------------------------- *)

Definition hook_attach (w : world) (st : agent) (address : jsval)
    (config : config) : world * agent * envelope :=
  let id := "hook_" +:+ pretty (hookIdCounter st) in
  let st := with_hooks st (activeHooks st) (hookIdCounter st + 1) in
  match ptr address with
  | Throw e => (w, st, Failure e)
  | Normal target =>
      match findRangeByAddress w target with
      | None => (w, st, Failure "Invalid or non-executable address")
      | Some range =>
          if negb (includes (protection range) "x")
          then (w, st, Failure "Invalid or non-executable address")
          else
            let hookConfig := make_hookConfig config in
            match Interceptor_attach w target (Closure id address hookConfig) with
            | (w', Throw e) => (w', st, Failure e)
            | (w', Normal listener) =>
                (w',
                 with_hooks st
                   (table_set (activeHooks st) id
                      (Hook (Some listener) hookConfig address true
                         (toString target)))
                   (hookIdCounter st),
                 Attached id address)
            end
      end
  end.

Definition null_detach : string :=
  "Cannot read properties of null (reading 'detach')".

Definition hook_detach (w : world) (st : agent) (id : string)
    : world * agent * envelope :=
  match table_get (activeHooks st) id with
  | Some hook =>
      match h_listener hook with
      | Some l =>
          (detach w l,
           with_hooks st (table_delete (activeHooks st) id) (hookIdCounter st),
           Success)
      | None => (w, st, Failure null_detach)
      end
  | None => (w, st, Failure "Hook not found")
  end.

Definition hook_enable (w : world) (st : agent) (id : string)
    : world * agent * envelope :=
  match table_get (activeHooks st) id with
  | None => (w, st, Failure "Hook not found")
  | Some hook =>
      if h_enabled hook then (w, st, SuccessMessage "Already enabled")
      else
        match hook_attach w st (h_address hook) (as_config (h_config hook)) with
        | (w', st', Attached newId _) =>
            (w',
             with_hooks st' (table_delete (activeHooks st') id) (hookIdCounter st'),
             Reattached newId)
        | result => result
        end
  end.

Definition hook_disable (w : world) (st : agent) (id : string)
    : world * agent * envelope :=
  match table_get (activeHooks st) id with
  | None => (w, st, Failure "Hook not found")
  | Some hook =>
      if negb (h_enabled hook) then (w, st, SuccessMessage "Already disabled")
      else
        match h_listener hook with
        | Some l =>
            (detach w l,
             with_hooks st
               (table_set (activeHooks st) id
                  (Hook None (h_config hook) (h_address hook) false (h_target hook)))
               (hookIdCounter st),
             Success)
        | None => (w, st, Failure null_detach)
        end
  end.

Definition hook_clear_all (w : world) (st : agent) : world * agent * envelope :=
  let w' :=
    fold_left (fun w e => match h_listener (snd e) with
                          | Some l => detach w l
                          | None => w
                          end) (activeHooks st) w in
  (w', with_hooks st [] 0, Cleared (length (activeHooks st))).

(* --------------------------------------------------------------------- *)
(** *** Memory scanning: refinement of the result set                     *)
(* --------------------------------------------------------------------- *)

(** The number a typed value contributes to an arithmetic or relational
    operator. *)
Definition typed_float (v : typed) : float :=
  match v with
  | TNum (Int z) => float_of_Z z
  | TNum NaN => parseFloat "NaN"
  | TInt64 z => float_of_Z z
  | TFloat f => f
  end.

(** [a === b]: an [Int64] object is never identical to another value. *)
Definition strict_eq (a b : typed) : bool :=
  match a, b with
  | TNum x, TNum y => num_eqb x y
  | TInt64 _, _ | _, TInt64 _ => false
  | _, _ => float_eqb (typed_float a) (typed_float b)
  end.

(** [a < b] and [a <= b] *)
Definition typed_ltb (a b : typed) : bool :=
  match a, b with
  | TNum x, TNum y => num_ltb x y
  | TInt64 x, TNum y => num_ltb (Int x) y
  | TNum x, TInt64 y => num_ltb x (Int y)
  | TInt64 x, TInt64 y => (x <? y)%Z
  | _, _ => float_ltb (typed_float a) (typed_float b)
  end.

Definition typed_leb (a b : typed) : bool :=
  match a, b with
  | TNum x, TNum y => num_leb x y
  | TInt64 x, TNum y => num_leb (Int x) y
  | TNum x, TInt64 y => num_leb x (Int y)
  | TInt64 x, TInt64 y => (x <=? y)%Z
  | _, _ => float_leb (typed_float a) (typed_float b)
  end.

Definition one_of (s : string) (names : list string) : bool :=
  existsb (String.eqb s) names.

(** The first [switch] of [scan_next]: the current value at [addr] and the
    target value; [None] is the [default: continue] arm. *)
Definition next_values (w : world) (type : string) (value : jsval) (addr : N)
    : option (completion (typed * typed)) :=
  if one_of type ["int8"; "byte"] then
    Some (v ← readS8 w addr; Normal (TNum (Int v), TNum (parseInt (to_string value))))
  else if one_of type ["int16"; "short"] then
    Some (v ← readS16 w addr; Normal (TNum (Int v), TNum (parseInt (to_string value))))
  else if one_of type ["int32"; "int"] then
    Some (v ← readS32 w addr; Normal (TNum (Int v), TNum (parseInt (to_string value))))
  else if one_of type ["int64"; "long"] then
    Some (v ← readS64 w addr; Normal (TInt64 v, TNum (parseInt (to_string value))))
  else if String.eqb type "float" then
    Some (v ← readFloat w addr; Normal (TFloat v, TFloat (parseFloat (to_string value))))
  else if String.eqb type "double" then
    Some (v ← readDouble w addr; Normal (TFloat v, TFloat (parseFloat (to_string value))))
  else None.

(** The second [switch] of [scan_next]. *)
Definition next_match (type comparison : string)
    (currentValue targetValue : typed) : bool :=
  if String.eqb comparison "eq" then
    if includes type "float" || String.eqb type "double"
    then float_close (typed_float currentValue) (typed_float targetValue)
    else strict_eq currentValue targetValue
  else if String.eqb comparison "ne" then negb (strict_eq currentValue targetValue)
  else if String.eqb comparison "gt" then typed_ltb targetValue currentValue
  else if String.eqb comparison "lt" then typed_ltb currentValue targetValue
  else if String.eqb comparison "ge" then typed_leb targetValue currentValue
  else if String.eqb comparison "le" then typed_leb currentValue targetValue
  else false.

(** What one turn of the [for (const result of scanResults)] loop of
    [scan_next] pushes. *)
Definition next_step (w : world) (type : string) (value : jsval)
    (comparison : string) (result : scan_result) : list scan_result :=
  match ptr (JStr (sr_address result)) with
  | Throw _ => []
  | Normal addr =>
      match next_values w type value addr with
      | None => []
      | Some (Throw _) => []
      | Some (Normal (currentValue, targetValue)) =>
          if next_match type comparison currentValue targetValue
          then [ScanResult (sr_address result) (sr_size result)
                  (sr_pattern result) (sr_originalValue result)
                  (Some currentValue)]
          else []
      end
  end.

Record scan_reply : Type := ScanReply {
  count : nat;
  results : list scan_result
}.

Definition reply_of (rs : list scan_result) : scan_reply :=
  ScanReply (length rs) (take 1000 rs).

Definition scan_next (w : world) (st : agent) (type : string) (value : jsval)
    (comparison : option string) : agent * scan_reply :=
  let newResults :=
    flat_map (next_step w type value (default "eq" comparison)) (scanResults st) in
  (with_scan st newResults, reply_of newResults).

(** The [switch] shared by [scan_changed], [scan_unchanged] and
    [scan_snapshot]. *)
Definition snapshot_value (w : world) (type : string) (addr : N)
    : completion typed :=
  if one_of type ["int32"; "int"] then v ← readS32 w addr; Normal (TNum (Int v))
  else if String.eqb type "float" then v ← readFloat w addr; Normal (TFloat v)
  else v ← readS32 w addr; Normal (TNum (Int v)).

Definition changed_step (w : world) (snaps : gmap string snapshot)
    (type : string) (result : scan_result) : list scan_result :=
  match ptr (JStr (sr_address result)) with
  | Throw _ => []
  | Normal addr =>
      match snaps !! sr_address result with
      | None => []
      | Some snapshot =>
          match snapshot_value w type addr with
          | Throw _ => []
          | Normal currentValue =>
              if negb (strict_eq currentValue (original snapshot))
              then [ScanResult (sr_address result) (sr_size result)
                      (sr_pattern result) (Some (original snapshot))
                      (Some currentValue)]
              else []
          end
      end
  end.

Definition scan_changed (w : world) (st : agent) (type : string)
    : agent * scan_reply :=
  let newResults :=
    flat_map (changed_step w (scanSnapshots st) type) (scanResults st) in
  (with_scan st newResults, reply_of newResults).

Definition unchanged_step (w : world) (snaps : gmap string snapshot)
    (type : string) (result : scan_result) : list scan_result :=
  match ptr (JStr (sr_address result)) with
  | Throw _ => []
  | Normal addr =>
      match snaps !! sr_address result with
      | None => []
      | Some snapshot =>
          match snapshot_value w type addr with
          | Throw _ => []
          | Normal currentValue =>
              if strict_eq currentValue (original snapshot)
              then [ScanResult (sr_address result) (sr_size result)
                      (sr_pattern result) (sr_originalValue result)
                      (Some currentValue)]
              else []
          end
      end
  end.

Definition scan_unchanged (w : world) (st : agent) (type : string)
    : agent * scan_reply :=
  let newResults :=
    flat_map (unchanged_step w (scanSnapshots st) type) (scanResults st) in
  (with_scan st newResults, reply_of newResults).

(** [scan_snapshot]: the map is emptied, then filled in result order. *)
Definition snapshot_step (w : world) (type : string)
    (snaps : gmap string snapshot) (result : scan_result)
    : gmap string snapshot :=
  match ptr (JStr (sr_address result)) with
  | Throw _ => snaps
  | Normal addr =>
      match snapshot_value w type addr with
      | Throw _ => snaps
      | Normal value => <[sr_address result := Snapshot value value]> snaps
      end
  end.

Definition scan_snapshot (w : world) (st : agent) (type : string)
    : agent * nat :=
  let snaps := fold_left (snapshot_step w type) (scanResults st) ∅ in
  (with_snapshots st snaps, stdpp.base.size snaps).

Definition clear_scan (st : agent) : agent :=
  with_snapshots (with_scan st []) ∅.

(** The three refinement handlers under one name. *)
Inductive refinement : Type :=
| ScanNext (type : string) (value : jsval) (comparison : option string)
| ScanChanged (type : string)
| ScanUnchanged (type : string).

Definition refine (w : world) (st : agent) (r : refinement) : agent * scan_reply :=
  match r with
  | ScanNext type value comparison => scan_next w st type value comparison
  | ScanChanged type => scan_changed w st type
  | ScanUnchanged type => scan_unchanged w st type
  end.

(* --------------------------------------------------------------------- *)
(** *** Code patching                                                     *)
(* --------------------------------------------------------------------- *)

Definition patch_bytes (w : world) (address : jsval) (bytes : list byte)
    : world * envelope :=
  match ptr address with
  | Throw e => (w, Failure e)
  | Normal target =>
      match findRangeByAddress w target with
      | None => (w, Failure "Address not in valid range")
      | Some range =>
          match read_bytes w target (length bytes) with
          | Throw e => (w, Failure e)
          | Normal original =>
              let originalProtection := protection range in
              let needsProtectionChange := negb (includes originalProtection "w") in
              let raised :=
                if needsProtectionChange then
                  let hasRead := includes originalProtection "r" in
                  let hasExec := includes originalProtection "x" in
                  let newProtection :=
                    (if hasRead then "r" else "") +:+ "w" +:+
                    (if hasExec then "x" else "") in
                  Memory_protect w target (length bytes) newProtection
                else (w, Normal true) in
              match raised with
              | (w1, Throw e) => (w1, Failure e)
              | (w1, Normal _) =>
                  match write_bytes w1 target bytes with
                  | (w2, Throw e) => (w2, Failure e)
                  | (w2, Normal _) =>
                      let restored :=
                        if needsProtectionChange
                        then Memory_protect w2 target (length bytes) originalProtection
                        else (w2, Normal true) in
                      match restored with
                      | (w3, Throw e) => (w3, Failure e)
                      | (w3, Normal _) => (w3, Patched address original bytes)
                      end
                  end
              end
          end
      end
  end.

Definition restore_bytes (w : world) (address : jsval) (original : list byte)
    : world * envelope :=
  patch_bytes w address original.

(* --------------------------------------------------------------------- *)
(** *** Sequences of calls on the hook manager                            *)
(* --------------------------------------------------------------------- *)

(** One step of a session as far as the hook manager is concerned: a call
    of one of its handlers, or anything else that happens to the target
    between two such calls. *)
Inductive call : Type :=
| CallAttach (address : jsval) (config : config)
| CallDetach (id : string)
| CallEnable (id : string)
| CallDisable (id : string)
| CallClearAll
| Elsewhere (change : world -> world).

Definition perform (w : world) (st : agent) (c : call) : world * agent * envelope :=
  match c with
  | CallAttach address config => hook_attach w st address config
  | CallDetach id => hook_detach w st id
  | CallEnable id => hook_enable w st id
  | CallDisable id => hook_disable w st id
  | CallClearAll => hook_clear_all w st
  | Elsewhere change => (change w, st, Success)
  end.

(** The id a call hands out, if it attached a hook. *)
Definition issued (e : envelope) : list string :=
  match e with
  | Attached id _ => [id]
  | Reattached newId => [newId]
  | _ => []
  end.

(** Running a session; the ids handed out, in order. *)
Fixpoint session (w : world) (st : agent) (cs : list call)
    : world * agent * list string :=
  match cs with
  | [] => (w, st, [])
  | c :: cs' =>
      let '(w1, st1, e) := perform w st c in
      let '(w2, st2, ids) := session w1 st1 cs' in
      (w2, st2, (issued e ++ ids)%list)
  end.

Definition is_clear_all (c : call) : bool :=
  match c with CallClearAll => true | _ => false end.

(* --------------------------------------------------------------------- *)
(** *** Listing the hooks                                                 *)
(* --------------------------------------------------------------------- *)

Record hook_entry : Type := HookEntry {
  he_id : string;
  he_address : jsval;
  he_target : string;
  he_enabled : bool;
  he_onEnter : bool;
  he_onLeave : bool;
  he_logArgs : bool;
  he_logRetval : bool
}.

Definition hook_list (st : agent) : list hook_entry :=
  List.map
    (fun e =>
       let h := snd e in
       HookEntry (fst e) (h_address h) (h_target h) (h_enabled h)
         (hc_onEnter (h_config h)) (hc_onLeave (h_config h))
         (hc_logArgs (h_config h)) (hc_logRetval (h_config h)))
    (activeHooks st).

(** The shape the hook table has in every state the handlers can reach
    (see [session_consistent]): one entry per id, every id numbered below
    the counter, a listener exactly on the enabled hooks, and every stored
    config one that [hook_attach] built. *)
Definition consistent (st : agent) : Prop :=
  NoDup (fst <$> activeHooks st) /\
  forall id h, (id, h) ∈ activeHooks st ->
    (exists n, id = "hook_" +:+ pretty n /\ (n < hookIdCounter st)%N) /\
    (h_enabled h = true <-> is_Some (h_listener h)) /\
    exists config, h_config h = make_hookConfig config.

(* --------------------------------------------------------------------- *)
(** *** Disassembly                                                       *)
(* --------------------------------------------------------------------- *)

(** What [Instruction.parse] yields. *)
Record insn : Type := Insn {
  i_address : N;
  i_next : N;
  i_size : nat;
  i_mnemonic : string;
  i_opStr : string;
  i_groups : list string;
  i_regsRead : list string;
  i_regsWritten : list string
}.

(** [Instruction.parse] itself: the toolkit's decoder, which may answer
    nothing or raise. *)
Definition decoder : Type := N -> completion (option insn).

Record insn_record : Type := InsnRecord {
  ir_address : string;
  ir_next : string;
  ir_size : nat;
  ir_mnemonic : string;
  ir_opStr : string;
  ir_groups : list string;
  ir_regsRead : list string;
  ir_regsWritten : list string
}.

(** [instruction(a)]; [None] is [null]. *)
Definition instruction (parse : decoder) (a : jsval) : option insn_record :=
  match ptr a with
  | Throw _ => None
  | Normal p =>
      match parse p with
      | Normal (Some insn) =>
          Some (InsnRecord (toString (i_address insn)) (toString (i_next insn))
                  (i_size insn) (i_mnemonic insn) (i_opStr insn)
                  (i_groups insn) (i_regsRead insn) (i_regsWritten insn))
      | _ => None
      end
  end.

Record listed : Type := Listed {
  d_address : string;
  d_size : nat;
  d_mnemonic : string;
  d_opStr : string;
  d_bytes : list byte;
  d_groups : list string;
  d_regsRead : list string;
  d_regsWritten : list string
}.

(** The inner [try] around [readByteArray]: no bytes when the read faults. *)
Definition bytes_or_none (w : world) (current : N) (n : nat) : list byte :=
  match read_bytes w current n with
  | Normal bs => bs
  | Throw _ => []
  end.

(** The [for] loop of [disassemble] with [count] turns left. *)
Fixpoint disassemble_from (parse : decoder) (w : world) (current : N)
    (count : nat) : list listed :=
  match count with
  | O => []
  | S count' =>
      match parse current with
      | Normal (Some insn) =>
          Listed (toString current) (i_size insn) (i_mnemonic insn)
            (i_opStr insn) (bytes_or_none w current (i_size insn))
            (i_groups insn) (i_regsRead insn) (i_regsWritten insn)
          :: disassemble_from parse w (i_next insn) count'
      | _ => []
      end
  end.

Definition disassemble (parse : decoder) (w : world) (address : jsval)
    (count : option nat) : completion (list listed) :=
  current ← ptr address;
  Normal (disassemble_from parse w current (default 20 count)).

Record function_listed : Type := FunctionListed {
  f_address : string;
  f_size : nat;
  f_mnemonic : string;
  f_opStr : string;
  f_bytes : list byte
}.

(** The test for a return instruction at the end of the loop body. *)
Definition returns (mnemonic opStr : string) : bool :=
  let mn := toLowerCase mnemonic in
  String.eqb mn "ret" || String.eqb mn "retq" || String.eqb mn "retn" ||
  String.eqb mn "bx" && String.eqb (toLowerCase opStr) "lr".

(** The [for] loop of [disassemble_function]; [visited] holds the address
    strings seen so far. *)
Fixpoint function_from (parse : decoder) (w : world) (current : N)
    (visited : list string) (maxInstructions : nat) : list function_listed :=
  match maxInstructions with
  | O => []
  | S max' =>
      let addrStr := toString current in
      if bool_decide (addrStr ∈ visited) then []
      else
        match parse current with
        | Normal (Some insn) =>
            FunctionListed addrStr (i_size insn) (i_mnemonic insn)
              (i_opStr insn) (bytes_or_none w current (i_size insn))
            :: (if returns (i_mnemonic insn) (i_opStr insn) then []
                else function_from parse w (i_next insn) (addrStr :: visited)
                       max')
        | _ => []
        end
  end.

Definition disassemble_function (parse : decoder) (w : world)
    (address : jsval) (maxInstructions : option nat)
    : completion (list function_listed) :=
  current ← ptr address;
  Normal (function_from parse w current [] (default 500 maxInstructions)).

(* --------------------------------------------------------------------- *)
(** *** Reading the stack                                                 *)
(* --------------------------------------------------------------------- *)

Record stack_slot : Type := StackSlot {
  s_offset : nat;
  s_address : string;
  s_value : string;
  s_module : option string;
  s_symbol : option string
}.

(** [symbol && symbol.name ? symbol.name : null] *)
Definition symbol_or_null (name : option string) : option string :=
  match name with
  | Some n => if String.eqb n "" then None else Some n
  | None => None
  end.

(** The [for] loop of [read_stack] at turn [i] with [depth] turns left;
    [names] is [DebugSymbol.fromAddress(value).name]. *)
Fixpoint read_stack_from (names : N -> option string) (w : world)
    (current : N) (i depth : nat) : list stack_slot :=
  match depth with
  | O => []
  | S depth' =>
      match readPointer w current with
      | Throw _ => []
      | Normal value =>
          StackSlot (i * pointerSize w) (toString current) (toString value)
            (m_name <$> findModuleByAddress w value)
            (symbol_or_null (names value))
          :: read_stack_from names w (current + N.of_nat (pointerSize w))
               (S i) depth'
      end
  end.

Definition read_stack (names : N -> option string) (w : world)
    (address : jsval) (depth : option nat) : completion (list stack_slot) :=
  current ← ptr address;
  Normal (read_stack_from names w current 0 (default 32 depth)).

(* --------------------------------------------------------------------- *)
(** *** NOP sleds                                                         *)
(* --------------------------------------------------------------------- *)

(** The [switch (arch)] of [nop_instructions]. *)
Definition nop_bytes (arch : string) : option (list byte) :=
  if String.eqb arch "x64" || String.eqb arch "ia32" then Some [Byte.x90]
  else if String.eqb arch "arm"
  then Some [Byte.x00; Byte.xf0; Byte.x20; Byte.xe3]
  else if String.eqb arch "arm64"
  then Some [Byte.x1f; Byte.x20; Byte.x03; Byte.xd5]
  else None.

(** The loop that adds up the sizes of [count] instructions. *)
Fixpoint total_size (parse : decoder) (current : N) (count : nat) : nat :=
  match count with
  | O => 0
  | S count' =>
      match parse current with
      | Normal (Some insn) =>
          i_size insn + total_size parse (i_next insn) count'
      | _ => 0
      end
  end.

(** One pass of [for (const b of nopBytes)]. *)
Fixpoint sled_pass (nopBytes nops : list byte) (totalSize : nat) : list byte :=
  match nopBytes with
  | [] => nops
  | b :: rest =>
      sled_pass rest
        (if (length nops <? totalSize)%nat then (nops ++ [b])%list else nops)
        totalSize
  end.

(** [while (nops.length < totalSize)], run for at most [fuel] passes. *)
Fixpoint sled_loop (fuel : nat) (nopBytes nops : list byte) (totalSize : nat)
    : list byte :=
  if (length nops <? totalSize)%nat then
    match fuel with
    | O => nops
    | S fuel' => sled_loop fuel' nopBytes (sled_pass nopBytes nops totalSize)
                   totalSize
    end
  else nops.

(** Every pass adds a byte, so [totalSize] passes are enough. *)
Definition nop_sled (nopBytes : list byte) (totalSize : nat) : list byte :=
  sled_loop totalSize nopBytes [] totalSize.

Definition nop_instructions (parse : decoder) (arch : string) (w : world)
    (address : jsval) (count : option nat) : world * envelope :=
  match ptr address with
  | Throw e => (w, Failure e)
  | Normal target =>
      match nop_bytes arch with
      | None => (w, Failure ("Unsupported architecture: " +:+ arch))
      | Some nopBytes =>
          let totalSize := total_size parse target (default 1 count) in
          if Nat.eqb totalSize 0
          then (w, Failure "Could not parse any instructions")
          else patch_bytes w address (nop_sled nopBytes totalSize)
      end
  end.

(* --------------------------------------------------------------------- *)
(** *** Memory protection                                                 *)
(* --------------------------------------------------------------------- *)





End WithRuntime.

End Agent.

(* ===================================================================== *)
(** ** Concrete runtimes and target processes                             *)
(* ===================================================================== *)

Module Examples.

Import Agent.

(** A plain decimal numeral with an optional minus sign. *)
Definition numeral (s : string) : number :=
  match s with
  | String "-" digits =>
      match parse_dec digits with
      | Some n => Int (- Z.of_N n)
      | None => NaN
      end
  | _ =>
      match parse_dec s with
      | Some n => Int (Z.of_N n)
      | None => NaN
      end
  end.

(** A runtime for running the handlers on integer data: numerals convert
    as above, pointers compare by value, and the floating-point type has a
    single point since no example reads a float. *)
Definition numeric_runtime : Runtime :=
  {| StringToNumber := fun s => if String.eqb s "" then Int 0 else numeral s;
     parseInt := numeral;
     float := unit;
     parseFloat := fun _ => tt;
     float_of_Z := fun _ => tt;
     float_eqb := fun _ _ => false;
     float_ltb := fun _ _ => false;
     float_leb := fun _ _ => false;
     float_close := fun _ _ => false;
     decode_float := fun _ => tt;
     decode_double := fun _ => tt;
     ptr_geb := fun a b => (b <=? a)%N;
     ptr_ltb := N.ltb |}.

(** The same runtime with the pointer comparisons carried out on the
    [toString()] renderings of the two pointers. *)
Definition textual_runtime : Runtime :=
  {| StringToNumber := @StringToNumber numeric_runtime;
     parseInt := @parseInt numeric_runtime;
     float := unit;
     parseFloat := fun _ => tt;
     float_of_Z := fun _ => tt;
     float_eqb := fun _ _ => false;
     float_ltb := fun _ _ => false;
     float_leb := fun _ _ => false;
     float_close := fun _ _ => false;
     decode_float := fun _ => tt;
     decode_double := fun _ => tt;
     ptr_geb := fun a b => String.leb (toString b) (toString a);
     ptr_ltb := fun a b => String.ltb (toString a) (toString b) |}.

Definition r_x : prot := Prot true false true.
Definition r__ : prot := Prot true false false.
Definition rw_ : prot := Prot true true false.

Definition bytes_at (a : N) (bs : list byte) : gmap N byte :=
  list_to_map (imap (fun i b => ((a + N.of_nat i)%N, b)) bs).

(** A process with one module made of a single executable range at
    [0x1000] that starts with [55 89 e5], followed by a read-only range
    and a writable one. *)
Definition text_range : range := Range 0x1000 0x1000 r_x (Some "/bin/target").
Definition rodata_range : range := Range 0x2000 0x1000 r__ (Some "/bin/target").
Definition data_range : range := Range 0x3000 0x1000 rw_ None.

Definition target_process : world :=
  {| ranges := [text_range; rodata_range; data_range];
     memory := bytes_at 0x1000 [Byte.x55; Byte.x89; Byte.xe5];
     modules := [Module_ "target" 0x1000 0x1000 "/bin/target"];
     pointerSize := 8;
     listeners := [];
     next_handle := 0;
     unhookable := [] |}.

(** [{logArgs: true, argCount: n}] *)
Definition log_args (argCount : jsval) : config :=
  Config JUndef JUndef (JBool true) JUndef argCount None JUndef JUndef.

(** An invocation on thread 7 at depth 0 with arguments [0xdead, 0xbeef]
    and every further slot zero. *)
Definition this_call : invocation :=
  Invocation 7 0 (Normal []) (fun _ => None).

Definition dead_beef : slots :=
  fun i => match i with 0 => Some 0xdead%N | 1 => Some 0xbeef%N | _ => Some 0%N end.

(** Three module records as [list_modules] builds them. *)
Definition module_record (i : nat) (name : string) : Filter.obj :=
  Filter.Obj i (<["name" := JStr name]> ∅).

Definition three_modules : list Filter.obj :=
  imap module_record ["libfoo"; "libbar"; "libbaz"].

(** A decoder for a target whose instructions are all one byte long:
    [c3] is [ret], anything else [nop]. *)
Definition one_byte_decoder (w : world) : decoder :=
  fun a =>
    Normal (Some (Insn a (a + 1) 1
                    (if Byte.eqb (load w a) Byte.xc3 then "ret" else "nop")
                    "" [] [] [])).

(** A decoder for fixed four-byte instructions. *)
Definition four_byte_decoder : decoder :=
  fun a => Normal (Some (Insn a (a + 4) 4 "mov" "x0, x1" [] [] [])).

End Examples.

(* ===================================================================== *)
(** * Properties                                                          *)
(* ===================================================================== *)

Import Agent Examples.

(* --------------------------------------------------------------------- *)
(** ** Strings                                                            *)
(* --------------------------------------------------------------------- *)

Lemma append_cons (c : ascii) (s t : string) :
  String c s +:+ t = String c (s +:+ t).
Proof. reflexivity. Qed.

Lemma append_empty (t : string) : "" +:+ t = t.
Proof. reflexivity. Qed.



(* --------------------------------------------------------------------- *)
(** ** Filter expressions                                                 *)
(* --------------------------------------------------------------------- *)

Lemma elem_of_add_all (x : Filter.obj) (block finalResults : list Filter.obj) :
  x ∈ Filter.add_all block finalResults <-> x ∈ finalResults \/ x ∈ block.
Proof.
  revert finalResults. induction block as [|r block IH]; intros fin; simpl.
  - rewrite elem_of_nil. tauto.
  - rewrite IH, elem_of_cons. case_bool_decide as Hr.
    + split; [tauto | intros [H | [-> | H]]; tauto].
    + rewrite elem_of_app, list_elem_of_singleton. tauto.
Qed.


(** S1 of the specification: of [libfoo], [libbar] and [libbaz] the filter
    [[["name", ":", "foo"]]] keeps the first record only. *)
Example filter_libfoo :
  @Filter.filtered numeric_runtime three_modules
    (Some [Filter.FCond (JStr "name") (JStr ":") (JStr "foo")])
  = [module_record 0 "libfoo"].
Proof. vm_compute. reflexivity. Qed.


(* --------------------------------------------------------------------- *)
(** ** Memory reads                                                       *)
(* --------------------------------------------------------------------- *)

Lemma read_bytes_readable (w : world) (a : N) (n : nat) :
  span_all (readable w) a n = true ->
  read_bytes w a n = Normal (load_span w a n).
Proof.
  revert a. induction n as [|n IH]; intros a H; simpl in *.
  - reflexivity.
  - apply andb_true_iff in H as [Ha Hn]. rewrite Ha, (IH _ Hn). reflexivity.
Qed.

Lemma read_bytes_unreadable (w : world) (a : N) (n : nat) :
  span_all (readable w) a n = false ->
  exists e, read_bytes w a n = Throw e.
Proof.
  revert a. induction n as [|n IH]; intros a H; simpl in *.
  - discriminate.
  - destruct (readable w a); simpl in H; [|eauto].
    destruct (IH _ H) as [e He]. rewrite He. eauto.
Qed.

Lemma read_bytes_normal (w : world) (a : N) (n : nat) (bs : list byte) :
  read_bytes w a n = Normal bs ->
  span_all (readable w) a n = true /\ bs = load_span w a n.
Proof.
  intros H. destruct (span_all (readable w) a n) eqn:Hs.
  - rewrite (read_bytes_readable _ _ _ Hs) in H. split; congruence.
  - destruct (read_bytes_unreadable _ _ _ Hs) as [e He]. congruence.
Qed.

Lemma load_span_length (w : world) (a : N) (n : nat) :
  length (load_span w a n) = n.
Proof. revert a. induction n; intros a; simpl; auto. Qed.

(** An access faults as soon as one byte of its span may not be read. *)
Lemma unreadable_span_faults (k : reader_name) (w : world) (p : N)
    (l : option nat) (n : nat) :
  reader_span k w l = Some n ->
  span_all (readable w) p n = false ->
  exists e, underlying_read k w p l = Throw e.
Proof.
  intros Hk Hs. unfold underlying_read. rewrite Hk.
  destruct (read_bytes_unreadable _ _ _ Hs) as [e He]. rewrite He. eauto.
Qed.

(** C1, as the code has it.  For every address on which the underlying
    memory read faults, each typed reader handler ([reader_byte] ...
    [reader_pointer]) completes by throwing that very fault: the handlers
    have no [try]/[catch], so no value, and in particular no [null], is
    returned. *)
Theorem reader_fault_escapes `{RT : Runtime} (k : reader_name) (w : world)
    (a : jsval) (l : option nat) (p : N) (e : string) :
  ptr a = Normal p ->
  underlying_read k w p l = Throw e ->
  reader k w a l = Throw e.
Proof.
  intros Hp Hr.
  destruct k;
    unfold reader, reader_byte, reader_ubyte, reader_short, reader_ushort,
      reader_int, reader_uint, reader_long, reader_ulong, reader_float,
      reader_double, reader_string, reader_bytes, reader_pointer,
      readS8, readU8, readS16, readU16, readS32, readU32, readS64, readU64,
      readS, readU, readFloat, readDouble, readPointer, underlying_read,
      reader_span, mbind, completion_bind in *;
    rewrite Hp; cbn [bind] in *;
    match type of Hr with
    | context [bind ?c _] => destruct c; cbn [bind] in *; congruence
    | context [match ?c with _ => _ end] => destruct c; cbn [bind] in *; congruence
    end.
Qed.

Lemma reader_fault_escapes_witness :
  ptr (JStr "0x10") = Normal 16%N /\
  @underlying_read Rbyte target_process 16 None
    = Throw "access violation accessing 0x10" /\
  @reader numeric_runtime Rbyte target_process (JStr "0x10") None
    = Throw "access violation accessing 0x10".
Proof.
  split; [reflexivity|]. split; [reflexivity|].
  apply (@reader_fault_escapes numeric_runtime Rbyte target_process
           (JStr "0x10") None 16%N); reflexivity.
Defined.

(** C1 as the specification states it fails: at the unmapped address
    [0x10] the read of [reader_byte] faults and the handler does not return
    [null]. *)
Lemma reader_null_on_fault_refuted :
  ~ (forall (RT : Runtime) (k : reader_name) (w : world) (a : jsval)
       (l : option nat) (p : N) (e : string),
        ptr a = Normal p ->
        underlying_read k w p l = Throw e ->
        reader k w a l = Normal RNull).
Proof.
  intros H.
  specialize (H numeric_runtime Rbyte target_process (JStr "0x10") None 16%N
                "access violation accessing 0x10" eq_refl eq_refl).
  discriminate H.
Qed.

(* --------------------------------------------------------------------- *)
(** ** Hook ids                                                           *)
(* --------------------------------------------------------------------- *)

Lemma hook_id_inj (n m : N) :
  "hook_" +:+ pretty n = "hook_" +:+ pretty m -> n = m.
Proof.
  intros H. rewrite !append_cons, append_empty in H.
  injection H as H. exact (inj pretty _ _ H).
Qed.

Section Hooks.
Context {RT : Runtime}.

(** Every path through [hook_attach] has consumed one id; only the last
    one changes the table or the interceptor. *)
Lemma hook_attach_cases (w : world) (st : agent) (address : jsval)
    (cfg : config) (w' : world) (st' : agent) (e : envelope) :
  hook_attach w st address cfg = (w', st', e) ->
  hookIdCounter st' = (hookIdCounter st + 1)%N /\
  ((exists msg, e = Failure msg /\ w' = w /\
                activeHooks st' = activeHooks st) \/
   (exists target h,
      e = Attached ("hook_" +:+ pretty (hookIdCounter st)) address /\
      listeners w' =
        (listeners w ++
         [Listener h target
            (Closure ("hook_" +:+ pretty (hookIdCounter st)) address
               (make_hookConfig cfg))])%list)).
Proof.
  unfold hook_attach. intros H.
  destruct (ptr address) as [target|msg].
  2:{ injection H as <- <- <-. split; [reflexivity|]. left. eauto. }
  destruct (findRangeByAddress w target) as [r|].
  2:{ injection H as <- <- <-. split; [reflexivity|]. left. eauto. }
  destruct (negb (includes (protection r) "x")).
  { injection H as <- <- <-. split; [reflexivity|]. left. eauto. }
  unfold Interceptor_attach in H.
  destruct (bool_decide (target ∈ unhookable w)).
  - injection H as <- <- <-. split; [reflexivity|]. left. eauto.
  - injection H as <- <- <-. split; [reflexivity|]. right.
    exists target, (next_handle w). split; reflexivity.
Qed.

Lemma perform_issues (w : world) (st : agent) (c : call)
    (w' : world) (st' : agent) (e : envelope) :
  is_clear_all c = false ->
  perform w st c = (w', st', e) ->
  (issued e = [] /\ (hookIdCounter st <= hookIdCounter st')%N) \/
  (issued e = ["hook_" +:+ pretty (hookIdCounter st)] /\
   (hookIdCounter st < hookIdCounter st')%N).
Proof.
  intros Hc H. destruct c as [address cfg|id|id|id| |change];
    cbn [perform] in H; try discriminate Hc.
  - destruct (hook_attach_cases _ _ _ _ _ _ _ H)
      as [Hn [(msg & -> & _) | (target & h & -> & _)]]; cbn [issued].
    + left. split; [reflexivity | lia].
    + right. split; [reflexivity | lia].
  - unfold hook_detach in H.
    destruct (table_get (activeHooks st) id) as [hk|];
      [destruct (h_listener hk)|]; injection H as <- <- <-;
      left; (split; [reflexivity | cbn; lia]).
  - unfold hook_enable in H.
    destruct (table_get (activeHooks st) id) as [hk|].
    2:{ injection H as <- <- <-. left. split; [reflexivity | lia]. }
    destruct (h_enabled hk).
    { injection H as <- <- <-. left. split; [reflexivity | lia]. }
    destruct (hook_attach w st (h_address hk) (as_config (h_config hk)))
      as [[w1 st1] e1] eqn:Ha.
    destruct (hook_attach_cases _ _ _ _ _ _ _ Ha)
      as [Hn [(msg & -> & _) | (target & h & -> & _)]].
    + injection H as <- <- <-. left. split; [reflexivity | lia].
    + injection H as <- <- <-. right. split; [reflexivity | cbn; lia].
  - unfold hook_disable in H.
    destruct (table_get (activeHooks st) id) as [hk|].
    2:{ injection H as <- <- <-. left. split; [reflexivity | lia]. }
    destruct (negb (h_enabled hk)).
    { injection H as <- <- <-. left. split; [reflexivity | lia]. }
    destruct (h_listener hk); injection H as <- <- <-;
      left; (split; [reflexivity | cbn; lia]).
  - injection H as <- <- <-. left. split; [reflexivity | lia].
Qed.

(** Between two [hook_clear_all] the ids handed out are numbered by a
    counter that only grows. *)
Lemma session_ids (cs : list call) (w : world) (st : agent)
    (w' : world) (st' : agent) (ids : list string) :
  forallb (fun c => negb (is_clear_all c)) cs = true ->
  session w st cs = (w', st', ids) ->
  (hookIdCounter st <= hookIdCounter st')%N /\
  NoDup ids /\
  forall id, id ∈ ids ->
    exists n, id = "hook_" +:+ pretty n /\
              (hookIdCounter st <= n < hookIdCounter st')%N.
Proof.
  revert w st w' st' ids.
  induction cs as [|c cs IH]; intros w st w' st' ids Hcs H; cbn [session] in H.
  - injection H as <- <- <-. split; [lia|]. split; [constructor|].
    intros id Hid. inversion Hid.
  - cbn [forallb] in Hcs. apply andb_true_iff in Hcs as [Hc Hcs].
    apply negb_true_iff in Hc.
    destruct (perform w st c) as [[w1 st1] e] eqn:Hp.
    destruct (session w1 st1 cs) as [[w2 st2] ids'] eqn:Hs.
    injection H as <- <- <-.
    destruct (IH _ _ _ _ _ Hcs Hs) as (Hle & Hnd & Hin).
    destruct (perform_issues _ _ _ _ _ _ Hc Hp) as [[-> Hlt] | [-> Hlt]];
      cbn [app].
    + split; [lia|]. split; [exact Hnd|].
      intros id Hid. destruct (Hin id Hid) as (n & -> & Hn).
      exists n. split; [reflexivity | lia].
    + split; [lia|]. split.
      * constructor; [|exact Hnd].
        intros Hid. destruct (Hin _ Hid) as (n & Heq & Hn).
        apply hook_id_inj in Heq. lia.
      * intros id Hid. apply elem_of_cons in Hid as [-> | Hid].
        -- exists (hookIdCounter st). split; [reflexivity | lia].
        -- destruct (Hin id Hid) as (n & -> & Hn).
           exists n. split; [reflexivity | lia].
Qed.

End Hooks.

(** C2, as the code has it.  Hook ids are unique between two
    [hook_clear_all]: in every sequence of calls that contains no
    [hook_clear_all], whatever the state it starts from, no two successful
    [hook_attach] (direct, or through [hook_enable]) return the same id.
    [hook_clear_all] itself resets the counter to zero. *)
Theorem hook_ids_unique_until_clear `{RT : Runtime} (cs : list call)
    (w : world) (st : agent) :
  forallb (fun c => negb (is_clear_all c)) cs = true ->
  NoDup (session w st cs).2 /\
  hookIdCounter (hook_clear_all w st).1.2 = 0%N.
Proof.
  intros Hcs. split; [|reflexivity].
  destruct (session w st cs) as [[w' st'] ids] eqn:Hs.
  exact (proj1 (proj2 (session_ids _ _ _ _ _ _ Hcs Hs))).
Qed.

Lemma hook_ids_unique_until_clear_witness :
  let cs := [CallAttach (JStr "0x1000") empty_config;
             CallDisable "hook_0"; CallEnable "hook_0";
             CallAttach (JStr "0x1008") empty_config] in
  forallb (fun c => negb (is_clear_all c)) cs = true /\
  (@session numeric_runtime target_process injected cs).2
    = ["hook_0"; "hook_1"; "hook_2"] /\
  NoDup (@session numeric_runtime target_process injected cs).2.
Proof.
  cbn zeta. split; [reflexivity|]. split; [vm_compute; reflexivity|].
  apply (@hook_ids_unique_until_clear numeric_runtime). reflexivity.
Defined.

(** C2 as the specification states it fails: [hook_clear_all] between two
    attaches makes both return ["hook_0"]. *)
Lemma hook_ids_unique_refuted :
  ~ (forall (RT : Runtime) (cs : list call) (w : world) (st : agent),
        NoDup (session w st cs).2).
Proof.
  intros H.
  specialize (H numeric_runtime
                [CallAttach (JStr "0x1000") empty_config; CallClearAll;
                 CallAttach (JStr "0x1000") empty_config]
                target_process injected).
  assert (E : (@session numeric_runtime target_process injected
                 [CallAttach (JStr "0x1000") empty_config; CallClearAll;
                  CallAttach (JStr "0x1000") empty_config]).2
              = ["hook_0"; "hook_0"]) by (vm_compute; reflexivity).
  rewrite E in H. apply NoDup_cons in H as [Hin _].
  apply Hin. constructor.
Qed.

(** C8, as the code has it.  [hook_attach] allocates the id before it
    validates the address: a call that fails with ["Invalid or
    non-executable address"] leaves the hook table and the interceptor
    unchanged but has advanced the counter by one, so the next successful
    [hook_attach] returns the id after the one the failed call consumed. *)
Theorem failed_attach_consumes_id `{RT : Runtime} (w : world) (st : agent)
    (address : jsval) (cfg : config) (w' : world) (st' : agent) :
  hook_attach w st address cfg
    = (w', st', Failure "Invalid or non-executable address") ->
  w' = w /\
  activeHooks st' = activeHooks st /\
  hookIdCounter st' = (hookIdCounter st + 1)%N /\
  forall address2 cfg2 w2 st2 id a2,
    hook_attach w' st' address2 cfg2 = (w2, st2, Attached id a2) ->
    id = "hook_" +:+ pretty (hookIdCounter st + 1)%N.
Proof.
  intros H.
  destruct (hook_attach_cases _ _ _ _ _ _ _ H)
    as [Hn [(msg & _ & -> & Ht) | (target & h & Habs & _)]];
    [|discriminate Habs].
  repeat split; try assumption.
  intros address2 cfg2 w2 st2 id a2 H2.
  destruct (hook_attach_cases _ _ _ _ _ _ _ H2)
    as [_ [(msg2 & Habs & _) | (target & h & Heq & _)]];
    [discriminate Habs|].
  injection Heq as -> _. rewrite Hn. reflexivity.
Qed.

Lemma failed_attach_consumes_id_witness :
  let r := @hook_attach numeric_runtime target_process injected
             (JStr "0x2000") empty_config in
  r.2 = Failure "Invalid or non-executable address" /\
  r.1.1 = target_process /\
  activeHooks r.1.2 = [] /\
  hookIdCounter r.1.2 = 1%N.
Proof.
  cbn zeta. split; [reflexivity|].
  destruct (@failed_attach_consumes_id numeric_runtime target_process injected
              (JStr "0x2000") empty_config target_process
              (with_hooks injected [] 1) eq_refl) as (Hw & Ht & Hn & _).
  split; [exact Hw|]. split; [exact Ht | exact Hn].
Defined.

(** C8 as the specification states it fails: attaching to the read-only
    address [0x2000] fails with that error and the counter has moved. *)
Lemma failed_attach_keeps_counter_refuted :
  ~ (forall (RT : Runtime) (w : world) (st : agent) (address : jsval)
       (cfg : config) (w' : world) (st' : agent),
        hook_attach w st address cfg
          = (w', st', Failure "Invalid or non-executable address") ->
        activeHooks st' = activeHooks st /\
        hookIdCounter st' = hookIdCounter st).
Proof.
  intros H.
  destruct (H numeric_runtime target_process injected (JStr "0x2000")
              empty_config target_process (with_hooks injected [] 1) eq_refl)
    as [_ Hn].
  discriminate Hn.
Qed.

(* --------------------------------------------------------------------- *)
(** ** Hook events                                                        *)
(* --------------------------------------------------------------------- *)

Lemma toString_inj (p q : N) : toString p = toString q -> p = q.
Proof.
  unfold toString. rewrite !append_cons, !append_empty. intros H.
  injection H as H.
  assert (Hnn : forall n, N.to_hex_uint n <> Hexadecimal.Nil).
  { intros [|x]; [discriminate | apply HexadecimalPos.Unsigned.to_uint_nonnil]. }
  apply HexadecimalN.Unsigned.to_uint_inj.
  pose proof (HexadecimalString.NilZero.usu _ (Hnn p)) as Hp.
  pose proof (HexadecimalString.NilZero.usu _ (Hnn q)) as Hq.
  rewrite H in Hp. congruence.
Qed.

Section Events.
Context {RT : Runtime}.

Lemma sample_args_length (args : slots) (n : nat) :
  length (sample_args args n) = n.
Proof. unfold sample_args. rewrite length_map, length_seq. reflexivity. Qed.



(** What [hook_attach] installs when it succeeds. *)
Lemma hook_attach_installs (w : world) (st : agent) (address : jsval)
    (cfg : config) (w' : world) (st' : agent) (id : string) (a' : jsval) :
  hook_attach w st address cfg = (w', st', Attached id a') ->
  a' = address /\
  exists h target,
    listeners w' =
      (listeners w ++
       [Listener h target (Closure id address (make_hookConfig cfg))])%list.
Proof.
  intros H.
  destruct (hook_attach_cases _ _ _ _ _ _ _ H)
    as [_ [(msg & Habs & _) | (target & h & Heq & Hl)]];
    [discriminate Habs|].
  injection Heq as -> ->. split; [reflexivity|]. eauto.
Qed.

End Events.

(** C5, as the code has it.  For a hook created by [hook_attach] with
    [logArgs] set, every [hook_enter] event carries an [args] array with one
    entry per sampled slot, each the slot's [toString()] or the literal
    ["(error)"]; its length is the configured [argCount] when that is a
    positive integer, and 4 when [argCount] is omitted or is 0 (the
    default is taken with [||], which also replaces 0). *)
Theorem enter_args_length `{RT : Runtime} (w : world) (st : agent)
    (address : jsval) (cfg : config) (w' : world) (st' : agent)
    (id : string) (a' : jsval) :
  hook_attach w st address cfg = (w', st', Attached id a') ->
  cfg_logArgs cfg = JBool true ->
  exists h target c,
    listeners w' = (listeners w ++ [Listener h target c])%list /\
    forall (this : invocation) (args : slots) (ev : event),
      ev ∈ enter_sent (onEnter c this args) ->
      exists xs bt,
        ev = HookEnter id address (threadId this) (depth this) (Some xs) bt /\
        xs = sample_args args (length xs) /\
        (cfg_argCount cfg = JUndef -> length xs = 4) /\
        (cfg_argCount cfg = JNum (Int 0) -> length xs = 4) /\
        (forall n, cfg_argCount cfg = JNum (Int n) -> (0 < n)%Z ->
                   length xs = Z.to_nat n).
Proof.
  intros H Hlog.
  destruct (hook_attach_installs _ _ _ _ _ _ _ _ H) as (-> & h & target & Hl).
  exists h, target, (Closure id address (make_hookConfig cfg)).
  split; [exact Hl|].
  intros this args ev Hev.
  unfold onEnter in Hev.
  cbn [cl_config cl_id cl_address make_hookConfig hc_onEnter hc_logArgs
       hc_argCount hc_backtrace hc_modifyArgs] in Hev.
  rewrite Hlog in Hev. cbn [is_true] in Hev.
  destruct (negb (is_false (cfg_onEnter cfg))); cbn in Hev; [|inversion Hev].
  destruct (is_true (cfg_backtrace cfg)); cbn in Hev.
  - destruct (backtrace_of this) as [bt|e]; cbn in Hev; [|inversion Hev].
    apply list_elem_of_singleton in Hev as ->.
    eexists _, _. split; [reflexivity|].
    rewrite sample_args_length. split; [reflexivity|].
    repeat split.
    + intros ->. reflexivity.
    + intros ->. reflexivity.
    + intros n -> Hn. unfold js_or, truthy.
      destruct (Z.eqb_spec n 0); [lia|]. reflexivity.
  - apply list_elem_of_singleton in Hev as ->.
    eexists _, _. split; [reflexivity|].
    rewrite sample_args_length. split; [reflexivity|].
    repeat split.
    + intros ->. reflexivity.
    + intros ->. reflexivity.
    + intros n -> Hn. unfold js_or, truthy.
      destruct (Z.eqb_spec n 0); [lia|]. reflexivity.
Qed.

(** S5 of the specification: [{logArgs: true, argCount: 2}] on the
    arguments [(0xdead, 0xbeef)]. *)
Example enter_event_dead_beef :
  let r := @hook_attach numeric_runtime target_process injected
             (JStr "0x1000") (log_args (JNum (Int 2))) in
  r.2 = Attached "hook_0" (JStr "0x1000") /\
  List.map (fun l => enter_sent (@onEnter numeric_runtime (l_closure l)
                                   this_call dead_beef))
    (listeners r.1.1)
  = [[HookEnter "hook_0" (JStr "0x1000") 7 0 (Some ["0xdead"; "0xbeef"]) None]].
Proof. vm_compute. split; reflexivity. Qed.

Lemma enter_args_length_witness :
  let cfg := log_args (JNum (Int 2)) in
  let r := @hook_attach numeric_runtime target_process injected
             (JStr "0x1000") cfg in
  r = (r.1.1, r.1.2, Attached "hook_0" (JStr "0x1000")) /\
  cfg_logArgs cfg = JBool true /\
  exists h target c,
    listeners r.1.1 = (listeners target_process ++ [Listener h target c])%list /\
    forall (this : invocation) (args : slots) (ev : event),
      ev ∈ enter_sent (@onEnter numeric_runtime c this args) ->
      exists xs bt,
        ev = HookEnter "hook_0" (JStr "0x1000") (threadId this) (depth this)
               (Some xs) bt /\
        xs = sample_args args (length xs) /\
        (cfg_argCount cfg = JUndef -> length xs = 4) /\
        (cfg_argCount cfg = JNum (Int 0) -> length xs = 4) /\
        (forall n, cfg_argCount cfg = JNum (Int n) -> (0 < n)%Z ->
                   length xs = Z.to_nat n).
Proof.
  cbn zeta. split; [reflexivity|]. split; [reflexivity|].
  apply (@enter_args_length numeric_runtime target_process injected
           (JStr "0x1000") (log_args (JNum (Int 2)))
           (@hook_attach numeric_runtime target_process injected
              (JStr "0x1000") (log_args (JNum (Int 2)))).1.1
           (@hook_attach numeric_runtime target_process injected
              (JStr "0x1000") (log_args (JNum (Int 2)))).1.2
           "hook_0" (JStr "0x1000")); reflexivity.
Defined.

(** C5 as the specification states it fails for [argCount = 0]: the event
    carries four entries. *)
Lemma enter_args_length_zero_refuted :
  ~ (forall (RT : Runtime) (w : world) (st : agent) (address : jsval)
       (cfg : config) (w' : world) (st' : agent) (id : string) (n : Z),
        (0 <= n)%Z ->
        cfg_logArgs cfg = JBool true ->
        cfg_argCount cfg = JNum (Int n) ->
        hook_attach w st address cfg = (w', st', Attached id address) ->
        forall (l : listener) (this : invocation) (args : slots) (ev : event),
          l ∈ listeners w' ->
          ev ∈ enter_sent (onEnter (l_closure l) this args) ->
          exists i a t d xs bt,
            ev = HookEnter i a t d (Some xs) bt /\ length xs = Z.to_nat n).
Proof.
  intros H.
  pose (c := Closure "hook_0" (JStr "0x1000")
               (make_hookConfig (log_args (JNum (Int 0))))).
  destruct (H numeric_runtime target_process injected (JStr "0x1000")
              (log_args (JNum (Int 0))) _ _ "hook_0" 0%Z
              (Z.le_refl 0) eq_refl eq_refl eq_refl
              (Listener 0 0x1000 c) this_call dead_beef
              (HookEnter "hook_0" (JStr "0x1000") 7 0
                 (Some ["0xdead"; "0xbeef"; "0x0"; "0x0"]) None))
    as (i & a & t & d & xs & bt & Hev & Hlen).
  - vm_compute. constructor.
  - vm_compute. constructor.
  - injection Hev as _ _ _ _ <- _. discriminate Hlen.
Qed.



(** The two events of that invocation. *)
Example enter_leave_events :
  let cfg := Config JUndef (JBool true) (JBool true) JUndef (JNum (Int 2))
               (Some [JNull; JStr "0x1"]) JUndef JUndef in
  let c := Closure "hook_0" (JStr "0x1000") (make_hookConfig cfg) in
  let en := @onEnter numeric_runtime c this_call dead_beef in
  enter_sent en
    = [HookEnter "hook_0" (JStr "0x1000") 7 0 (Some ["0xdead"; "0xbeef"]) None] /\
  match enter_this en with
  | Normal ctx =>
      leave_sent (onLeave c this_call (Some ctx) 0)
      = [HookLeave "hook_0" (JStr "0x1000") 7 None (Some ["0xdead"; "0x1"])]
  | Throw _ => False
  end.
Proof. vm_compute. split; reflexivity. Qed.

(* --------------------------------------------------------------------- *)
(** ** Scan refinement                                                    *)
(* --------------------------------------------------------------------- *)

(** A loop that pushes at most one entry per element, with the element's
    key, produces a subsequence of the keys. *)
Lemma flat_map_keys_sublist {A B : Type} (f : A -> list A) (key : A -> B)
    (l : list A) :
  (forall x, f x = [] \/ exists y, f x = [y] /\ key y = key x) ->
  (key <$> flat_map f l) `sublist_of` (key <$> l).
Proof.
  intros Hf. induction l as [|x l IH]; cbn [flat_map fmap list_fmap].
  - constructor.
  - destruct (Hf x) as [-> | (y & -> & Hy)]; cbn [app fmap list_fmap].
    + apply sublist_cons. exact IH.
    + rewrite Hy. apply sublist_skip. exact IH.
Qed.

Section Scan.
Context {RT : Runtime}.

Lemma next_step_keeps (w : world) (type : string) (value : jsval)
    (comparison : string) (x : scan_result) :
  next_step w type value comparison x = [] \/
  exists y, next_step w type value comparison x = [y] /\
            sr_address y = sr_address x.
Proof.
  unfold next_step.
  destruct (ptr (JStr (sr_address x))) as [addr|]; [|left; reflexivity].
  destruct (next_values w type value addr) as [[[cur tgt]|]|];
    try (left; reflexivity).
  destruct (next_match type comparison cur tgt); [|left; reflexivity].
  right. eexists. split; reflexivity.
Qed.

Lemma changed_step_keeps (w : world) (snaps : gmap string snapshot)
    (type : string) (x : scan_result) :
  changed_step w snaps type x = [] \/
  exists y, changed_step w snaps type x = [y] /\ sr_address y = sr_address x.
Proof.
  unfold changed_step.
  destruct (ptr (JStr (sr_address x))) as [addr|]; [|left; reflexivity].
  destruct (snaps !! sr_address x) as [s|]; [|left; reflexivity].
  destruct (snapshot_value w type addr) as [cur|]; [|left; reflexivity].
  destruct (negb (strict_eq cur (original s))); [|left; reflexivity].
  right. eexists. split; reflexivity.
Qed.

Lemma unchanged_step_keeps (w : world) (snaps : gmap string snapshot)
    (type : string) (x : scan_result) :
  unchanged_step w snaps type x = [] \/
  exists y, unchanged_step w snaps type x = [y] /\ sr_address y = sr_address x.
Proof.
  unfold unchanged_step.
  destruct (ptr (JStr (sr_address x))) as [addr|]; [|left; reflexivity].
  destruct (snaps !! sr_address x) as [s|]; [|left; reflexivity].
  destruct (snapshot_value w type addr) as [cur|]; [|left; reflexivity].
  destruct (strict_eq cur (original s)); [|left; reflexivity].
  right. eexists. split; reflexivity.
Qed.

Lemma refine_sublist (w : world) (st : agent) (r : refinement) :
  (sr_address <$> scanResults (refine w st r).1)
    `sublist_of` (sr_address <$> scanResults st).
Proof.
  destruct r as [type value comparison|type|type]; cbn.
  - apply flat_map_keys_sublist, next_step_keeps.
  - apply flat_map_keys_sublist, changed_step_keeps.
  - apply flat_map_keys_sublist, unchanged_step_keeps.
Qed.

Lemma refine_reply (w : world) (st : agent) (r : refinement) :
  (refine w st r).2 = reply_of (scanResults (refine w st r).1).
Proof. destruct r; reflexivity. Qed.

End Scan.

(** C6.  For each refinement step ([scan_next], [scan_changed],
    [scan_unchanged]) and each prior result set, the returned [count] is
    the size of the new set and is at most the size of the set before the
    step, the returned [results] are its first 1000 entries, and the
    addresses of the new set are a subsequence, hence a subset, of the
    addresses of the prior one. *)
Theorem refinement_shrinks `{RT : Runtime} (w : world) (st : agent)
    (r : refinement) :
  let st' := (refine w st r).1 in
  let reply := (refine w st r).2 in
  count reply = length (scanResults st') /\
  results reply = take 1000 (scanResults st') /\
  (count reply <= length (scanResults st))%nat /\
  (sr_address <$> scanResults st') `sublist_of` (sr_address <$> scanResults st) /\
  forall a, a ∈ (sr_address <$> scanResults st') ->
            a ∈ (sr_address <$> scanResults st).
Proof.
  cbn zeta. rewrite refine_reply. cbn [reply_of count results].
  pose proof (refine_sublist w st r) as Hsub.
  split; [reflexivity|]. split; [reflexivity|]. split.
  - apply sublist_length in Hsub. rewrite !length_fmap in Hsub. exact Hsub.
  - split; [exact Hsub|]. intros a Ha. exact (elem_of_sublist _ _ _ Ha Hsub).
Qed.

(** S4 of the specification: [42] at [0x3000] and [0x3008]; the first is
    overwritten with [100]; [scan_next("int32", "42", "eq")] keeps the
    second only. *)
Example progressive_scan :
  let w :=
    with_memory target_process
      (<[0x3000%N := Byte.x64]> (<[0x3008%N := Byte.x2a]> ∅)) in
  let hit a := @ScanResult numeric_runtime a 4 "2a 00 00 00" None None in
  let st := @with_scan numeric_runtime injected [hit "0x3000"; hit "0x3008"] in
  let out := @scan_next numeric_runtime w st "int32" (JStr "42") (Some "eq") in
  count out.2 = 1 /\
  List.map sr_address (scanResults out.1) = ["0x3008"].
Proof. vm_compute. split; reflexivity. Qed.

(* --------------------------------------------------------------------- *)
(** ** Protection and memory under [Memory.protect] and writes            *)
(* --------------------------------------------------------------------- *)

Ltac cases_N :=
  repeat match goal with
  | |- context [(?a <=? ?b)%N] => destruct (N.leb_spec a b)
  | |- context [(?a <? ?b)%N] => destruct (N.ltb_spec a b)
  | H : context [(?a <=? ?b)%N] |- _ => destruct (N.leb_spec a b)
  | H : context [(?a <? ?b)%N] |- _ => destruct (N.ltb_spec a b)
  end.

Lemma span_all_spec (f : N -> bool) (a : N) (n : nat) :
  span_all f a n = true <-> forall x, in_span a n x = true -> f x = true.
Proof.
  revert a. induction n as [|n IH]; intros a; cbn [span_all].
  - split; [|reflexivity]. intros _ x Hx. unfold in_span in Hx.
    cbn in Hx. cases_N; cbn in Hx; try discriminate; lia.
  - rewrite andb_true_iff, IH. unfold in_span. split.
    + intros [Ha Hn] x Hx.
      destruct (N.eq_dec x a) as [->|Hne]; [exact Ha|].
      apply Hn. cases_N; cbn in *; try discriminate; try reflexivity; lia.
    + intros H. split.
      * apply H. cases_N; cbn; try reflexivity; lia.
      * intros x Hx. apply H.
        cases_N; cbn in *; try discriminate; try reflexivity; lia.
Qed.

Lemma in_span_empty (a x : N) : in_span a 0 x = false.
Proof. unfold in_span. cbn. cases_N; cbn; try reflexivity; lia. Qed.

Lemma in_span_first (a : N) (n : nat) : in_span a (S n) a = true.
Proof. unfold in_span. cases_N; cbn; try reflexivity; lia. Qed.

(** The pieces a range is cut into cover the same addresses; the piece
    inside the span has the new flags, the others the old ones. *)
Lemma reprotect_piece (a : N) (n : nat) (p : prot) (r : range) (x : N) :
  r_prot <$> List.find (fun r' => contains r' x) (reprotect a (N.of_nat n) p r)
  = if contains r x
    then Some (if in_span a n x then p else r_prot r)
    else None.
Proof.
  unfold reprotect, contains, in_span.
  destruct r as [b s q f]; cbn [base size r_prot file].
  destruct (N.max_spec b a) as [[? ->] | [? ->]];
  destruct (N.min_spec (b + s) (a + N.of_nat n)) as [[? ->] | [? ->]];
    cases_N; cbn [app List.find contains base size r_prot file fmap option_fmap
                  option_map andb];
    unfold contains; cbn [base size];
    cases_N; cbn; try reflexivity; lia.
Qed.

Lemma find_app_split {A : Type} (f : A -> bool) (l k : list A) :
  List.find f (l ++ k)
  = match List.find f l with Some x => Some x | None => List.find f k end.
Proof.
  induction l as [|y l IH]; cbn; [reflexivity|].
  destruct (f y); [reflexivity | exact IH].
Qed.

Lemma reprotect_find (a : N) (n : nat) (p : prot) (rs : list range) (x : N) :
  r_prot <$> List.find (fun r' => contains r' x)
               (flat_map (reprotect a (N.of_nat n) p) rs)
  = match r_prot <$> List.find (fun r' => contains r' x) rs with
    | Some q => Some (if in_span a n x then p else q)
    | None => None
    end.
Proof.
  induction rs as [|r rs IH]; cbn [flat_map List.find]; [reflexivity|].
  rewrite find_app_split.
  pose proof (reprotect_piece a n p r x) as Hp.
  destruct (List.find (fun r' => contains r' x) (reprotect a (N.of_nat n) p r))
    as [piece|]; destruct (contains r x); cbn in Hp |- *;
    try discriminate Hp; [exact Hp | exact IH].
Qed.

Lemma prot_at_with_ranges (w : world) (a : N) (n : nat) (p : prot) (x : N) :
  prot_at (with_ranges w (flat_map (reprotect a (N.of_nat n) p) (ranges w))) x
  = match prot_at w x with
    | Some q => Some (if in_span a n x then p else q)
    | None => None
    end.
Proof. unfold prot_at, findRangeByAddress. cbn [ranges with_ranges]. apply reprotect_find. Qed.

Lemma prot_at_store_span (w : world) (a : N) (bs : list byte) (x : N) :
  prot_at (store_span w a bs) x = prot_at w x.
Proof.
  revert w a. induction bs as [|b bs IH]; intros w a; cbn [store_span];
    [reflexivity|]. rewrite IH. reflexivity.
Qed.

Lemma ranges_store_span (w : world) (a : N) (bs : list byte) :
  ranges (store_span w a bs) = ranges w.
Proof.
  revert w a. induction bs as [|b bs IH]; intros w a; cbn [store_span];
    [reflexivity|]. rewrite IH. reflexivity.
Qed.

Lemma load_store (w : world) (a : N) (b : byte) (x : N) :
  load (store w a b) x = if N.eqb a x then b else load w x.
Proof.
  unfold load, store. cbn [memory with_memory].
  destruct (N.eqb_spec a x) as [->|Hne].
  - rewrite lookup_insert_eq. reflexivity.
  - rewrite lookup_insert_ne by exact Hne. reflexivity.
Qed.

Lemma load_store_span_outside (w : world) (a : N) (bs : list byte) (x : N) :
  in_span a (length bs) x = false -> load (store_span w a bs) x = load w x.
Proof.
  revert w a. induction bs as [|b bs IH]; intros w a Hx; cbn [store_span];
    [reflexivity|].
  cbn [length] in Hx. rewrite IH, load_store.
  - destruct (N.eqb_spec a x) as [->|]; [|reflexivity].
    rewrite in_span_first in Hx. discriminate.
  - unfold in_span in *.
    cases_N; cbn in *; try discriminate; try reflexivity; lia.
Qed.

(** Storing back what another world holds in the span. *)
Lemma load_store_span_copy (w0 w : world) (a : N) (n : nat) (x : N) :
  load (store_span w a (load_span w0 a n)) x
  = if in_span a n x then load w0 x else load w x.
Proof.
  revert w a. induction n as [|n IH]; intros w a; cbn [load_span store_span].
  - rewrite in_span_empty. reflexivity.
  - rewrite IH, load_store. unfold in_span.
    destruct (N.eqb_spec a x) as [->|Hne];
      cases_N; cbn; try reflexivity; lia.
Qed.

Lemma load_span_ext (w1 w2 : world) (a : N) (n : nat) :
  (forall x, in_span a n x = true -> load w1 x = load w2 x) ->
  load_span w1 a n = load_span w2 a n.
Proof.
  revert a. induction n as [|n IH]; intros a H; cbn [load_span]; [reflexivity|].
  f_equal.
  - apply H, in_span_first.
  - apply IH. intros x Hx. apply H. unfold in_span in *.
    cases_N; cbn in *; try discriminate; try reflexivity; lia.
Qed.

Lemma load_span_stored (w : world) (a : N) (bs : list byte) :
  load_span (store_span w a bs) a (length bs) = bs.
Proof.
  revert w a. induction bs as [|b bs IH]; intros w a;
    cbn [store_span load_span length]; [reflexivity|].
  f_equal.
  - rewrite load_store_span_outside, load_store, N.eqb_refl; [reflexivity|].
    unfold in_span. cases_N; cbn; try reflexivity; lia.
  - apply IH.
Qed.

Lemma write_bytes_writable (w : world) (a : N) (bs : list byte) :
  span_all (writable w) a (length bs) = true ->
  write_bytes w a bs = (store_span w a bs, Normal tt).
Proof.
  revert w a. induction bs as [|b bs IH]; intros w a H;
    cbn [write_bytes store_span length span_all] in *; [reflexivity|].
  apply andb_true_iff in H as [Ha Hn]. rewrite Ha. apply IH.
  erewrite span_all_spec in Hn |- *. exact Hn.
Qed.

Lemma write_bytes_normal (w : world) (a : N) (bs : list byte)
    (w' : world) (u : unit) :
  write_bytes w a bs = (w', Normal u) ->
  span_all (writable w) a (length bs) = true.
Proof.
  revert w a. induction bs as [|b bs IH]; intros w a H;
    cbn [write_bytes length span_all] in *; [reflexivity|].
  destruct (writable w a) eqn:Ha; [|discriminate H].
  cbn. apply IH in H. erewrite span_all_spec in H |- *. exact H.
Qed.

(* --------------------------------------------------------------------- *)
(** ** The patch engine                                                   *)
(* --------------------------------------------------------------------- *)

Lemma includes_protection (p : prot) :
  includes (protection_string p) "r" = p_r p /\
  includes (protection_string p) "w" = p_w p /\
  includes (protection_string p) "x" = p_x p.
Proof. destruct p as [[] [] []]; repeat split. Qed.

Lemma parse_protection_string (p : prot) :
  parse_protection (protection_string p) = Normal p.
Proof. destruct p as [[] [] []]; reflexivity. Qed.

Lemma parse_raised_protection (r x : bool) :
  parse_protection ((if r then "r" else "") +:+ "w" +:+ (if x then "x" else ""))
  = Normal (Prot r true x).
Proof. destruct r, x; reflexivity. Qed.

Lemma memory_store_span (w1 w2 : world) (a : N) (bs : list byte) :
  memory w1 = memory w2 ->
  memory (store_span w1 a bs) = memory (store_span w2 a bs).
Proof.
  revert w1 w2 a. induction bs as [|b bs IH]; intros w1 w2 a H;
    cbn [store_span]; [exact H|].
  apply IH. cbn [store memory with_memory]. rewrite H. reflexivity.
Qed.

Lemma readable_mapped (w : world) (x : N) :
  readable w x = true -> mapped w x = true.
Proof. unfold readable, mapped. destruct (prot_at w x); [reflexivity | discriminate]. Qed.

Lemma span_all_impl (f g : N -> bool) (a : N) (n : nat) :
  (forall x, in_span a n x = true -> f x = true -> g x = true) ->
  span_all f a n = true -> span_all g a n = true.
Proof. rewrite !span_all_spec. intros H Hf x Hx. auto. Qed.

Lemma Memory_protect_mapped (w : world) (t : N) (n : nat) (s : string)
    (p : prot) :
  parse_protection s = Normal p ->
  span_all (mapped w) t n = true ->
  Memory_protect w t n s
  = (with_ranges w (flat_map (reprotect t (N.of_nat n) p) (ranges w)),
     Normal true).
Proof. intros Hs Hm. unfold Memory_protect. rewrite Hs, Hm. reflexivity. Qed.

(** What a call of [patch_bytes] does when the bytes of the span can be
    read and, for a range that is already writable, written. *)
Lemma patch_bytes_run (w : world) (a : jsval) (bs : list byte)
    (t : N) (r : range) :
  ptr a = Normal t ->
  findRangeByAddress w t = Some r ->
  span_all (readable w) t (length bs) = true ->
  (p_w (r_prot r) = true -> span_all (writable w) t (length bs) = true) ->
  exists w',
    patch_bytes w a bs = (w', Patched a (load_span w t (length bs)) bs) /\
    (forall x, load w' x = load (store_span w t bs) x) /\
    (forall x, prot_at w' x =
               if p_w (r_prot r) then prot_at w x
               else match prot_at w x with
                    | Some q => Some (if in_span t (length bs) x
                                      then r_prot r else q)
                    | None => None
                    end).
Proof.
  intros Hp Hf Hr Hw. unfold patch_bytes.
  rewrite Hp, Hf, (read_bytes_readable _ _ _ Hr). unfold protection.
  destruct (includes_protection (r_prot r)) as (-> & -> & ->).
  destruct (p_w (r_prot r)) eqn:Hpw; cbn [negb].
  - rewrite (write_bytes_writable _ _ _ (Hw eq_refl)).
    eexists. split; [reflexivity|]. split; [reflexivity|].
    intros x. apply prot_at_store_span.
  - rewrite (Memory_protect_mapped _ _ _ _ _ (parse_raised_protection _ _)
               (span_all_impl _ _ _ _ (fun x _ => readable_mapped w x) Hr)).
    set (w1 := with_ranges w _).
    assert (H1 : forall x, prot_at w1 x =
               match prot_at w x with
               | Some q => Some (if in_span t (length bs) x
                                 then Prot (p_r (r_prot r)) true (p_x (r_prot r))
                                 else q)
               | None => None
               end) by (intros x; apply prot_at_with_ranges).
    assert (Hw1 : span_all (writable w1) t (length bs) = true).
    { apply span_all_spec. intros x Hx. unfold writable. rewrite H1, Hx.
      rewrite span_all_spec in Hr. specialize (Hr x Hx). unfold readable in Hr.
      destruct (prot_at w x); [reflexivity | discriminate]. }
    rewrite (write_bytes_writable _ _ _ Hw1).
    assert (Hm2 : span_all (mapped (store_span w1 t bs)) t (length bs) = true).
    { apply span_all_spec. intros x Hx. unfold mapped.
      rewrite prot_at_store_span, H1.
      rewrite span_all_spec in Hr. specialize (Hr x Hx). unfold readable in Hr.
      destruct (prot_at w x); [reflexivity | discriminate]. }
    rewrite (Memory_protect_mapped _ _ _ _ _ (parse_protection_string _) Hm2).
    eexists. split; [reflexivity|]. split.
    + intros x. unfold load. cbn [memory with_ranges].
      rewrite (memory_store_span w1 w t bs eq_refl). reflexivity.
    + intros x. rewrite prot_at_with_ranges, prot_at_store_span, H1.
      destruct (prot_at w x); [|reflexivity].
      destruct (in_span t (length bs) x); reflexivity.
Qed.

(** A call that reports success met those conditions. *)
Lemma patch_bytes_patched (w : world) (a : jsval) (bs : list byte)
    (w' : world) (a' : jsval) (orig patched : list byte) :
  patch_bytes w a bs = (w', Patched a' orig patched) ->
  exists t r,
    ptr a = Normal t /\
    findRangeByAddress w t = Some r /\
    span_all (readable w) t (length bs) = true /\
    (p_w (r_prot r) = true -> span_all (writable w) t (length bs) = true).
Proof.
  unfold patch_bytes. intros H.
  destruct (ptr a) as [t|] eqn:Hp; [|discriminate H].
  destruct (findRangeByAddress w t) as [r|] eqn:Hf; [|discriminate H].
  destruct (read_bytes w t (length bs)) as [o|] eqn:Hr; [|discriminate H].
  apply read_bytes_normal in Hr as [Hr _].
  exists t, r. repeat split; try assumption.
  intros Hpw. unfold protection in H.
  destruct (includes_protection (r_prot r)) as (_ & Hiw & _).
  rewrite Hiw, Hpw in H. cbn [negb] in H.
  destruct (write_bytes w t bs) as [w2 [u|e]] eqn:Hw; [|discriminate H].
  exact (write_bytes_normal _ _ _ _ _ Hw).
Qed.

(** C4.  After a successful [patch_bytes(a, b)], the call
    [restore_bytes(a, original)] with the [original] the first call
    returned succeeds, and every byte of memory, so in particular the span
    at [a], holds again what it held before the first call. *)
Theorem patch_restore_roundtrip (w : world) (a : jsval) (b : list byte)
    (w' : world) (a' : jsval) (original patched : list byte) :
  patch_bytes w a b = (w', Patched a' original patched) ->
  exists w'' t,
    ptr a = Normal t /\
    restore_bytes w' a original = (w'', Patched a b original) /\
    read_bytes w t (length b) = Normal original /\
    read_bytes w'' t (length b) = Normal original /\
    forall x, load w'' x = load w x.
Proof.
  intros H.
  destruct (patch_bytes_patched _ _ _ _ _ _ _ H) as (t & r & Hp & Hf & Hr & Hw).
  destruct (patch_bytes_run _ _ _ _ _ Hp Hf Hr Hw) as (w0 & H0 & Hload & Hprot).
  rewrite H in H0. injection H0 as <- -> -> ->.
  (* the state the restoring call starts from *)
  assert (Hlen : length (load_span w t (length b)) = length b)
    by apply load_span_length.
  assert (Ht : prot_at w t = Some (r_prot r)).
  { unfold prot_at. rewrite Hf. reflexivity. }
  assert (Ht' : prot_at w' t = Some (r_prot r)).
  { rewrite Hprot, Ht. destruct (p_w (r_prot r)); [reflexivity|].
    destruct (in_span t (length b) t); reflexivity. }
  destruct (findRangeByAddress w' t) as [r'|] eqn:Hf';
    [|unfold prot_at in Ht'; rewrite Hf' in Ht'; discriminate Ht'].
  assert (Hr' : r_prot r' = r_prot r).
  { unfold prot_at in Ht'. rewrite Hf' in Ht'. injection Ht' as Ht'. exact Ht'. }
  assert (Hread' : span_all (readable w') t (length b) = true).
  { apply span_all_spec. intros x Hx. unfold readable. rewrite Hprot.
    pose proof Hr as Hrx. rewrite span_all_spec in Hrx.
    specialize (Hrx x Hx). unfold readable in Hrx.
    destruct (p_w (r_prot r)); [exact Hrx|].
    destruct (prot_at w x) as [q|]; [|discriminate Hrx]. rewrite Hx.
    (* the span is not empty, so its first byte was read in [w] *)
    destruct (length b) as [|n] eqn:Hn;
      [rewrite in_span_empty in Hx; discriminate Hx|].
    cbn [span_all] in Hr. apply andb_true_iff in Hr as [Hfirst _].
    unfold readable in Hfirst. rewrite Ht in Hfirst. exact Hfirst. }
  assert (Hwrite' : p_w (r_prot r') = true ->
                    span_all (writable w') t (length b) = true).
  { rewrite Hr'. intros Hpw. specialize (Hw Hpw).
    apply span_all_spec. intros x Hx. unfold writable. rewrite Hprot, Hpw.
    rewrite span_all_spec in Hw. exact (Hw x Hx). }
  pose proof Hread' as HreadL. pose proof Hwrite' as HwriteL.
  rewrite <- Hlen in HreadL, HwriteL.
  destruct (patch_bytes_run w' a (load_span w t (length b)) t r'
              Hp Hf' HreadL HwriteL) as (w'' & H'' & Hload'' & Hprot'').
  rewrite Hlen in H'', Hprot''.
  assert (Hstored : load_span w' t (length b) = b).
  { rewrite <- (load_span_stored w t b) at 2.
    apply load_span_ext. intros x _. apply Hload. }
  rewrite Hstored in H''.
  assert (Hback : forall x, load w'' x = load w x).
  { intros x. rewrite Hload'', load_store_span_copy.
    destruct (in_span t (length b) x) eqn:Hx; [reflexivity|].
    rewrite Hload. apply load_store_span_outside. exact Hx. }
  exists w'', t. split; [exact Hp|]. split; [exact H''|].
  split; [apply read_bytes_readable, Hr|]. split; [|exact Hback].
  assert (Hread'' : span_all (readable w'') t (length b) = true).
  { apply span_all_spec. intros x Hx. unfold readable. rewrite Hprot'', Hr'.
    rewrite span_all_spec in Hread'. specialize (Hread' x Hx).
    unfold readable in Hread'.
    destruct (p_w (r_prot r)); [exact Hread'|].
    destruct (prot_at w' x) as [q|]; [|discriminate Hread'].
    rewrite Hx.
    destruct (length b) as [|n] eqn:Hn;
      [rewrite in_span_empty in Hx; discriminate Hx|].
    cbn [span_all] in Hr. apply andb_true_iff in Hr as [Hfirst _].
    unfold readable in Hfirst. rewrite Ht in Hfirst. exact Hfirst. }
  rewrite (read_bytes_readable _ _ _ Hread'').
  f_equal. apply load_span_ext. intros x _. apply Hback.
Qed.

(** S2 of the specification: [55 89 e5] at [0x1000] in an [r-x] range is
    patched with three NOPs and restored. *)
Lemma patch_restore_roundtrip_witness :
  let nops := [Byte.x90; Byte.x90; Byte.x90] in
  let prologue := [Byte.x55; Byte.x89; Byte.xe5] in
  let w' := (patch_bytes target_process (JStr "0x1000") nops).1 in
  patch_bytes target_process (JStr "0x1000") nops
    = (w', Patched (JStr "0x1000") prologue nops) /\
  exists w'' t,
    ptr (JStr "0x1000") = Normal t /\
    restore_bytes w' (JStr "0x1000") prologue
      = (w'', Patched (JStr "0x1000") nops prologue) /\
    read_bytes target_process t (length nops) = Normal prologue /\
    read_bytes w'' t (length nops) = Normal prologue /\
    forall x, load w'' x = load target_process x.
Proof.
  cbn zeta. split; [vm_compute; reflexivity|].
  apply (patch_restore_roundtrip target_process (JStr "0x1000")
           [Byte.x90; Byte.x90; Byte.x90]
           (patch_bytes target_process (JStr "0x1000")
              [Byte.x90; Byte.x90; Byte.x90]).1
           (JStr "0x1000") [Byte.x55; Byte.x89; Byte.xe5]
           [Byte.x90; Byte.x90; Byte.x90]).
  vm_compute. reflexivity.
Defined.

Example patch_restore_protection :
  let nops := [Byte.x90; Byte.x90; Byte.x90] in
  let prologue := [Byte.x55; Byte.x89; Byte.xe5] in
  let w' := (patch_bytes target_process (JStr "0x1000") nops).1 in
  let w'' := (restore_bytes w' (JStr "0x1000") prologue).1 in
  read_bytes w' 0x1000 3 = Normal nops /\
  read_bytes w'' 0x1000 3 = Normal prologue /\
  protection <$> findRangeByAddress w'' 0x1000 = Some "r-x".
Proof. vm_compute. repeat split. Qed.


(** A call that does not report success has not touched the ranges. *)
Lemma patch_bytes_failure (w : world) (a : jsval) (b : list byte)
    (w' : world) (e : string) :
  patch_bytes w a b = (w', Failure e) -> ranges w' = ranges w.
Proof.
  unfold patch_bytes. intros H.
  destruct (ptr a) as [t|] eqn:Hp; [|injection H as <- _; reflexivity].
  destruct (findRangeByAddress w t) as [r|] eqn:Hf;
    [|injection H as <- _; reflexivity].
  destruct (read_bytes w t (length b)) as [o|] eqn:Hr;
    [|injection H as <- _; reflexivity].
  apply read_bytes_normal in Hr as [Hr _].
  unfold protection in H.
  destruct (includes_protection (r_prot r)) as (Hir & Hiw & Hix).
  rewrite Hir, Hiw, Hix in H.
  destruct (p_w (r_prot r)) eqn:Hpw; cbn [negb] in H.
  - destruct (write_bytes w t b) as [w2 [u|e2]] eqn:Hw.
    + discriminate H.
    + injection H as <- _. clear - Hw.
      revert w t Hw. induction b as [|x b IH]; intros w t Hw;
        cbn [write_bytes] in Hw; [discriminate Hw|].
      destruct (writable w t).
      * rewrite (IH _ _ Hw). reflexivity.
      * injection Hw as <- _. reflexivity.
  - exfalso.
    rewrite (Memory_protect_mapped _ _ _ _ _ (parse_raised_protection _ _)
               (span_all_impl _ _ _ _ (fun x _ => readable_mapped w x) Hr)) in H.
    set (w1 := with_ranges w _) in H.
    assert (Hw1 : span_all (writable w1) t (length b) = true).
    { apply span_all_spec. intros x Hx. unfold writable, w1.
      rewrite prot_at_with_ranges, Hx.
      rewrite span_all_spec in Hr. specialize (Hr x Hx). unfold readable in Hr.
      destruct (prot_at w x); [reflexivity | discriminate]. }
    rewrite (write_bytes_writable _ _ _ Hw1) in H.
    assert (Hm2 : span_all (mapped (store_span w1 t b)) t (length b) = true).
    { apply span_all_spec. intros x Hx. unfold mapped, w1.
      rewrite prot_at_store_span, prot_at_with_ranges.
      rewrite span_all_spec in Hr. specialize (Hr x Hx). unfold readable in Hr.
      destruct (prot_at w x); [reflexivity | discriminate]. }
    rewrite (Memory_protect_mapped _ _ _ _ _ (parse_protection_string _) Hm2) in H.
    discriminate H.
Qed.

(** C3 at a failing input.  Four bytes patched at [0x1ffe] lie across the
    end of the [r-x] range at [0x1000] and the start of the [r--] range at
    [0x2000].  The call succeeds; before it the byte at [0x2000] is [r--],
    after it that byte is [r-x]: the whole span was given back the flags of
    the range that contains its first byte. *)
Theorem patch_across_ranges_changes_protection :
  let bytes := [Byte.x90; Byte.x90; Byte.x90; Byte.x90] in
  let out := patch_bytes target_process (JStr "0x1ffe") bytes in
  out.2 = Patched (JStr "0x1ffe")
            [Byte.x00; Byte.x00; Byte.x00; Byte.x00] bytes /\
  in_span 0x1ffe (length bytes) 0x2000 = true /\
  prot_at target_process 0x2000 = Some r__ /\
  prot_at out.1 0x2000 = Some r_x.
Proof. vm_compute. repeat split. Qed.

(* --------------------------------------------------------------------- *)
(** ** Ranges of a module                                                 *)
(* --------------------------------------------------------------------- *)

Section Listing.
Context {RT : Runtime}.

Lemma filter_loop_subset (arr : list Filter.obj) (items : list Filter.fitem)
    (finalResults currentAndBlock : list Filter.obj) (x : Filter.obj) :
  (forall y, y ∈ finalResults -> y ∈ arr) ->
  (forall y, y ∈ currentAndBlock -> y ∈ arr) ->
  x ∈ Filter.filter_loop arr items finalResults currentAndBlock -> x ∈ arr.
Proof.
  revert finalResults currentAndBlock.
  induction items as [|item items IH]; intros fin cur Hfin Hcur;
    cbn [Filter.filter_loop].
  - rewrite elem_of_add_all. intros [H | H]; auto.
  - destruct item as [| |key op value|].
    + apply IH; assumption.
    + apply IH; [|auto].
      intros y. rewrite elem_of_add_all. intros [H | H]; auto.
    + apply IH; [assumption|].
      intros y Hy. apply Hcur. rewrite list_elem_of_In in Hy |- *.
      apply filter_In in Hy. tauto.
    + apply IH; assumption.
Qed.

Lemma filtered_subset (arr : list Filter.obj)
    (filter : option (list Filter.fitem)) (x : Filter.obj) :
  x ∈ Filter.filtered arr filter -> x ∈ arr.
Proof.
  destruct filter as [[|item items]|]; cbn [Filter.filtered]; auto.
  apply filter_loop_subset; [intros y Hy; inversion Hy | auto].
Qed.

Lemma range_record_inj (i j : nat) (r r' : range) :
  range_record i r = range_record j r' ->
  base r = base r' /\ size r = size r'.
Proof.
  unfold range_record. intros H.
  pose proof (f_equal (fun o => Filter.props o !! "address") H) as Ha.
  pose proof (f_equal (fun o => Filter.props o !! "size") H) as Hs.
  cbv beta in Ha, Hs. cbn [Filter.props] in Ha, Hs.
  rewrite !lookup_insert_eq in Ha.
  rewrite !(lookup_insert_ne _ "address" "size") in Hs by discriminate.
  rewrite !lookup_insert_eq in Hs.
  assert (Ha' : toString (base r) = toString (base r')) by congruence.
  assert (Hs' : Z.of_N (size r) = Z.of_N (size r')) by congruence.
  split; [exact (toString_inj _ _ Ha') | lia].
Qed.

(** Whatever the filter, a range that ends where its module ends is never
    listed: the test on the end is strict. *)
Lemma module_end_range_dropped (w : world) (a : jsval)
    (protect : option string) (filter : option (list Filter.fitem))
    (p : N) (md : module) (r : range) (out : list Filter.obj) (i : nat) :
  (forall x, ptr_ltb x x = false) ->
  ptr a = Normal p ->
  findModuleByAddress w p = Some md ->
  (base r + size r = m_base md + m_size md)%N ->
  list_ranges_by_module w a protect filter = Normal out ->
  range_record i r ∉ out.
Proof.
  intros Hirr Hp Hmd Hend H Hin.
  unfold list_ranges_by_module in H. rewrite Hp in H. cbn in H.
  rewrite Hmd in H.
  destruct (enumerateRanges w (default "---" protect)) as [rs|]; cbn in H;
    [|discriminate H].
  injection H as <-. apply filtered_subset in Hin.
  apply list_elem_of_lookup in Hin as [j Hj].
  rewrite list_lookup_imap in Hj.
  destruct (List.filter _ rs !! j) as [r'|] eqn:Hr'; [|discriminate Hj].
  cbn [fmap option_fmap option_map] in Hj.
  assert (Hrec : range_record j r' = range_record i r) by congruence.
  apply range_record_inj in Hrec as [Hb Hs].
  apply list_elem_of_lookup_2, list_elem_of_In, filter_In in Hr' as [_ Hc].
  apply andb_true_iff in Hc as [_ Hc].
  rewrite Hb, Hs, Hend, Hirr in Hc. discriminate Hc.
Qed.

End Listing.

(** With pointers compared by value and no filter, the records returned
    are those of the enumerated ranges that start at or after the module's
    base and end strictly before the module's end. *)
Lemma listed_ranges_strict (w : world) (a : jsval) (protect : option string)
    (p : N) (md : module) (rs : list range) :
  ptr a = Normal p ->
  findModuleByAddress w p = Some md ->
  enumerateRanges w (default "---" protect) = Normal rs ->
  @list_ranges_by_module numeric_runtime w a protect None
  = Normal (imap range_record
              (List.filter
                 (fun m => (m_base md <=? base m)%N &&
                           (base m + size m <? m_base md + m_size md)%N)
                 rs)).
Proof.
  intros Hp Hmd Hrs. unfold list_ranges_by_module.
  rewrite Hp. cbn. rewrite Hmd, Hrs. reflexivity.
Qed.

(** C9 at a failing input.  The module at [0x1000] consists of the single
    range [[0x1000, 0x2000)]; that range starts at the module's base and
    ends at the module's end, so it is contained in the module's span, yet
    [list_ranges_by_module] returns the empty list for an address inside
    it, whether pointers are compared by value or by their renderings. *)
Theorem module_last_range_not_listed :
  findModuleByAddress target_process 0x1004
    = Some (Module_ "target" 0x1000 0x1000 "/bin/target") /\
  text_range ∈ ranges target_process /\
  (0x1000 <= base text_range)%N /\
  (base text_range + size text_range <= 0x1000 + 0x1000)%N /\
  @list_ranges_by_module numeric_runtime target_process (JStr "0x1004")
     None None = Normal [] /\
  @list_ranges_by_module textual_runtime target_process (JStr "0x1004")
     None None = Normal [].
Proof.
  split; [reflexivity|]. split; [constructor|].
  split; [vm_compute; discriminate|]. split; [vm_compute; discriminate|].
  split; vm_compute; reflexivity.
Qed.

(* ===================================================================== *)
(** * Further properties of the handlers                                  *)
(* ===================================================================== *)

(* --------------------------------------------------------------------- *)
(** ** Filters as decisions on one element                                *)
(* --------------------------------------------------------------------- *)

#[local] Existing Instance Filter.obj_eq_dec.

Section FilterDecides.
Context {RT : Runtime}.

Lemma elem_of_filter_block (x : Filter.obj) (f : Filter.obj -> bool)
    (block : list Filter.obj) :
  bool_decide (x ∈ List.filter f block) = bool_decide (x ∈ block) && f x.
Proof.
  apply eq_true_iff_eq. rewrite andb_true_iff, !bool_decide_eq_true.
  rewrite !list_elem_of_In. apply filter_In.
Qed.

Lemma filter_loop_accepts (arr : list Filter.obj) (items : list Filter.fitem)
    (finalResults currentAndBlock : list Filter.obj) (x : Filter.obj) :
  (forall y, y ∈ currentAndBlock -> y ∈ arr) ->
  x ∈ Filter.filter_loop arr items finalResults currentAndBlock <->
  x ∈ finalResults \/
  (x ∈ arr /\ Filter.accepts items x (bool_decide (x ∈ currentAndBlock)) = true).
Proof.
  revert finalResults currentAndBlock.
  induction items as [|item items IH]; intros fin cur Hcur;
    cbn [Filter.filter_loop Filter.accepts].
  - rewrite elem_of_add_all, bool_decide_eq_true. split.
    + intros [H | H]; [left; exact H | right; split; [apply Hcur, H | exact H]].
    + intros [H | [_ H]]; [left | right]; exact H.
  - destruct item as [| |key op value|].
    + apply IH, Hcur.
    + rewrite IH by auto. rewrite elem_of_add_all, orb_true_iff.
      rewrite bool_decide_eq_true. split.
      * intros [[H | H] | [Ha H]].
        -- left; exact H.
        -- right. split; [apply Hcur, H | left; exact H].
        -- right. split; [exact Ha|]. right.
           rewrite bool_decide_true in H by exact Ha. exact H.
      * intros [H | [Ha [H | H]]].
        -- left; left; exact H.
        -- left; right; exact H.
        -- right. split; [exact Ha|].
           rewrite bool_decide_true by exact Ha. exact H.
    + rewrite IH.
      * rewrite elem_of_filter_block. reflexivity.
      * intros y Hy. apply Hcur. rewrite list_elem_of_In in Hy |- *.
        apply filter_In in Hy. tauto.
    + apply IH, Hcur.
Qed.



End FilterDecides.


(** S6 of the specification: [[["n","=","a"],"or",["n","=","c"]]] on
    records named [a], [b], [c]. *)
Example filter_or :
  let named name i := Filter.Obj i (<["n" := JStr name]> ∅) in
  @Filter.filtered numeric_runtime [named "a" 0; named "b" 1; named "c" 2]
    (Some [Filter.FCond (JStr "n") (JStr "=") (JStr "a"); Filter.FOr;
           Filter.FCond (JStr "n") (JStr "=") (JStr "c")])
  = [named "a" 0; named "c" 2].
Proof. vm_compute. reflexivity. Qed.


(** X3.  The operators [':'] and ['!:'] split the input: an element of
    the input is kept by [[k, '!:', v]] exactly when [[k, ':', v]] drops
    it. *)
Theorem filtered_not_contains_complement `{RT : Runtime}
    (arr : list Filter.obj) (k v : jsval) (x : Filter.obj) :
  x ∈ Filter.filtered arr (Some [Filter.FCond k (JStr "!:") v]) <->
  x ∈ arr /\ x ∉ Filter.filtered arr (Some [Filter.FCond k (JStr ":") v]).
Proof.
  unfold Filter.filtered. rewrite !filter_loop_accepts by auto.
  cbn [Filter.accepts]. unfold Filter.evaluate. cbn [to_string].
  change (Filter.operators "!:") with
    (Some (fun a b => negb (includes (toLowerCase (to_string a))
                                     (toLowerCase (to_string b))))).
  change (Filter.operators ":") with
    (Some (fun a b => includes (toLowerCase (to_string a))
                               (toLowerCase (to_string b)))).
  cbv beta.
  destruct (includes (toLowerCase (to_string (Filter.get x (to_string k))))
              (toLowerCase (to_string v))) eqn:E;
    rewrite ?E; cbn [negb]; rewrite ?andb_false_r, ?andb_true_r; split.
  - intros [H | [Ha H]]; [inversion H | discriminate H].
  - intros [Ha Hn]. exfalso. apply Hn. right. split; [exact Ha|].
    apply bool_decide_eq_true. exact Ha.
  - intros [H | [Ha H]]; [inversion H|]. split; [exact Ha|].
    intros [H' | [_ H']]; [inversion H' | discriminate H'].
  - intros [Ha _]. right. split; [exact Ha|].
    apply bool_decide_eq_true. exact Ha.
Qed.



(* --------------------------------------------------------------------- *)
(** ** The hook table                                                     *)
(* --------------------------------------------------------------------- *)

Lemma table_get_elem (t : hook_table) (id : string) (h : hook) :
  table_get t id = Some h -> (id, h) ∈ t.
Proof.
  unfold table_get. induction t as [|[i x] t IH]; cbn; [discriminate|].
  destruct (String.eqb_spec i id) as [Heq|Hne]; cbn.
  - intros H. injection H as ->. subst i. constructor.
  - intros H. apply list_elem_of_further, IH, H.
Qed.

Lemma table_get_none (t : hook_table) (id : string) :
  table_get t id = None <-> id ∉ (fst <$> t).
Proof.
  unfold table_get. induction t as [|[i x] t IH]; cbn.
  - split; [intros _ H; inversion H | reflexivity].
  - rewrite not_elem_of_cons.
    destruct (String.eqb_spec i id) as [Heq|Hne]; cbn.
    + split; [discriminate | intros [H _]; congruence].
    + rewrite IH. split; [intros H; split; [congruence | exact H] | tauto].
Qed.

Lemma elem_of_table_delete (t : hook_table) (id i : string) (h : hook) :
  (i, h) ∈ table_delete t id <-> (i, h) ∈ t /\ i <> id.
Proof.
  unfold table_delete. rewrite !list_elem_of_In, filter_In. cbn.
  rewrite negb_true_iff. destruct (String.eqb_spec i id); split;
    intros [H1 H2]; (split; [exact H1 | congruence]).
Qed.

Lemma NoDup_table_delete (t : hook_table) (id : string) :
  NoDup (fst <$> t) -> NoDup (fst <$> table_delete t id).
Proof.
  unfold table_delete. induction t as [|[i x] t IH]; cbn; intros Hnd;
    [constructor|].
  apply NoDup_cons in Hnd as [Hi Hnd].
  destruct (String.eqb i id); cbn; [apply IH, Hnd|].
  apply NoDup_cons. split; [|apply IH, Hnd].
  intros Hin. apply Hi. apply list_elem_of_fmap in Hin as ([i' x'] & -> & Hin).
  apply list_elem_of_fmap. exists (i', x'). split; [reflexivity|].
  rewrite list_elem_of_In in Hin |- *. apply filter_In in Hin. tauto.
Qed.

Lemma table_get_delete (t : hook_table) (id i : string) :
  table_get (table_delete t id) i
  = if String.eqb i id then None else table_get t i.
Proof.
  unfold table_get, table_delete. induction t as [|[j x] t IH]; cbn.
  - destruct (String.eqb i id); reflexivity.
  - destruct (String.eqb_spec j id) as [Heq|Hne]; cbn.
    + rewrite IH. subst j. destruct (String.eqb_spec i id) as [Heq'|Hne'];
        [reflexivity|].
      destruct (String.eqb_spec id i); [congruence | reflexivity].
    + destruct (String.eqb_spec j i) as [Heq'|Hne']; cbn.
      * destruct (String.eqb_spec i id); [congruence | reflexivity].
      * exact IH.
Qed.

(** [activeHooks.set] on a key that is present. *)
Lemma table_set_present (t : hook_table) (id : string) (h0 h : hook) :
  table_get t id = Some h0 ->
  table_get (table_set t id h) id = Some h /\
  fst <$> table_set t id h = fst <$> t /\
  (forall i, i <> id -> table_get (table_set t id h) i = table_get t i) /\
  (forall i x, (i, x) ∈ table_set t id h ->
               (i = id /\ x = h) \/ (i <> id /\ (i, x) ∈ t)).
Proof.
  intros Hget. unfold table_set. rewrite Hget.
  split; [|split; [|split]].
  - revert Hget. unfold table_get.
    induction t as [|[j x] t IH]; cbn; [discriminate|].
    destruct (String.eqb_spec j id) as [Heq|Hne]; cbn.
    + rewrite String.eqb_refl. reflexivity.
    + destruct (String.eqb_spec j id); [congruence|]. exact IH.
  - clear Hget. induction t as [|[j x] t IH]; cbn; [reflexivity|].
    change (List.map ?f t) with (f <$> t) in *.
    destruct (String.eqb_spec j id) as [Heq|Hne]; cbn; f_equal;
      try exact IH. congruence.
  - intros i Hi. clear Hget. unfold table_get.
    induction t as [|[j x] t IH]; cbn; [reflexivity|].
    destruct (String.eqb_spec j id) as [Heq|Hne]; cbn.
    + subst j. destruct (String.eqb_spec id i); [congruence | exact IH].
    + destruct (String.eqb_spec j i); [reflexivity | exact IH].
  - intros i x Hin. clear Hget.
    apply list_elem_of_In, in_map_iff in Hin as ([j y] & Heq & Hin).
    cbn in Heq. apply list_elem_of_In in Hin.
    destruct (String.eqb_spec j id) as [Heq'|Hne].
    + injection Heq as <- <-. left. split; reflexivity.
    + injection Heq as <- <-. right. split; assumption.
Qed.

(** [activeHooks.set] on a fresh key. *)
Lemma table_set_fresh (t : hook_table) (id : string) (h : hook) :
  table_get t id = None -> table_set t id h = (t ++ [(id, h)])%list.
Proof. intros H. unfold table_set. rewrite H. reflexivity. Qed.

Lemma table_get_app_fresh (t : hook_table) (id i : string) (h : hook) :
  table_get t id = None ->
  table_get (t ++ [(id, h)])%list i
  = if String.eqb i id then Some h else table_get t i.
Proof.
  unfold table_get. induction t as [|[j x] t IH]; cbn.
  - intros _. rewrite (String.eqb_sym id i).
    destruct (String.eqb i id); reflexivity.
  - destruct (String.eqb_spec j id) as [Heq|Hne]; cbn; [discriminate|].
    intros H. destruct (String.eqb_spec j i) as [Heq'|Hne']; cbn.
    + destruct (String.eqb_spec i id); [congruence | reflexivity].
    + apply IH, H.
Qed.

Lemma js_or_idem (a b : jsval) : js_or (js_or a b) b = js_or a b.
Proof.
  unfold js_or. destruct (truthy a) eqn:Ha; [rewrite Ha; reflexivity|].
  destruct (truthy b); reflexivity.
Qed.

(** Handing a stored [hookConfig] back to [hook_attach] rebuilds it. *)
Lemma make_hookConfig_stored (config : config) :
  make_hookConfig (as_config (make_hookConfig config)) = make_hookConfig config.
Proof.
  unfold make_hookConfig, as_config. cbn. rewrite !js_or_idem.
  destruct (is_false (cfg_onEnter config)), (is_true (cfg_onLeave config)),
    (is_true (cfg_logArgs config)), (is_true (cfg_logRetval config)),
    (is_true (cfg_backtrace config)); reflexivity.
Qed.

Section HookTable.
Context {RT : Runtime}.

Lemma consistent_fresh (st : agent) :
  consistent st ->
  table_get (activeHooks st) ("hook_" +:+ pretty (hookIdCounter st)) = None.
Proof.
  intros [_ Hall]. apply table_get_none. intros Hin.
  apply list_elem_of_fmap in Hin as ([i x] & Heq & Hin). cbn in Heq. subst i.
  destruct (Hall _ _ Hin) as [(n & Hn & Hlt) _].
  apply hook_id_inj in Hn. lia.
Qed.

(** A successful [hook_attach] in full. *)
Lemma hook_attach_attached (w : world) (st : agent) (address : jsval)
    (cfg : config) (w' : world) (st' : agent) (id : string) (a' : jsval) :
  hook_attach w st address cfg = (w', st', Attached id a') ->
  exists target,
    ptr address = Normal target /\
    id = "hook_" +:+ pretty (hookIdCounter st) /\ a' = address /\
    hookIdCounter st' = (hookIdCounter st + 1)%N /\
    activeHooks st' =
      table_set (activeHooks st) id
        (Hook (Some (next_handle w)) (make_hookConfig cfg) address true
           (toString target)) /\
    listeners w' =
      (listeners w ++
       [Listener (next_handle w) target
          (Closure id address (make_hookConfig cfg))])%list.
Proof.
  unfold hook_attach. intros H.
  destruct (ptr address) as [target|msg]; [|discriminate H].
  destruct (findRangeByAddress w target) as [r|]; [|discriminate H].
  destruct (negb (includes (protection r) "x")); [discriminate H|].
  unfold Interceptor_attach in H.
  destruct (bool_decide (target ∈ unhookable w)); [discriminate H|].
  injection H as <- <- <- <-. exists target. repeat split.
Qed.

Lemma hook_attach_consistent (w : world) (st : agent) (address : jsval)
    (cfg : config) (w' : world) (st' : agent) (e : envelope) :
  consistent st ->
  hook_attach w st address cfg = (w', st', e) ->
  consistent st'.
Proof.
  intros Hc H.
  destruct (hook_attach_cases _ _ _ _ _ _ _ H)
    as [Hn [(m & -> & _ & Ht) | (t & h & -> & _)]].
  - destruct Hc as [Hnd Hall]. split; [rewrite Ht; exact Hnd|].
    intros i x Hin. rewrite Ht in Hin. rewrite Hn.
    destruct (Hall i x Hin) as [(n & Hi & Hlt) Hrest].
    split; [|exact Hrest]. exists n. split; [exact Hi | lia].
  - destruct (hook_attach_attached _ _ _ _ _ _ _ _ H)
      as (target & _ & _ & _ & _ & Ht & _).
    pose proof (consistent_fresh _ Hc) as Hfresh.
    rewrite (table_set_fresh _ _ _ Hfresh) in Ht.
    destruct Hc as [Hnd Hall]. split.
    + rewrite Ht, fmap_app. apply NoDup_app. split; [exact Hnd|].
      split; [|apply NoDup_singleton].
      intros i Hi Hi'. apply list_elem_of_singleton in Hi'. cbn in Hi'. subst i.
      apply table_get_none in Hfresh. exact (Hfresh Hi).
    + intros i x Hin. rewrite Ht in Hin. rewrite Hn.
      apply elem_of_app in Hin as [Hin | Hin].
      * destruct (Hall i x Hin) as [(n & Hi & Hlt) Hrest].
        split; [|exact Hrest]. exists n. split; [exact Hi | lia].
      * apply list_elem_of_singleton in Hin. injection Hin as -> ->.
        split; [exists (hookIdCounter st); split; [reflexivity | lia]|].
        cbn. split; [split; eauto | eauto].
Qed.

Lemma consistent_delete (st : agent) (id : string) :
  consistent st ->
  consistent (with_hooks st (table_delete (activeHooks st) id)
                (hookIdCounter st)).
Proof.
  intros [Hnd Hall]. split; cbn.
  - apply NoDup_table_delete, Hnd.
  - intros i x Hin. apply elem_of_table_delete in Hin as [Hin _].
    exact (Hall i x Hin).
Qed.

Lemma perform_consistent (w : world) (st : agent) (c : call)
    (w' : world) (st' : agent) (e : envelope) :
  consistent st -> perform w st c = (w', st', e) -> consistent st'.
Proof.
  intros Hc H. destruct c as [address cfg|id|id|id| |change]; cbn [perform] in H.
  - exact (hook_attach_consistent _ _ _ _ _ _ _ Hc H).
  - unfold hook_detach in H.
    destruct (table_get (activeHooks st) id) as [hk|];
      [destruct (h_listener hk)|]; injection H as <- <- <-;
      [apply consistent_delete, Hc | exact Hc | exact Hc].
  - unfold hook_enable in H.
    destruct (table_get (activeHooks st) id) as [hk|];
      [|injection H as <- <- <-; exact Hc].
    destruct (h_enabled hk); [injection H as <- <- <-; exact Hc|].
    destruct (hook_attach w st (h_address hk) (as_config (h_config hk)))
      as [[w1 st1] e1] eqn:Ha.
    pose proof (hook_attach_consistent _ _ _ _ _ _ _ Hc Ha) as Hc1.
    destruct e1; injection H as <- <- <-; try exact Hc1.
    apply consistent_delete, Hc1.
  - unfold hook_disable in H.
    destruct (table_get (activeHooks st) id) as [hk|] eqn:Hget;
      [|injection H as <- <- <-; exact Hc].
    destruct (negb (h_enabled hk)); [injection H as <- <- <-; exact Hc|].
    destruct (h_listener hk); injection H as <- <- <-; [|exact Hc].
    destruct (table_set_present _ _ _
                (Hook None (h_config hk) (h_address hk) false (h_target hk))
                Hget) as (_ & Hkeys & _ & Hel).
    destruct Hc as [Hnd Hall]. split; cbn.
    + rewrite Hkeys. exact Hnd.
    + intros i x Hin. destruct (Hel i x Hin) as [[-> ->] | [_ Hin']].
      * apply table_get_elem in Hget.
        destruct (Hall id hk Hget) as (Hnum & _ & Hcfg).
        split; [exact Hnum|]. cbn. split; [|exact Hcfg].
        split; [discriminate | intros [? Habs]; discriminate Habs].
      * exact (Hall i x Hin').
  - injection H as <- <- <-. split; cbn; [constructor|].
    intros i x Hin. inversion Hin.
  - injection H as <- <- <-. exact Hc.
Qed.

Lemma session_consistent (cs : list call) (w : world) (st : agent) :
  consistent st -> consistent (session w st cs).1.2.
Proof.
  revert w st. induction cs as [|c cs IH]; intros w st Hc; cbn [session].
  - exact Hc.
  - destruct (perform w st c) as [[w1 st1] e] eqn:Hp.
    pose proof (perform_consistent _ _ _ _ _ _ Hc Hp) as Hc1.
    specialize (IH w1 st1 Hc1).
    destruct (session w1 st1 cs) as [[w2 st2] ids]. exact IH.
Qed.

End HookTable.

(** X5.  In every state the hook manager reaches from injection, by any
    sequence of its handlers interleaved with anything else, the hook
    table has one entry per id, every id is [hook_<n>] with [n] below the
    counter, a hook holds a listener exactly when it is enabled, and every
    stored config is one [hook_attach] built. *)
Theorem reachable_hooks_consistent `{RT : Runtime} (cs : list call)
    (w : world) :
  let st := (session w injected cs).1.2 in
  NoDup (he_id <$> hook_list st) /\
  forall id h, (id, h) ∈ activeHooks st ->
    (exists n, id = "hook_" +:+ pretty n /\ (n < hookIdCounter st)%N) /\
    (h_enabled h = true <-> is_Some (h_listener h)) /\
    exists config, h_config h = make_hookConfig config.
Proof.
  cbn zeta.
  assert (Hinit : consistent injected).
  { split; cbn; [constructor|]. intros id h Hin. inversion Hin. }
  destruct (session_consistent cs w injected Hinit) as [Hnd Hall].
  split; [|exact Hall].
  unfold hook_list. change (List.map ?f ?l) with (f <$> l).
  rewrite <- list_fmap_compose.
  exact Hnd.
Qed.

Lemma injected_consistent `{RT : Runtime} : consistent injected.
Proof. split; cbn; [constructor|]. intros id h Hin. inversion Hin. Qed.

Lemma hook_list_filter_absent `{RT : Runtime} (t : hook_table) (id : string)
    (f : string * hook -> hook_entry) :
  (forall e, he_id (f e) = fst e) ->
  table_get t id = None ->
  List.filter (fun e => String.eqb (he_id e) id) (List.map f t) = [].
Proof.
  intros Hf. unfold table_get. induction t as [|e t IH]; cbn; [reflexivity|].
  rewrite Hf. destruct (String.eqb (fst e) id); cbn; [discriminate|].
  exact IH.
Qed.

(** X6.  In a consistent state, right after a successful [hook_attach]
    the list returned by [hook_list] has exactly one entry with the id the
    call returned; it is enabled, its [address] is the argument as given,
    its [target] is the hexadecimal rendering of the resolved address and
    its flags are those of the normalised config. *)
Theorem attached_hook_listed `{RT : Runtime} (w : world) (st : agent)
    (address : jsval) (cfg : config) (w' : world) (st' : agent)
    (id : string) (a' : jsval) :
  consistent st ->
  hook_attach w st address cfg = (w', st', Attached id a') ->
  exists target,
    ptr address = Normal target /\
    List.filter (fun e => String.eqb (he_id e) id) (hook_list st')
    = [HookEntry id address (toString target) true
         (negb (is_false (cfg_onEnter cfg))) (is_true (cfg_onLeave cfg))
         (is_true (cfg_logArgs cfg)) (is_true (cfg_logRetval cfg))].
Proof.
  intros Hc H.
  destruct (hook_attach_attached _ _ _ _ _ _ _ _ H)
    as (target & Hp & Hid & _ & _ & Ht & _).
  exists target. split; [exact Hp|].
  pose proof (consistent_fresh _ Hc) as Hfresh. rewrite <- Hid in Hfresh.
  rewrite (table_set_fresh _ _ _ Hfresh) in Ht.
  unfold hook_list. rewrite Ht, List.map_app, List.filter_app.
  rewrite hook_list_filter_absent;
    [|intros e; reflexivity | exact Hfresh].
  cbn. rewrite String.eqb_refl. reflexivity.
Qed.

Lemma attached_hook_listed_witness :
  let r := @hook_attach numeric_runtime target_process injected
             (JStr "0x1000") (log_args (JNum (Int 2))) in
  @consistent numeric_runtime injected /\
  r = (r.1.1, r.1.2, Attached "hook_0" (JStr "0x1000")) /\
  exists target,
    ptr (JStr "0x1000") = Normal target /\
    List.filter (fun e => String.eqb (he_id e) "hook_0") (hook_list r.1.2)
    = [HookEntry "hook_0" (JStr "0x1000") (toString target) true
         true false true false].
Proof.
  cbn zeta. split; [apply injected_consistent|]. split; [reflexivity|].
  apply (@attached_hook_listed numeric_runtime target_process injected
           (JStr "0x1000") (log_args (JNum (Int 2)))
           (@hook_attach numeric_runtime target_process injected
              (JStr "0x1000") (log_args (JNum (Int 2)))).1.1
           (@hook_attach numeric_runtime target_process injected
              (JStr "0x1000") (log_args (JNum (Int 2)))).1.2
           "hook_0" (JStr "0x1000"));
    [apply injected_consistent | reflexivity].
Defined.

(** X7.  Once [hook_disable] has succeeded on an id, the hook stays in the
    table without a listener; a second [hook_disable] answers ["Already
    disabled"] and changes nothing, and [hook_detach] on that id fails (its
    [hook.listener.detach()] is a call on [null]) and changes nothing
    either: a disabled hook cannot be detached. *)
Theorem disabled_hook_stuck `{RT : Runtime} (w : world) (st : agent)
    (id : string) (w' : world) (st' : agent) :
  hook_disable w st id = (w', st', Success) ->
  (exists hk, table_get (activeHooks st') id = Some hk /\
              h_enabled hk = false /\ h_listener hk = None) /\
  hook_disable w' st' id = (w', st', SuccessMessage "Already disabled") /\
  exists msg, hook_detach w' st' id = (w', st', Failure msg).
Proof.
  unfold hook_disable at 1. intros H.
  destruct (table_get (activeHooks st) id) as [hk|] eqn:Hget;
    [|discriminate H].
  destruct (negb (h_enabled hk)); [discriminate H|].
  destruct (h_listener hk) as [l|]; [|discriminate H].
  injection H as <- <-.
  destruct (table_set_present _ _ _
              (Hook None (h_config hk) (h_address hk) false (h_target hk))
              Hget) as (Hnew & _).
  split; [eexists; split; [exact Hnew | split; reflexivity]|].
  unfold hook_disable, hook_detach. cbn [activeHooks with_hooks].
  rewrite Hnew. cbn. split; [reflexivity | eauto].
Qed.

Lemma disabled_hook_stuck_witness :
  let r1 := @hook_attach numeric_runtime target_process injected
              (JStr "0x1000") empty_config in
  let r2 := @hook_disable numeric_runtime r1.1.1 r1.1.2 "hook_0" in
  r2 = (r2.1.1, r2.1.2, Success) /\
  listeners r2.1.1 = [] /\
  exists msg, @hook_detach numeric_runtime r2.1.1 r2.1.2 "hook_0"
              = (r2.1.1, r2.1.2, Failure msg).
Proof.
  cbn zeta. split; [reflexivity|]. split; [reflexivity|].
  apply (@disabled_hook_stuck numeric_runtime
           (@hook_attach numeric_runtime target_process injected
              (JStr "0x1000") empty_config).1.1
           (@hook_attach numeric_runtime target_process injected
              (JStr "0x1000") empty_config).1.2
           "hook_0").
  reflexivity.
Defined.

(** X8.  In a consistent state, a [hook_enable] that re-attaches a disabled
    hook removes the old id, and files the hook under the next fresh id,
    enabled, with the address and the config it had: the stored config
    survives the round through [hook_attach] unchanged, and the listener
    installed closes over it. *)
Theorem enable_recreates_hook `{RT : Runtime} (w : world) (st : agent)
    (id : string) (hk : hook) (w' : world) (st' : agent) (newId : string) :
  consistent st ->
  table_get (activeHooks st) id = Some hk ->
  hook_enable w st id = (w', st', Reattached newId) ->
  newId = "hook_" +:+ pretty (hookIdCounter st) /\
  newId <> id /\
  table_get (activeHooks st') id = None /\
  exists target,
    ptr (h_address hk) = Normal target /\
    table_get (activeHooks st') newId
    = Some (Hook (Some (next_handle w)) (h_config hk) (h_address hk) true
              (toString target)) /\
    listeners w' =
      (listeners w ++
       [Listener (next_handle w) target
          (Closure newId (h_address hk) (h_config hk))])%list.
Proof.
  intros Hc Hget H. unfold hook_enable in H. rewrite Hget in H.
  destruct (h_enabled hk); [discriminate H|].
  destruct (hook_attach w st (h_address hk) (as_config (h_config hk)))
    as [[w1 st1] e1] eqn:Ha.
  destruct (hook_attach_cases _ _ _ _ _ _ _ Ha)
    as [_ [(m & -> & _) | (t & h & -> & _)]]; [discriminate H|].
  injection H as <- <- <-.
  destruct (hook_attach_attached _ _ _ _ _ _ _ _ Ha)
    as (target & Hp & _ & _ & _ & Ht & Hl).
  pose proof (consistent_fresh _ Hc) as Hfresh.
  rewrite (table_set_fresh _ _ _ Hfresh) in Ht.
  assert (Hcfg : make_hookConfig (as_config (h_config hk)) = h_config hk).
  { destruct Hc as [_ Hall].
    destruct (Hall _ _ (table_get_elem _ _ _ Hget)) as (_ & _ & c & Hcfg).
    rewrite Hcfg. apply make_hookConfig_stored. }
  rewrite Hcfg in Ht, Hl.
  assert (Hne : "hook_" +:+ pretty (hookIdCounter st) <> id).
  { intros <-. rewrite Hfresh in Hget. discriminate Hget. }
  split; [reflexivity|]. split; [exact Hne|].
  cbn [activeHooks with_hooks]. rewrite !table_get_delete, Ht.
  rewrite String.eqb_refl. split; [reflexivity|].
  exists target. split; [exact Hp|]. split; [|exact Hl].
  destruct (String.eqb_spec ("hook_" +:+ pretty (hookIdCounter st)) id);
    [congruence|].
  rewrite (table_get_app_fresh _ _ _ _ Hfresh), String.eqb_refl. reflexivity.
Qed.

Lemma enable_recreates_hook_witness :
  let r1 := @hook_attach numeric_runtime target_process injected
              (JStr "0x1000") (log_args (JNum (Int 2))) in
  let r2 := @hook_disable numeric_runtime r1.1.1 r1.1.2 "hook_0" in
  let r3 := @hook_enable numeric_runtime r2.1.1 r2.1.2 "hook_0" in
  r3 = (r3.1.1, r3.1.2, Reattached "hook_1") /\
  List.map he_id (hook_list r3.1.2) = ["hook_1"] /\
  table_get (activeHooks r3.1.2) "hook_0" = None.
Proof.
  cbn zeta. split; [reflexivity|]. split; [reflexivity|].
  set (r1 := @hook_attach numeric_runtime target_process injected
               (JStr "0x1000") (log_args (JNum (Int 2)))).
  set (r2 := @hook_disable numeric_runtime r1.1.1 r1.1.2 "hook_0").
  assert (Hc : @consistent numeric_runtime r2.1.2).
  { apply (@session_consistent numeric_runtime
             [CallAttach (JStr "0x1000") (log_args (JNum (Int 2)));
              CallDisable "hook_0"] target_process injected),
      injected_consistent. }
  destruct (@enable_recreates_hook numeric_runtime r2.1.1 r2.1.2 "hook_0"
              (Hook None (make_hookConfig (log_args (JNum (Int 2))))
                 (JStr "0x1000") false "0x1000")
              (@hook_enable numeric_runtime r2.1.1 r2.1.2 "hook_0").1.1
              (@hook_enable numeric_runtime r2.1.1 r2.1.2 "hook_0").1.2
              "hook_1" Hc eq_refl eq_refl) as (_ & _ & Hgone & _).
  exact Hgone.
Defined.

Section ClearAll.
Context {RT : Runtime}.

Lemma detach_listeners (w : world) (l : nat) (x : listener) :
  x ∈ listeners (detach w l) <-> x ∈ listeners w /\ l_handle x <> l.
Proof.
  unfold detach. cbn [listeners with_listeners].
  rewrite !list_elem_of_In, filter_In, negb_true_iff.
  destruct (Nat.eqb_spec (l_handle x) l); split; intros [H1 H2];
    (split; [exact H1 | congruence]).
Qed.

Lemma clear_listeners (t : hook_table) (w : world) (x : listener) :
  x ∈ listeners
        (fold_left (fun w e => match h_listener (snd e) with
                               | Some l => detach w l
                               | None => w
                               end) t w) <->
  x ∈ listeners w /\
  forall e, e ∈ t -> h_listener (snd e) <> Some (l_handle x).
Proof.
  revert w. induction t as [|e t IH]; intros w; cbn [fold_left].
  - split; [intros H; split; [exact H | intros e He; inversion He] | tauto].
  - rewrite IH. destruct (h_listener (snd e)) as [l|] eqn:Hl.
    + rewrite detach_listeners. split.
      * intros [[Hx Hne] Ht]. split; [exact Hx|].
        intros e' He'. apply elem_of_cons in He' as [-> | He'];
          [rewrite Hl; congruence | exact (Ht e' He')].
      * intros [Hx Ht]. split; [split; [exact Hx|]|].
        -- intros Heq. apply (Ht e); [constructor | rewrite Hl; congruence].
        -- intros e' He'. apply Ht. apply list_elem_of_further, He'.
    + split.
      * intros [Hx Ht]. split; [exact Hx|].
        intros e' He'. apply elem_of_cons in He' as [-> | He'];
          [rewrite Hl; discriminate | exact (Ht e' He')].
      * intros [Hx Ht]. split; [exact Hx|].
        intros e' He'. apply Ht. apply list_elem_of_further, He'.
Qed.

End ClearAll.

(** X9.  [hook_clear_all] always succeeds; it reports the number of hooks
    the table held, leaves the table empty and the counter at zero, and
    removes from the interceptor exactly the listeners the hooks held:
    every other listener stays, and none is added. *)
Theorem clear_all_detaches_everything `{RT : Runtime} (w : world)
    (st : agent) :
  let out := hook_clear_all w st in
  out.2 = Cleared (length (hook_list st)) /\
  hook_list out.1.2 = [] /\
  hookIdCounter out.1.2 = 0%N /\
  forall x, x ∈ listeners out.1.1 <->
    x ∈ listeners w /\
    forall id h, (id, h) ∈ activeHooks st ->
                 h_listener h <> Some (l_handle x).
Proof.
  cbn zeta. unfold hook_clear_all. cbn [fst snd].
  split; [unfold hook_list; rewrite length_map; reflexivity|].
  split; [reflexivity|]. split; [reflexivity|].
  intros x. rewrite clear_listeners. split.
  - intros [Hx Ht]. split; [exact Hx|]. intros id h Hin. exact (Ht _ Hin).
  - intros [Hx Ht]. split; [exact Hx|]. intros [id h] Hin. exact (Ht _ _ Hin).
Qed.

(** X10.  A successful [hook_detach] removes the entry of that id and
    nothing else: the other ids keep their entries, the counter is
    unchanged, and the interceptor loses exactly the listener the hook
    held. *)
Theorem detach_removes_one `{RT : Runtime} (w : world) (st : agent)
    (id : string) (w' : world) (st' : agent) :
  hook_detach w st id = (w', st', Success) ->
  table_get (activeHooks st') id = None /\
  (forall i, i <> id ->
             table_get (activeHooks st') i = table_get (activeHooks st) i) /\
  hookIdCounter st' = hookIdCounter st /\
  exists hk l,
    table_get (activeHooks st) id = Some hk /\ h_listener hk = Some l /\
    forall x, x ∈ listeners w' <-> x ∈ listeners w /\ l_handle x <> l.
Proof.
  unfold hook_detach. intros H.
  destruct (table_get (activeHooks st) id) as [hk|] eqn:Hget;
    [|discriminate H].
  destruct (h_listener hk) as [l|] eqn:Hl; [|discriminate H].
  injection H as <- <-. cbn [activeHooks hookIdCounter with_hooks].
  split; [rewrite table_get_delete, String.eqb_refl; reflexivity|].
  split.
  - intros i Hi. rewrite table_get_delete.
    destruct (String.eqb_spec i id); [congruence | reflexivity].
  - split; [reflexivity|]. exists hk, l. split; [reflexivity|].
    split; [exact Hl|]. intros x. apply detach_listeners.
Qed.

Lemma detach_removes_one_witness :
  let r1 := @hook_attach numeric_runtime target_process injected
              (JStr "0x1000") empty_config in
  let r2 := @hook_attach numeric_runtime r1.1.1 r1.1.2
              (JStr "0x1008") empty_config in
  let r3 := @hook_detach numeric_runtime r2.1.1 r2.1.2 "hook_0" in
  r3 = (r3.1.1, r3.1.2, Success) /\
  List.map he_id (hook_list r3.1.2) = ["hook_1"] /\
  table_get (activeHooks r3.1.2) "hook_0" = None.
Proof.
  cbn zeta. split; [reflexivity|]. split; [reflexivity|].
  set (r1 := @hook_attach numeric_runtime target_process injected
               (JStr "0x1000") empty_config).
  set (r2 := @hook_attach numeric_runtime r1.1.1 r1.1.2
               (JStr "0x1008") empty_config).
  destruct (@detach_removes_one numeric_runtime r2.1.1 r2.1.2 "hook_0"
              (@hook_detach numeric_runtime r2.1.1 r2.1.2 "hook_0").1.1
              (@hook_detach numeric_runtime r2.1.1 r2.1.2 "hook_0").1.2
              eq_refl) as (Hgone & _).
  exact Hgone.
Defined.

(* --------------------------------------------------------------------- *)
(** ** Disassembly                                                        *)
(* --------------------------------------------------------------------- *)

Lemma bytes_or_none_length (w : world) (a : N) (n : nat) :
  bytes_or_none w a n = [] \/ length (bytes_or_none w a n) = n.
Proof.
  unfold bytes_or_none. destruct (read_bytes w a n) as [bs|] eqn:Hr;
    [|left; reflexivity].
  right. apply read_bytes_normal in Hr as [_ ->]. apply load_span_length.
Qed.

Lemma disassemble_from_length (parse : decoder) (w : world) (a : N)
    (count : nat) :
  (length (disassemble_from parse w a count) <= count)%nat.
Proof.
  revert a. induction count as [|n IH]; intros a; cbn; [lia|].
  destruct (parse a) as [[i|]|]; cbn; [|lia|lia].
  specialize (IH (i_next i)). lia.
Qed.

Lemma disassemble_from_prefix (parse : decoder) (w : world) (a : N)
    (count more : nat) :
  disassemble_from parse w a count
    `prefix_of` disassemble_from parse w a (count + more).
Proof.
  revert a. induction count as [|n IH]; intros a; cbn.
  - apply prefix_nil.
  - destruct (parse a) as [[i|]|]; try apply prefix_nil.
    apply prefix_cons, IH.
Qed.

Lemma disassemble_from_bytes (parse : decoder) (w : world) (a : N)
    (count : nat) (e : listed) :
  e ∈ disassemble_from parse w a count ->
  d_bytes e = [] \/ length (d_bytes e) = d_size e.
Proof.
  revert a. induction count as [|n IH]; intros a; cbn; [intros H; inversion H|].
  destruct (parse a) as [[i|]|]; try (intros H; inversion H; fail).
  intros H. apply elem_of_cons in H as [-> | H]; [|exact (IH _ H)].
  cbn. apply bytes_or_none_length.
Qed.

Lemma disassemble_from_chain (parse : decoder) (w : world) (a : N)
    (count k : nat) (e1 e2 : listed) :
  (forall p i, parse p = Normal (Some i) ->
               i_next i = (p + N.of_nat (i_size i))%N) ->
  disassemble_from parse w a count !! k = Some e1 ->
  disassemble_from parse w a count !! S k = Some e2 ->
  exists p, d_address e1 = toString p /\
            d_address e2 = toString (p + N.of_nat (d_size e1)).
Proof.
  intros Hlaw. revert a k. induction count as [|n IH]; intros a k; cbn;
    [discriminate|].
  destruct (parse a) as [[i|]|] eqn:Hp; try discriminate.
  destruct k as [|k]; cbn.
  - intros H1 H2. injection H1 as <-. cbn. exists a. split; [reflexivity|].
    destruct n as [|n]; cbn in H2; [discriminate|].
    destruct (parse (i_next i)) as [[j|]|]; try discriminate.
    injection H2 as <-. cbn. rewrite (Hlaw _ _ Hp). reflexivity.
  - apply IH.
Qed.

(** X11.  [disassemble] lists at most [count] instructions; each listed
    instruction carries either all of its bytes or, when they cannot be
    read, none; and asking for more instructions from the same address
    only extends the listing. *)
Theorem disassemble_bounded_monotone (parse : decoder) (w : world)
    (address : jsval) (count more : nat) (out : list listed) :
  disassemble parse w address (Some count) = Normal out ->
  (length out <= count)%nat /\
  (forall e, e ∈ out -> d_bytes e = [] \/ length (d_bytes e) = d_size e) /\
  exists out',
    disassemble parse w address (Some (count + more)) = Normal out' /\
    out `prefix_of` out'.
Proof.
  unfold disassemble. destruct (ptr address) as [a|]; cbn; [|discriminate].
  intros H. injection H as <-.
  split; [apply disassemble_from_length|].
  split; [intros e; apply disassemble_from_bytes|].
  eexists. split; [reflexivity | apply disassemble_from_prefix].
Qed.

Lemma disassemble_bounded_monotone_witness :
  let out := [Listed "0x1000" 1 "nop" "" [Byte.x55] [] [] [];
              Listed "0x1001" 1 "nop" "" [Byte.x89] [] [] []] in
  disassemble (one_byte_decoder target_process) target_process
    (JStr "0x1000") (Some 2) = Normal out /\
  (length out <= 2)%nat /\
  exists out',
    disassemble (one_byte_decoder target_process) target_process
      (JStr "0x1000") (Some (2 + 1)) = Normal out' /\
    out `prefix_of` out'.
Proof.
  cbn zeta. split; [reflexivity|].
  destruct (disassemble_bounded_monotone (one_byte_decoder target_process)
              target_process (JStr "0x1000") 2 1 _ eq_refl)
    as (Hlen & _ & Hmore).
  split; [exact Hlen | exact Hmore].
Defined.

(** X12.  When the decoder's [next] is the address plus the size, the
    instructions [disassemble] lists are contiguous: each one starts where
    the one before it ends. *)
Theorem disassemble_contiguous (parse : decoder) (w : world)
    (address : jsval) (count : option nat) (out : list listed)
    (k : nat) (e1 e2 : listed) :
  (forall p i, parse p = Normal (Some i) ->
               i_next i = (p + N.of_nat (i_size i))%N) ->
  disassemble parse w address count = Normal out ->
  out !! k = Some e1 ->
  out !! S k = Some e2 ->
  exists p, d_address e1 = toString p /\
            d_address e2 = toString (p + N.of_nat (d_size e1)).
Proof.
  intros Hlaw. unfold disassemble.
  destruct (ptr address) as [a|]; cbn; [|discriminate].
  intros H. injection H as <-. apply disassemble_from_chain, Hlaw.
Qed.

Lemma disassemble_contiguous_witness :
  (forall p i, four_byte_decoder p = Normal (Some i) ->
               i_next i = (p + N.of_nat (i_size i))%N) /\
  exists out e1 e2,
    disassemble four_byte_decoder target_process (JStr "0x1000") (Some 3)
      = Normal out /\
    out !! 1 = Some e1 /\ out !! 2 = Some e2 /\
    d_address e1 = "0x1004" /\ d_address e2 = "0x1008" /\
    exists p, d_address e1 = toString p /\
              d_address e2 = toString (p + N.of_nat (d_size e1)).
Proof.
  assert (Hlaw : forall p i, four_byte_decoder p = Normal (Some i) ->
                             i_next i = (p + N.of_nat (i_size i))%N).
  { intros p i H. injection H as <-. reflexivity. }
  split; [exact Hlaw|].
  eexists _, _, _. split; [reflexivity|]. split; [reflexivity|].
  split; [reflexivity|]. split; [reflexivity|]. split; [reflexivity|].
  apply (disassemble_contiguous four_byte_decoder target_process
           (JStr "0x1000") (Some 3) _ 1 _ _ Hlaw eq_refl eq_refl eq_refl).
Defined.

Lemma function_from_fresh (parse : decoder) (w : world) (a : N)
    (visited : list string) (n : nat) :
  NoDup (f_address <$> function_from parse w a visited n) /\
  forall s, s ∈ (f_address <$> function_from parse w a visited n) ->
            s ∉ visited.
Proof.
  revert a visited. induction n as [|n IH]; intros a visited;
    cbn [function_from].
  - cbn. split; [constructor | intros s H; inversion H].
  - case_bool_decide as Hv; [cbn; split; [constructor | intros s H; inversion H]|].
    destruct (parse a) as [[i|]|];
      try (cbn; split; [constructor | intros s H; inversion H]; fail).
    destruct (returns (i_mnemonic i) (i_opStr i)).
    + cbn. split; [apply NoDup_singleton|].
      intros s H. apply list_elem_of_singleton in H. subst s. exact Hv.
    + destruct (IH (i_next i) (toString a :: visited)) as [Hnd Hfresh].
      rewrite fmap_cons. cbn [f_address]. split.
      * apply NoDup_cons. split; [|exact Hnd].
        intros Hin. apply (Hfresh _ Hin). constructor.
      * intros s Hs. apply elem_of_cons in Hs as [-> | Hs]; [exact Hv|].
        intros Hin. apply (Hfresh _ Hs). apply list_elem_of_further, Hin.
Qed.

Lemma function_from_length (parse : decoder) (w : world) (a : N)
    (visited : list string) (n : nat) :
  (length (function_from parse w a visited n) <= n)%nat.
Proof.
  revert a visited. induction n as [|n IH]; intros a visited;
    cbn [function_from]; [cbn; lia|].
  case_bool_decide as Hv; [cbn; lia|].
  destruct (parse a) as [[i|]|]; try (cbn; lia).
  destruct (returns (i_mnemonic i) (i_opStr i)); cbn; [lia|].
  specialize (IH (i_next i) (toString a :: visited)). lia.
Qed.

Lemma function_from_returns_last (parse : decoder) (w : world) (a : N)
    (visited : list string) (n k : nat) (e : function_listed) :
  function_from parse w a visited n !! k = Some e ->
  (S k < length (function_from parse w a visited n))%nat ->
  returns (f_mnemonic e) (f_opStr e) = false.
Proof.
  revert a visited k. induction n as [|n IH]; intros a visited k;
    cbn [function_from]; [discriminate|].
  case_bool_decide as Hv; [discriminate|].
  destruct (parse a) as [[i|]|]; try discriminate.
  destruct (returns (i_mnemonic i) (i_opStr i)) eqn:Hret.
  - cbn. intros _ Hlen. lia.
  - destruct k as [|k]; cbn.
    + intros H _. injection H as <-. exact Hret.
    + intros H Hlen. apply (IH _ _ _ H). lia.
Qed.

Lemma function_from_prefix (parse : decoder) (w : world) (a : N)
    (visited : list string) (n : nat) :
  function_from parse w a visited n
  `prefix_of`
  ((fun e => FunctionListed (d_address e) (d_size e) (d_mnemonic e)
               (d_opStr e) (d_bytes e)) <$> disassemble_from parse w a n).
Proof.
  revert a visited. induction n as [|n IH]; intros a visited;
    cbn [function_from disassemble_from]; [apply prefix_nil|].
  case_bool_decide as Hv; [apply prefix_nil|].
  destruct (parse a) as [[i|]|]; try apply prefix_nil.
  rewrite fmap_cons. cbn. apply prefix_cons.
  destruct (returns (i_mnemonic i) (i_opStr i)); [apply prefix_nil | apply IH].
Qed.

(** X13.  [disassemble_function] lists at most [maxInstructions]
    instructions, all at different addresses; a return instruction
    ([ret], [retq], [retn], or [bx lr], in any letter case) can only be
    the last one listed; and what it lists is the beginning of what
    [disassemble] lists from the same address with the same bound. *)
Theorem disassemble_function_stops (parse : decoder) (w : world)
    (address : jsval) (maxInstructions : nat) (out : list function_listed) :
  disassemble_function parse w address (Some maxInstructions) = Normal out ->
  (length out <= maxInstructions)%nat /\
  NoDup (f_address <$> out) /\
  (forall k e, out !! k = Some e -> (S k < length out)%nat ->
               returns (f_mnemonic e) (f_opStr e) = false) /\
  exists all,
    disassemble parse w address (Some maxInstructions) = Normal all /\
    out `prefix_of`
      ((fun e => FunctionListed (d_address e) (d_size e) (d_mnemonic e)
                   (d_opStr e) (d_bytes e)) <$> all).
Proof.
  unfold disassemble_function, disassemble.
  destruct (ptr address) as [a|]; cbn; [|discriminate].
  intros H. injection H as <-.
  split; [apply function_from_length|].
  split; [apply function_from_fresh|].
  split; [intros k e; apply function_from_returns_last|].
  eexists. split; [reflexivity | apply function_from_prefix].
Qed.

(** A function body [55 89 e5 c3] at [0x3000]: the listing stops at the
    [ret] although 500 instructions were allowed. *)
Lemma disassemble_function_stops_witness :
  let w := with_memory target_process
             (bytes_at 0x3000 [Byte.x55; Byte.x89; Byte.xe5; Byte.xc3]) in
  let out := [FunctionListed "0x3000" 1 "nop" "" [Byte.x55];
              FunctionListed "0x3001" 1 "nop" "" [Byte.x89];
              FunctionListed "0x3002" 1 "nop" "" [Byte.xe5];
              FunctionListed "0x3003" 1 "ret" "" [Byte.xc3]] in
  disassemble_function (one_byte_decoder w) w (JStr "0x3000") (Some 500)
    = Normal out /\
  (length out <= 500)%nat /\
  NoDup (f_address <$> out).
Proof.
  cbn zeta. split; [vm_compute; reflexivity|].
  destruct (disassemble_function_stops
              (one_byte_decoder
                 (with_memory target_process
                    (bytes_at 0x3000 [Byte.x55; Byte.x89; Byte.xe5; Byte.xc3])))
              (with_memory target_process
                 (bytes_at 0x3000 [Byte.x55; Byte.x89; Byte.xe5; Byte.xc3]))
              (JStr "0x3000") 500
              [FunctionListed "0x3000" 1 "nop" "" [Byte.x55];
               FunctionListed "0x3001" 1 "nop" "" [Byte.x89];
               FunctionListed "0x3002" 1 "nop" "" [Byte.xe5];
               FunctionListed "0x3003" 1 "ret" "" [Byte.xc3]])
    as (Hlen & Hnd & _).
  - vm_compute. reflexivity.
  - split; [exact Hlen | exact Hnd].
Defined.

(* --------------------------------------------------------------------- *)
(** ** NOP sleds                                                          *)
(* --------------------------------------------------------------------- *)

Lemma sled_pass_take (nopBytes nops : list byte) (totalSize : nat) :
  sled_pass nopBytes nops totalSize
  = (nops ++ take (totalSize - length nops) nopBytes)%list.
Proof.
  revert nops. induction nopBytes as [|b rest IH]; intros nops;
    cbn [sled_pass].
  - rewrite take_nil, app_nil_r. reflexivity.
  - rewrite IH. destruct (Nat.ltb_spec (length nops) totalSize) as [Hlt|Hge].
    + rewrite length_app. cbn [length].
      replace (totalSize - length nops) with (S (totalSize - (length nops + 1)))
        by lia.
      cbn [take]. rewrite <- app_assoc. reflexivity.
    + replace (totalSize - length nops) with 0 by lia. reflexivity.
Qed.

Lemma sled_loop_take (fuel : nat) (nopBytes nops : list byte)
    (totalSize : nat) :
  sled_loop fuel nopBytes nops totalSize
  = (nops ++ take (totalSize - length nops)
               (concat (replicate fuel nopBytes)))%list.
Proof.
  revert nops. induction fuel as [|fuel IH]; intros nops; cbn [sled_loop].
  - cbn [replicate concat]. rewrite take_nil, app_nil_r.
    destruct (length nops <? totalSize)%nat; reflexivity.
  - destruct (Nat.ltb_spec (length nops) totalSize) as [Hlt|Hge].
    + rewrite IH, sled_pass_take, <- app_assoc. f_equal.
      cbn [replicate concat]. rewrite take_app. f_equal.
      rewrite length_app, length_take. f_equal. lia.
    + replace (totalSize - length nops) with 0 by lia.
      rewrite take_0, app_nil_r. reflexivity.
Qed.

Lemma length_concat_replicate (k : nat) (l : list byte) :
  length (concat (replicate k l)) = k * length l.
Proof.
  induction k as [|k IH]; cbn; [reflexivity|].
  rewrite length_app, IH. reflexivity.
Qed.

Lemma lookup_concat_replicate (k : nat) (l : list byte) (i : nat) :
  (i < k * length l)%nat ->
  concat (replicate k l) !! i = l !! (i mod length l).
Proof.
  revert i. induction k as [|k IH]; intros i Hi; cbn in *; [lia|].
  destruct (Nat.lt_ge_cases i (length l)) as [Hlt|Hge].
  - rewrite lookup_app_l by exact Hlt. rewrite Nat.mod_small by exact Hlt.
    reflexivity.
  - rewrite lookup_app_r by exact Hge. rewrite IH by lia.
    replace i with ((i - length l) + 1 * length l) at 2 by lia.
    rewrite Nat.Div0.mod_add. reflexivity.
Qed.

Lemma nop_bytes_nonempty (arch : string) (nopBytes : list byte) :
  nop_bytes arch = Some nopBytes -> (1 <= length nopBytes)%nat.
Proof.
  unfold nop_bytes. intros Harch.
  destruct (String.eqb arch "x64" || String.eqb arch "ia32");
    [injection Harch as <-; cbn; lia|].
  destruct (String.eqb arch "arm"); [injection Harch as <-; cbn; lia|].
  destruct (String.eqb arch "arm64"); [injection Harch as <-; cbn; lia|].
  discriminate Harch.
Qed.

Lemma nop_sled_take (nopBytes : list byte) (totalSize : nat) :
  nop_sled nopBytes totalSize
  = take totalSize (concat (replicate totalSize nopBytes)).
Proof.
  unfold nop_sled. rewrite sled_loop_take. cbn [length app].
  rewrite Nat.sub_0_r. reflexivity.
Qed.

Lemma nop_sled_length (nopBytes : list byte) (totalSize : nat) :
  (1 <= length nopBytes)%nat ->
  length (nop_sled nopBytes totalSize) = totalSize.
Proof.
  intros Hpos. rewrite nop_sled_take, length_take, length_concat_replicate.
  nia.
Qed.

(** X14.  For each supported architecture the sled built by
    [nop_instructions] has exactly [totalSize] bytes, and its byte [i] is
    byte [i mod nopSize] of the architecture's NOP: whole NOPs repeated,
    the last one cut short when [totalSize] is not a multiple of its
    size. *)
Theorem nop_sled_fills (arch : string) (nopBytes : list byte)
    (totalSize : nat) :
  nop_bytes arch = Some nopBytes ->
  length (nop_sled nopBytes totalSize) = totalSize /\
  forall i, (i < totalSize)%nat ->
    nop_sled nopBytes totalSize !! i = nopBytes !! (i mod length nopBytes).
Proof.
  intros Harch. apply nop_bytes_nonempty in Harch as Hpos.
  split; [apply nop_sled_length; exact Hpos|].
  intros i Hi. rewrite nop_sled_take, lookup_take_lt by exact Hi.
  apply lookup_concat_replicate. nia.
Qed.

Lemma nop_sled_fills_witness :
  nop_bytes "arm64" = Some [Byte.x1f; Byte.x20; Byte.x03; Byte.xd5] /\
  nop_sled [Byte.x1f; Byte.x20; Byte.x03; Byte.xd5] 6
    = [Byte.x1f; Byte.x20; Byte.x03; Byte.xd5; Byte.x1f; Byte.x20] /\
  length (nop_sled [Byte.x1f; Byte.x20; Byte.x03; Byte.xd5] 6) = 6.
Proof.
  split; [reflexivity|]. split; [reflexivity|].
  apply (nop_sled_fills "arm64" [Byte.x1f; Byte.x20; Byte.x03; Byte.xd5] 6).
  reflexivity.
Defined.

(** X15.  When [nop_instructions] reports success, what it wrote is the
    sled of its architecture, exactly as long as the instructions it
    parsed; the span holds the sled afterwards, [original] is what the span
    held before, and no byte outside the span has changed. *)
Theorem nop_instructions_writes_sled (parse : decoder) (arch : string)
    (w : world) (address : jsval) (count : option nat)
    (w' : world) (a' : jsval) (original patched : list byte) :
  nop_instructions parse arch w address count
    = (w', Patched a' original patched) ->
  exists nopBytes target,
    nop_bytes arch = Some nopBytes /\
    ptr address = Normal target /\
    let totalSize := total_size parse target (default 1 count) in
    totalSize <> 0 /\
    patched = nop_sled nopBytes totalSize /\
    length patched = totalSize /\
    original = load_span w target totalSize /\
    load_span w' target totalSize = patched /\
    forall x, in_span target totalSize x = false -> load w' x = load w x.
Proof.
  unfold nop_instructions. intros H.
  destruct (ptr address) as [target|] eqn:Hp; [|discriminate H].
  destruct (nop_bytes arch) as [nb|] eqn:Harch; [|discriminate H].
  destruct (Nat.eqb_spec (total_size parse target (default 1 count)) 0)
    as [Hz|Hnz]; [discriminate H|].
  exists nb, target. split; [reflexivity|]. split; [reflexivity|].
  cbn zeta. set (total := total_size parse target (default 1 count)) in *.
  pose proof (nop_sled_length nb total (nop_bytes_nonempty _ _ Harch))
    as Hlen.
  destruct (patch_bytes_patched _ _ _ _ _ _ _ H)
    as (t & r & Hp' & Hf & Hr & Hw).
  rewrite Hp in Hp'. injection Hp' as <-.
  destruct (patch_bytes_run _ _ _ _ _ Hp Hf Hr Hw) as (w0 & H0 & Hload & _).
  rewrite H in H0. injection H0 as <- -> -> ->.
  rewrite Hlen in *.
  split; [exact Hnz|]. split; [reflexivity|]. split; [reflexivity|].
  split; [reflexivity|]. split.
  - transitivity (load_span (store_span w target (nop_sled nb total)) target
                    (length (nop_sled nb total)));
      [|apply load_span_stored].
    rewrite Hlen. apply load_span_ext. intros x _. apply Hload.
  - intros x Hx. rewrite Hload. apply load_store_span_outside.
    rewrite Hlen. exact Hx.
Qed.

(** S3 of the specification: two four-byte instructions at a word-aligned
    address of an ARM64 target are replaced by two NOPs. *)
Lemma nop_instructions_writes_sled_witness :
  let w := World [Range 0x4000 0x1000 r_x None] ∅ [] 8 [] 0 [] in
  let out := nop_instructions four_byte_decoder "arm64" w (JStr "0x4000")
               (Some 2) in
  out.2 = Patched (JStr "0x4000")
            [Byte.x00; Byte.x00; Byte.x00; Byte.x00;
             Byte.x00; Byte.x00; Byte.x00; Byte.x00]
            [Byte.x1f; Byte.x20; Byte.x03; Byte.xd5;
             Byte.x1f; Byte.x20; Byte.x03; Byte.xd5] /\
  load_span out.1 0x4000 8
  = [Byte.x1f; Byte.x20; Byte.x03; Byte.xd5;
     Byte.x1f; Byte.x20; Byte.x03; Byte.xd5].
Proof.
  cbn zeta. split; [vm_compute; reflexivity|].
  set (w := World [Range 0x4000 0x1000 r_x None] ∅ [] 8 [] 0 []).
  destruct (nop_instructions_writes_sled four_byte_decoder "arm64" w
              (JStr "0x4000") (Some 2)
              (nop_instructions four_byte_decoder "arm64" w (JStr "0x4000")
                 (Some 2)).1
              (JStr "0x4000")
              [Byte.x00; Byte.x00; Byte.x00; Byte.x00;
               Byte.x00; Byte.x00; Byte.x00; Byte.x00]
              [Byte.x1f; Byte.x20; Byte.x03; Byte.xd5;
               Byte.x1f; Byte.x20; Byte.x03; Byte.xd5])
    as (nb & target & Hnb & Hp & _ & _ & _ & _ & Hspan & _).
  - vm_compute. reflexivity.
  - injection Hp as <-. exact Hspan.
Defined.

(* --------------------------------------------------------------------- *)
(** ** Reading the stack                                                  *)
(* --------------------------------------------------------------------- *)

Lemma read_stack_from_length (names : N -> option string) (w : world)
    (a : N) (i depth : nat) :
  (length (read_stack_from names w a i depth) <= depth)%nat.
Proof.
  revert a i. induction depth as [|d IH]; intros a i; cbn; [lia|].
  destruct (readPointer w a); cbn; [|lia].
  specialize (IH (a + N.of_nat (pointerSize w))%N (S i)). lia.
Qed.

Lemma read_stack_from_slot (names : N -> option string) (w : world)
    (a : N) (i depth k : nat) (s : stack_slot) :
  read_stack_from names w a i depth !! k = Some s ->
  s_offset s = (i + k) * pointerSize w /\
  s_address s = toString (a + N.of_nat (k * pointerSize w)) /\
  exists v,
    readPointer w (a + N.of_nat (k * pointerSize w)) = Normal v /\
    s_value s = toString v /\
    s_module s = m_name <$> findModuleByAddress w v /\
    s_symbol s = symbol_or_null (names v).
Proof.
  revert a i k. induction depth as [|d IH]; intros a i k; cbn;
    [discriminate|].
  destruct (readPointer w a) as [v|] eqn:Hv; [|discriminate].
  destruct k as [|k]; cbn.
  - intros H. injection H as <-. cbn. rewrite Nat.add_0_r, N.add_0_r.
    split; [reflexivity|]. split; [reflexivity|].
    exists v. rewrite Hv. repeat split.
  - intros H. destruct (IH _ _ _ H) as (Ho & Ha & Hrest).
    replace (a + N.of_nat (pointerSize w + k * pointerSize w))%N
      with (a + N.of_nat (pointerSize w) + N.of_nat (k * pointerSize w))%N
      by lia.
    split; [rewrite Ho; lia|]. split; [exact Ha | exact Hrest].
Qed.

Lemma read_stack_from_stops (names : N -> option string) (w : world)
    (a : N) (i depth : nat) :
  (length (read_stack_from names w a i depth) < depth)%nat ->
  exists e,
    readPointer w
      (a + N.of_nat (length (read_stack_from names w a i depth)
                     * pointerSize w)) = Throw e.
Proof.
  revert a i. induction depth as [|d IH]; intros a i; cbn; [lia|].
  destruct (readPointer w a) as [v|e] eqn:Hv; cbn.
  - intros Hlen. destruct (IH (a + N.of_nat (pointerSize w))%N (S i))
      as [e He]; [lia|].
    exists e. rewrite <- He. f_equal. lia.
  - intros _. exists e. rewrite N.add_0_r. exact Hv.
Qed.

(** X16.  [read_stack] walks pointer-sized slots upwards from the given
    address: slot [k] of its answer is at offset [k * pointerSize], shows
    the address of that slot and the pointer stored there, with the name of
    the module that contains the pointer; it returns at most [depth] slots
    and stops early only at a slot it cannot read. *)
Theorem read_stack_slots (names : N -> option string) (w : world)
    (address : jsval) (depth : nat) (out : list stack_slot) :
  read_stack names w address (Some depth) = Normal out ->
  exists a,
    ptr address = Normal a /\
    (length out <= depth)%nat /\
    (forall k s, out !! k = Some s ->
       s_offset s = k * pointerSize w /\
       s_address s = toString (a + N.of_nat (k * pointerSize w)) /\
       exists v,
         readPointer w (a + N.of_nat (k * pointerSize w)) = Normal v /\
         s_value s = toString v /\
         s_module s = m_name <$> findModuleByAddress w v /\
         s_symbol s = symbol_or_null (names v)) /\
    ((length out < depth)%nat ->
     exists e,
       readPointer w (a + N.of_nat (length out * pointerSize w)) = Throw e).
Proof.
  unfold read_stack. destruct (ptr address) as [a|]; cbn; [|discriminate].
  intros H. injection H as <-. exists a. split; [reflexivity|].
  split; [apply read_stack_from_length|]. split.
  - intros k s Hs. exact (read_stack_from_slot _ _ _ _ _ _ _ Hs).
  - apply read_stack_from_stops.
Qed.

(** The last eight readable bytes of the text range hold one pointer; the
    slot after it lies in the read-only range and the one after the data
    range ends cannot be read. *)
Lemma read_stack_slots_witness :
  let w := with_memory target_process
             (bytes_at 0x3ff0 [Byte.x04; Byte.x10; Byte.x00; Byte.x00;
                               Byte.x00; Byte.x00; Byte.x00; Byte.x00]) in
  let out := [StackSlot 0 "0x3ff0" "0x1004" (Some "target") None;
              StackSlot 8 "0x3ff8" "0x0" None None] in
  read_stack (fun _ => None) w (JStr "0x3ff0") (Some 4) = Normal out /\
  exists a,
    ptr (JStr "0x3ff0") = Normal a /\
    (length out < 4)%nat /\
    exists e, readPointer w (a + N.of_nat (length out * pointerSize w))
              = Throw e.
Proof.
  cbn zeta. split; [vm_compute; reflexivity|].
  set (w := with_memory target_process
              (bytes_at 0x3ff0 [Byte.x04; Byte.x10; Byte.x00; Byte.x00;
                                Byte.x00; Byte.x00; Byte.x00; Byte.x00])).
  destruct (read_stack_slots (fun _ => None) w (JStr "0x3ff0") 4
              [StackSlot 0 "0x3ff0" "0x1004" (Some "target") None;
               StackSlot 8 "0x3ff8" "0x0" None None])
    as (a & Hp & _ & _ & Hstop).
  - vm_compute. reflexivity.
  - exists a. split; [exact Hp|]. split; [cbn; lia|]. apply Hstop. cbn. lia.
Defined.

(* --------------------------------------------------------------------- *)
(** ** Refining and snapshotting scan results                             *)
(* --------------------------------------------------------------------- *)

Lemma flat_map_fixed {A : Type} (f : A -> list A) (l : list A) :
  (forall y, y ∈ l -> f y = [y]) -> flat_map f l = l.
Proof.
  induction l as [|y l IH]; intros H; cbn [flat_map]; [reflexivity|].
  rewrite (H y) by constructor. cbn [app]. f_equal.
  apply IH. intros z Hz. apply H. constructor. exact Hz.
Qed.

Lemma flat_map_idem {A : Type} (f : A -> list A) (l : list A) :
  (forall x y, y ∈ f x -> f y = [y]) ->
  flat_map f (flat_map f l) = flat_map f l.
Proof.
  intros H. induction l as [|x l IH]; cbn [flat_map]; [reflexivity|].
  rewrite flat_map_app, IH. f_equal.
  apply flat_map_fixed. intros y Hy. exact (H x y Hy).
Qed.

Lemma flat_map_none {A B : Type} (f : A -> list B) (l : list A) :
  (forall x, x ∈ l -> f x = []) -> flat_map f l = [].
Proof.
  induction l as [|x l IH]; intros H; cbn [flat_map]; [reflexivity|].
  rewrite (H x) by constructor. cbn [app].
  apply IH. intros z Hz. apply H. constructor. exact Hz.
Qed.

Lemma elem_of_flat_map {A B : Type} (f : A -> list B) (l : list A) (y : B) :
  y ∈ flat_map f l <-> exists x, x ∈ l /\ y ∈ f x.
Proof.
  rewrite list_elem_of_In, in_flat_map. split.
  - intros (x & Hx & Hy). exists x. rewrite !list_elem_of_In. auto.
  - intros (x & Hx & Hy). exists x. rewrite <- !list_elem_of_In. auto.
Qed.

Section Snapshots.
Context {RT : Runtime}.

Lemma next_step_again (w : world) (type : string) (value : jsval)
    (comparison : string) (x y : scan_result) :
  y ∈ next_step w type value comparison x ->
  next_step w type value comparison y = [y].
Proof.
  unfold next_step at 1.
  destruct (ptr (JStr (sr_address x))) as [addr|] eqn:Hp;
    [|intros H; inversion H].
  destruct (next_values w type value addr) as [[[cur tgt]|]|] eqn:Hv;
    try (intros H; inversion H; fail).
  destruct (next_match type comparison cur tgt) eqn:Hm;
    [|intros H; inversion H].
  intros Hy. apply list_elem_of_singleton in Hy. subst y.
  unfold next_step. cbn [sr_address sr_size sr_pattern sr_originalValue].
  rewrite Hp, Hv, Hm. reflexivity.
Qed.

Lemma changed_step_elem (w : world) (snaps : gmap string snapshot)
    (type : string) (x y : scan_result) :
  y ∈ changed_step w snaps type x ->
  exists a s v,
    ptr (JStr (sr_address x)) = Normal a /\
    snaps !! sr_address x = Some s /\
    snapshot_value w type a = Normal v /\
    strict_eq v (original s) = false /\
    y = ScanResult (sr_address x) (sr_size x) (sr_pattern x)
          (Some (original s)) (Some v).
Proof.
  unfold changed_step.
  destruct (ptr (JStr (sr_address x))) as [a|]; [|intros H; inversion H].
  destruct (snaps !! sr_address x) as [s|]; [|intros H; inversion H].
  destruct (snapshot_value w type a) as [v|] eqn:Hv;
    [|intros H; inversion H].
  destruct (strict_eq v (original s)) eqn:He; cbn [negb];
    [intros H; inversion H|].
  intros Hy. apply list_elem_of_singleton in Hy.
  exists a, s, v. repeat split; auto.
Qed.

Lemma unchanged_step_elem (w : world) (snaps : gmap string snapshot)
    (type : string) (x y : scan_result) :
  y ∈ unchanged_step w snaps type x ->
  exists a s v,
    ptr (JStr (sr_address x)) = Normal a /\
    snaps !! sr_address x = Some s /\
    snapshot_value w type a = Normal v /\
    strict_eq v (original s) = true /\
    y = ScanResult (sr_address x) (sr_size x) (sr_pattern x)
          (sr_originalValue x) (Some v).
Proof.
  unfold unchanged_step.
  destruct (ptr (JStr (sr_address x))) as [a|]; [|intros H; inversion H].
  destruct (snaps !! sr_address x) as [s|]; [|intros H; inversion H].
  destruct (snapshot_value w type a) as [v|] eqn:Hv;
    [|intros H; inversion H].
  destruct (strict_eq v (original s)) eqn:He; [|intros H; inversion H].
  intros Hy. apply list_elem_of_singleton in Hy.
  exists a, s, v. repeat split; auto.
Qed.

Lemma changed_step_again (w : world) (snaps : gmap string snapshot)
    (type : string) (x y : scan_result) :
  y ∈ changed_step w snaps type x -> changed_step w snaps type y = [y].
Proof.
  intros Hy.
  destruct (changed_step_elem _ _ _ _ _ Hy)
    as (a & s & v & Hp & Hs & Hv & He & ->).
  unfold changed_step. cbn [sr_address sr_size sr_pattern].
  rewrite Hp, Hs, Hv, He. reflexivity.
Qed.

Lemma unchanged_step_again (w : world) (snaps : gmap string snapshot)
    (type : string) (x y : scan_result) :
  y ∈ unchanged_step w snaps type x -> unchanged_step w snaps type y = [y].
Proof.
  intros Hy.
  destruct (unchanged_step_elem _ _ _ _ _ Hy)
    as (a & s & v & Hp & Hs & Hv & He & ->).
  unfold unchanged_step.
  cbn [sr_address sr_size sr_pattern sr_originalValue].
  rewrite Hp, Hs, Hv, He. reflexivity.
Qed.

(** X17.  Repeating a refinement while neither the memory nor the
    snapshots have changed is without effect: the second call leaves the
    result set as the first one made it and gives the same reply. *)
Theorem refine_idempotent (w : world) (st : agent) (r : refinement) :
  refine w (refine w st r).1 r = refine w st r.
Proof.
  destruct r as [type value comparison|type|type]; cbn [refine];
    unfold scan_next, scan_changed, scan_unchanged, with_scan;
    cbn [fst scanResults scanSnapshots activeHooks hookIdCounter].
  - rewrite flat_map_idem; [reflexivity|].
    intros x y. apply next_step_again.
  - rewrite flat_map_idem; [reflexivity|].
    intros x y. apply changed_step_again.
  - rewrite flat_map_idem; [reflexivity|].
    intros x y. apply unchanged_step_again.
Qed.

Lemma step_lengths (w : world) (snaps : gmap string snapshot)
    (type : string) (l : list scan_result) :
  (length (flat_map (changed_step w snaps type) l)
   + length (flat_map (unchanged_step w snaps type) l) <= length l)%nat.
Proof.
  induction l as [|x l IH]; cbn [flat_map length]; [lia|].
  rewrite !length_app.
  assert (length (changed_step w snaps type x)
          + length (unchanged_step w snaps type x) <= 1)%nat; [|lia].
  unfold changed_step, unchanged_step.
  destruct (ptr (JStr (sr_address x))) as [a|]; [|cbn; lia].
  destruct (snaps !! sr_address x) as [s|]; [|cbn; lia].
  destruct (snapshot_value w type a) as [v|]; [|cbn; lia].
  destruct (strict_eq v (original s)); cbn; lia.
Qed.

(** X18.  From one state, [scan_changed] and [scan_unchanged] split the
    results: no address is kept by both; every result that has a snapshot
    and whose address can be read is kept by one of them; so together they
    keep at most as many results as there were. *)
Theorem changed_unchanged_partition (w : world) (st : agent) (type : string) :
  let changed := scanResults (scan_changed w st type).1 in
  let unchanged := scanResults (scan_unchanged w st type).1 in
  (forall y z, y ∈ changed -> z ∈ unchanged ->
     sr_address y <> sr_address z) /\
  (forall x a s v,
     x ∈ scanResults st ->
     ptr (JStr (sr_address x)) = Normal a ->
     scanSnapshots st !! sr_address x = Some s ->
     snapshot_value w type a = Normal v ->
     exists y, (y ∈ changed \/ y ∈ unchanged) /\
               sr_address y = sr_address x /\ sr_currentValue y = Some v) /\
  (count (scan_changed w st type).2 + count (scan_unchanged w st type).2
   <= length (scanResults st))%nat.
Proof.
  cbn zeta. unfold scan_changed, scan_unchanged, with_scan, reply_of.
  cbn [fst snd scanResults count]. split; [|split].
  - intros y z Hy Hz Heq.
    apply elem_of_flat_map in Hy as (x & _ & Hy).
    apply elem_of_flat_map in Hz as (x' & _ & Hz).
    destruct (changed_step_elem _ _ _ _ _ Hy)
      as (a & s & v & Hp & Hs & Hv & He & ->).
    destruct (unchanged_step_elem _ _ _ _ _ Hz)
      as (a' & s' & v' & Hp' & Hs' & Hv' & He' & ->).
    cbn [sr_address] in Heq. rewrite <- Heq in Hp', Hs'.
    rewrite Hp in Hp'. injection Hp' as <-.
    rewrite Hs in Hs'. injection Hs' as <-.
    rewrite Hv in Hv'. injection Hv' as <-.
    rewrite He in He'. discriminate He'.
  - intros x a s v Hx Hp Hs Hv.
    destruct (strict_eq v (original s)) eqn:He.
    + exists (ScanResult (sr_address x) (sr_size x) (sr_pattern x)
                (sr_originalValue x) (Some v)).
      split; [right|split; reflexivity].
      apply elem_of_flat_map. exists x. split; [exact Hx|].
      unfold unchanged_step. rewrite Hp, Hs, Hv, He. constructor.
    + exists (ScanResult (sr_address x) (sr_size x) (sr_pattern x)
                (Some (original s)) (Some v)).
      split; [left|split; reflexivity].
      apply elem_of_flat_map. exists x. split; [exact Hx|].
      unfold changed_step. rewrite Hp, Hs, Hv, He. constructor.
  - apply step_lengths.
Qed.

Lemma snapshot_step_lookup (w : world) (type : string)
    (m : gmap string snapshot) (x : scan_result) (k : string) :
  snapshot_step w type m x !! k
  = if bool_decide (k = sr_address x)
    then match (a ← ptr (JStr k); snapshot_value w type a) with
         | Normal v => Some (Snapshot v v)
         | Throw _ => m !! k
         end
    else m !! k.
Proof.
  unfold snapshot_step. case_bool_decide as Hk.
  - subst k. destruct (ptr (JStr (sr_address x))) as [a|]; cbn;
      [|reflexivity].
    destruct (snapshot_value w type a) as [v|]; [|reflexivity].
    apply lookup_insert_eq.
  - destruct (ptr (JStr (sr_address x))) as [a|]; [|reflexivity].
    destruct (snapshot_value w type a) as [v|]; [|reflexivity].
    apply lookup_insert_ne. congruence.
Qed.

Lemma snapshot_fold_lookup (w : world) (type : string)
    (rs : list scan_result) (m : gmap string snapshot) (k : string) :
  fold_left (snapshot_step w type) rs m !! k
  = if bool_decide (k ∈ sr_address <$> rs)
    then match (a ← ptr (JStr k); snapshot_value w type a) with
         | Normal v => Some (Snapshot v v)
         | Throw _ => m !! k
         end
    else m !! k.
Proof.
  revert m. induction rs as [|x rs IH]; intros m; cbn [fold_left].
  - rewrite bool_decide_eq_false_2; [reflexivity|]. cbn. apply not_elem_of_nil.
  - rewrite IH, fmap_cons, snapshot_step_lookup. clear IH.
    destruct (decide (k ∈ sr_address <$> rs)) as [Hin|Hin].
    + rewrite (bool_decide_eq_true_2 _ Hin).
      rewrite (bool_decide_eq_true_2 (k ∈ sr_address x :: (sr_address <$> rs)))
        by (apply elem_of_cons; right; exact Hin).
      destruct (a ← ptr (JStr k); snapshot_value w type a); [reflexivity|].
      case_bool_decide; reflexivity.
    + rewrite (bool_decide_eq_false_2 _ Hin).
      destruct (decide (k = sr_address x)) as [Hk|Hk].
      * rewrite (bool_decide_eq_true_2 _ Hk).
        rewrite (bool_decide_eq_true_2 (k ∈ sr_address x :: (sr_address <$> rs)))
          by (apply elem_of_cons; left; exact Hk).
        reflexivity.
      * rewrite (bool_decide_eq_false_2 _ Hk).
        rewrite bool_decide_eq_false_2; [reflexivity|].
        rewrite elem_of_cons. intros [?|?]; contradiction.
Qed.

(** X19.  After [scan_snapshot] the snapshot map holds exactly the
    addresses of the current results that could be read, each with the
    value read as both [original] and [current]; whatever an earlier
    snapshot held is gone. *)
Theorem scan_snapshot_records (w : world) (st : agent) (type : string)
    (k : string) (s : snapshot) :
  scanSnapshots (scan_snapshot w st type).1 !! k = Some s <->
  (exists x, x ∈ scanResults st /\ sr_address x = k) /\
  exists a v, ptr (JStr k) = Normal a /\
              snapshot_value w type a = Normal v /\
              s = Snapshot v v.
Proof.
  unfold scan_snapshot, with_snapshots. cbn [fst scanSnapshots].
  rewrite snapshot_fold_lookup. rewrite lookup_empty.
  case_bool_decide as Hin.
  - apply list_elem_of_fmap in Hin as (x & Hk & Hx).
    destruct (ptr (JStr k)) as [a|e] eqn:Hp; cbn.
    + destruct (snapshot_value w type a) as [v|e] eqn:Hv.
      * split.
        -- intros [= <-]. split; [exists x; auto|]. exists a, v. auto.
        -- intros (_ & a' & v' & [= <-] & Hv' & ->).
           rewrite Hv in Hv'. injection Hv' as <-. reflexivity.
      * split; [discriminate|].
        intros (_ & a' & v' & [= <-] & Hv' & _).
        rewrite Hv in Hv'. discriminate Hv'.
    + split; [discriminate|].
      intros (_ & a' & v' & Hp' & _). discriminate Hp'.
  - split; [discriminate|].
    intros ((x & Hx & Hk) & _). exfalso. apply Hin.
    apply list_elem_of_fmap. exists x. auto.
Qed.

Lemma snapshot_value_self (w : world) (type : string) (a : N) (v : typed) :
  String.eqb type "float" = false ->
  snapshot_value w type a = Normal v -> strict_eq v v = true.
Proof.
  intros Ht. unfold snapshot_value. rewrite Ht.
  destruct (one_of type ["int32"; "int"]);
    destruct (readS32 w a) as [z|]; cbn; try discriminate;
    intros [= <-]; cbn; apply Z.eqb_refl.
Qed.

Lemma fresh_snapshot_steps (w : world) (type : string)
    (snaps : gmap string snapshot) (l : list scan_result) :
  String.eqb type "float" = false ->
  (forall x, x ∈ l ->
     snaps !! sr_address x
     = match (a ← ptr (JStr (sr_address x)); snapshot_value w type a) with
       | Normal v => Some (Snapshot v v)
       | Throw _ => None
       end) ->
  flat_map (changed_step w snaps type) l = [] /\
  sr_address <$> flat_map (unchanged_step w snaps type) l
  = sr_address <$>
      List.filter
        (fun x => match (a ← ptr (JStr (sr_address x));
                         snapshot_value w type a) with
                  | Normal _ => true
                  | Throw _ => false
                  end) l.
Proof.
  intros Ht. induction l as [|x l IH]; intros H; [split; reflexivity|].
  destruct IH as [IHc IHu].
  { intros z Hz. apply H. constructor. exact Hz. }
  specialize (H x (list_elem_of_here _ _)).
  cbn [flat_map List.filter]. rewrite IHc, fmap_app, IHu.
  unfold changed_step, unchanged_step. rewrite H.
  destruct (ptr (JStr (sr_address x))) as [a|]; cbn; [|split; reflexivity].
  destruct (snapshot_value w type a) as [v|] eqn:Hv; cbn;
    [|split; reflexivity].
  rewrite (snapshot_value_self _ _ _ _ Ht Hv). cbn. split; reflexivity.
Qed.

(** X20.  For a type other than ["float"], comparing against a snapshot
    that was just taken finds nothing changed: [scan_changed] empties the
    result set, and [scan_unchanged] keeps, in order, exactly the results
    whose address can be read. *)
Theorem fresh_snapshot_unchanged (w : world) (st : agent) (type : string) :
  String.eqb type "float" = false ->
  let st1 := (scan_snapshot w st type).1 in
  scan_changed w st1 type = (with_scan st1 [], ScanReply 0 []) /\
  sr_address <$> scanResults (scan_unchanged w st1 type).1
  = sr_address <$>
      List.filter
        (fun x => match (a ← ptr (JStr (sr_address x));
                         snapshot_value w type a) with
                  | Normal _ => true
                  | Throw _ => false
                  end) (scanResults st).
Proof.
  intros Ht. cbn zeta.
  destruct (fresh_snapshot_steps w type
              (scanSnapshots (scan_snapshot w st type).1)
              (scanResults st) Ht) as [Hc Hu].
  { intros x Hx. unfold scan_snapshot, with_snapshots.
    cbn [fst scanSnapshots]. rewrite snapshot_fold_lookup, lookup_empty.
    rewrite bool_decide_eq_true_2;
      [|apply list_elem_of_fmap; exists x; auto].
    reflexivity. }
  unfold scan_changed, scan_unchanged.
  change (scanResults (scan_snapshot w st type).1) with (scanResults st).
  cbn [fst scanResults with_scan]. rewrite Hc. split; [reflexivity|exact Hu].
Qed.

End Snapshots.

(** Two results, of which only the first lies in mapped memory. *)
Lemma fresh_snapshot_unchanged_witness :
  let st := AgentState [] 0
              [ScanResult "0x1000" 4 "55" None None;
               ScanResult "0x10" 4 "55" None None] ∅ in
  let st1 := (@scan_snapshot numeric_runtime target_process st "int32").1 in
  String.eqb "int32" "float" = false /\
  @scan_changed numeric_runtime target_process st1 "int32"
    = (with_scan st1 [], ScanReply 0 []) /\
  sr_address <$>
    scanResults (@scan_unchanged numeric_runtime target_process st1 "int32").1
  = ["0x1000"].
Proof.
  cbn zeta. split; [reflexivity|].
  exact (@fresh_snapshot_unchanged numeric_runtime target_process
           (AgentState [] 0
              [ScanResult "0x1000" 4 "55" None None;
               ScanResult "0x10" 4 "55" None None] ∅)
           "int32" eq_refl).
Defined.

(* --------------------------------------------------------------------- *)
(** ** What [scan_next] compares                                          *)
(* --------------------------------------------------------------------- *)

Section Comparisons.
Context {RT : Runtime}.

Lemma one_of_elem (s : string) (names : list string) :
  one_of s names = true -> s ∈ names.
Proof.
  unfold one_of. induction names as [|n names IH]; cbn; [discriminate|].
  destruct (String.eqb_spec s n) as [->|_]; cbn.
  - intros _. constructor.
  - intros H. constructor. exact (IH H).
Qed.

Lemma one_of_app (s : string) (l1 l2 : list string) :
  one_of s (l1 ++ l2)%list = one_of s l1 || one_of s l2.
Proof. unfold one_of. apply existsb_app. Qed.

Lemma next_values_int64 (w : world) (type : string) (value : jsval) (a : N) :
  one_of type ["int64"; "long"] = true ->
  next_values w type value a
  = Some (v ← readS64 w a;
          Normal (TInt64 v, TNum (parseInt (to_string value)))) /\
  includes type "float" || String.eqb type "double" = false.
Proof.
  intros H. apply one_of_elem in H.
  repeat (apply elem_of_cons in H as [->|H]; [split; reflexivity|]).
  inversion H.
Qed.

(** X21.  [readS64] yields an [Int64] object, which [===] never identifies
    with the number [parseInt] gives.  So for the types [int64] and [long]
    the default comparison [eq] keeps nothing, whatever memory holds, and
    [ne] keeps every result whose address can be read. *)
Theorem scan_next_int64_identity (w : world) (st : agent) (type : string)
    (value : jsval) :
  one_of type ["int64"; "long"] = true ->
  scan_next w st type value None = (with_scan st [], ScanReply 0 []) /\
  scan_next w st type value (Some "eq") = (with_scan st [], ScanReply 0 []) /\
  sr_address <$> scanResults (scan_next w st type value (Some "ne")).1
  = sr_address <$>
      List.filter
        (fun x => match (a ← ptr (JStr (sr_address x)); readS64 w a) with
                  | Normal _ => true
                  | Throw _ => false
                  end) (scanResults st).
Proof.
  intros Ht.
  assert (Heq : flat_map (next_step w type value "eq") (scanResults st) = []).
  { apply flat_map_none. intros x _. unfold next_step.
    destruct (ptr (JStr (sr_address x))) as [a|]; [|reflexivity].
    destruct (next_values_int64 w type value a Ht) as [-> Hf].
    destruct (readS64 w a) as [v|]; cbn [mbind completion_bind bind];
      [|reflexivity].
    unfold next_match. cbn [String.eqb Ascii.eqb Bool.eqb]. rewrite Hf.
    reflexivity. }
  unfold scan_next. cbn [from_option id]. rewrite Heq.
  split; [reflexivity|]. split; [reflexivity|]. cbn [fst with_scan scanResults].
  clear Heq. induction (scanResults st) as [|x l IH]; [reflexivity|].
  cbn [flat_map List.filter]. rewrite fmap_app, IH. clear IH.
  unfold next_step.
  destruct (ptr (JStr (sr_address x))) as [a|]; cbn [mbind completion_bind bind];
    [|reflexivity].
  destruct (next_values_int64 w type value a Ht) as [-> _].
  destruct (readS64 w a) as [v|]; reflexivity.
Qed.

Lemma next_values_small (w : world) (type : string) (value : jsval) (a : N) :
  one_of type ["int8"; "byte"; "int16"; "short"; "int32"; "int"] = true ->
  (exists read : world -> N -> completion Z,
     next_values w type value a
     = Some (v ← read w a;
             Normal (TNum (Int v), TNum (parseInt (to_string value))))) /\
  includes type "float" || String.eqb type "double" = false.
Proof.
  intros H. apply one_of_elem in H.
  apply elem_of_cons in H as [->|H];
    [split; [exists readS8|]; reflexivity|].
  apply elem_of_cons in H as [->|H];
    [split; [exists readS8|]; reflexivity|].
  apply elem_of_cons in H as [->|H];
    [split; [exists readS16|]; reflexivity|].
  apply elem_of_cons in H as [->|H];
    [split; [exists readS16|]; reflexivity|].
  apply elem_of_cons in H as [->|H];
    [split; [exists readS32|]; reflexivity|].
  apply elem_of_cons in H as [->|H];
    [split; [exists readS32|]; reflexivity|].
  inversion H.
Qed.

(** X22.  For the integer types up to 32 bits, every result the default
    comparison keeps carries as [currentValue] the number the target value
    parses to; a target that does not parse to a number keeps nothing. *)
Theorem scan_next_eq_values (w : world) (st : agent) (type : string)
    (value : jsval) (y : scan_result) :
  one_of type ["int8"; "byte"; "int16"; "short"; "int32"; "int"] = true ->
  y ∈ scanResults (scan_next w st type value None).1 ->
  exists z, parseInt (to_string value) = Int z /\
            sr_currentValue y = Some (TNum (Int z)).
Proof.
  intros Ht. unfold scan_next. cbn [fst with_scan scanResults from_option id].
  intros Hy. apply elem_of_flat_map in Hy as (x & _ & Hy).
  unfold next_step in Hy.
  destruct (ptr (JStr (sr_address x))) as [a|]; [|inversion Hy].
  destruct (next_values_small w type value a Ht) as [[read Hv] Hf].
  rewrite Hv in Hy.
  destruct (read w a) as [v|]; cbn [mbind completion_bind bind] in Hy;
    [|inversion Hy].
  unfold next_match in Hy. cbn [String.eqb Ascii.eqb Bool.eqb] in Hy.
  rewrite Hf in Hy. cbn [strict_eq] in Hy.
  destruct (parseInt (to_string value)) as [z|]; cbn [num_eqb] in Hy;
    [|inversion Hy].
  destruct (Z.eqb_spec v z) as [->|_]; [|inversion Hy].
  apply list_elem_of_singleton in Hy. subst y. exists z. split; reflexivity.
Qed.

(** X23.  A type or a comparison that [scan_next] does not know is not an
    error: the call answers with count 0, and the results of the scan so
    far are gone. *)
Theorem scan_next_unknown_empties (w : world) (st : agent)
    (type : string) (value : jsval) (comparison : string) :
  one_of type ["int8"; "byte"; "int16"; "short"; "int32"; "int";
               "int64"; "long"; "float"; "double"] = false \/
  one_of comparison ["eq"; "ne"; "gt"; "lt"; "ge"; "le"] = false ->
  scan_next w st type value (Some comparison)
  = (with_scan st [], ScanReply 0 []).
Proof.
  intros H. unfold scan_next. cbn [from_option id].
  rewrite flat_map_none; [reflexivity|].
  intros x _. unfold next_step.
  destruct (ptr (JStr (sr_address x))) as [a|]; [|reflexivity].
  destruct H as [H|H].
  - unfold one_of in H. cbn [existsb] in H.
    repeat (apply orb_false_elim in H as [? H]).
    unfold next_values, one_of. cbn [existsb].
    repeat match goal with E : String.eqb type _ = false |- _ =>
      rewrite E; clear E end.
    reflexivity.
  - destruct (next_values w type value a) as [[[cur tgt]|]|]; try reflexivity.
    unfold one_of in H. cbn [existsb] in H.
    repeat (apply orb_false_elim in H as [? H]).
    unfold next_match.
    repeat match goal with E : String.eqb comparison _ = false |- _ =>
      rewrite E; clear E end.
    reflexivity.
Qed.

End Comparisons.

(** X24.  [modifyRetval] is stored as [config.modifyRetval || null]: a
    falsy value, the number 0 included, is stored as [null], and then the
    hook leaves the return value as the function produced it. *)
Theorem falsy_modifyRetval_ignored (config : config) (id : string)
    (address : jsval) (this : invocation) (context : option hookContext)
    (retval : N) :
  truthy (cfg_modifyRetval config) = false ->
  leave_retval (onLeave (Closure id address (make_hookConfig config)) this
                  context retval) = retval.
Proof.
  intros H. unfold onLeave, make_hookConfig, js_or.
  cbn [cl_config hc_modifyRetval leave_retval]. rewrite H. reflexivity.
Qed.


(** The first byte of the text range is [0x55], that is 85; the second
    result does not hold 85, and 8 bytes can be read at both. *)
Lemma scan_next_int64_identity_witness :
  let st := AgentState [] 0
              [ScanResult "0x1000" 8 "55" None None;
               ScanResult "0x10" 8 "55" None None] ∅ in
  one_of "long" ["int64"; "long"] = true /\
  @scan_next numeric_runtime target_process st "long" (JStr "15042901") None
    = (with_scan st [], ScanReply 0 []) /\
  sr_address <$>
    scanResults (@scan_next numeric_runtime target_process st "long"
                   (JStr "15042901") (Some "ne")).1
  = ["0x1000"].
Proof.
  cbn zeta. split; [reflexivity|].
  destruct (@scan_next_int64_identity numeric_runtime target_process
              (AgentState [] 0
                 [ScanResult "0x1000" 8 "55" None None;
                  ScanResult "0x10" 8 "55" None None] ∅)
              "long" (JStr "15042901") eq_refl) as (H1 & _ & H3).
  split; [exact H1 | exact H3].
Defined.

Lemma scan_next_eq_values_witness :
  let st := AgentState [] 0
              [ScanResult "0x1000" 1 "55" None None;
               ScanResult "0x1001" 1 "55" None None] ∅ in
  let y := ScanResult "0x1000" 1 "55" None (Some (TNum (Int 85))) in
  one_of "int8" ["int8"; "byte"; "int16"; "short"; "int32"; "int"] = true /\
  scanResults (@scan_next numeric_runtime target_process st "int8"
                 (JStr "85") None).1 = [y] /\
  exists z, @parseInt numeric_runtime "85" = Int z /\
            sr_currentValue y = Some (TNum (Int z)).
Proof.
  cbn zeta. split; [reflexivity|]. split; [vm_compute; reflexivity|].
  apply (@scan_next_eq_values numeric_runtime target_process
           (AgentState [] 0
              [ScanResult "0x1000" 1 "55" None None;
               ScanResult "0x1001" 1 "55" None None] ∅)
           "int8" (JStr "85")
           (ScanResult "0x1000" 1 "55" None (Some (TNum (Int 85)))));
    [reflexivity|].
  vm_compute. constructor.
Defined.

Lemma scan_next_unknown_empties_witness :
  let st := AgentState [] 0 [ScanResult "0x1000" 1 "55" None None] ∅ in
  one_of "equals" ["eq"; "ne"; "gt"; "lt"; "ge"; "le"] = false /\
  @scan_next numeric_runtime target_process st "int8" (JStr "85")
    (Some "equals") = (with_scan st [], ScanReply 0 []).
Proof.
  cbn zeta. split; [reflexivity|].
  apply (@scan_next_unknown_empties numeric_runtime). right. reflexivity.
Defined.

(** The number 0 is ignored, the string ["0x0"] is not. *)
Lemma falsy_modifyRetval_ignored_witness :
  let zero := Config JUndef (JBool true) JUndef JUndef JUndef None
                (JNum (Int 0)) JUndef in
  let null := Config JUndef (JBool true) JUndef JUndef JUndef None
                (JStr "0x0") JUndef in
  truthy (cfg_modifyRetval zero) = false /\
  leave_retval (onLeave
                  (Closure "hook_0" (JStr "0x1000") (make_hookConfig zero))
                  this_call None 42) = 42%N /\
  leave_retval (onLeave
                  (Closure "hook_0" (JStr "0x1000") (make_hookConfig null))
                  this_call None 42) = 0%N.
Proof.
  cbn zeta. split; [reflexivity|]. split; [|vm_compute; reflexivity].
  apply falsy_modifyRetval_ignored. reflexivity.
Defined.

(* --------------------------------------------------------------------- *)
(** ** Memory protection                                                  *)
(* --------------------------------------------------------------------- *)





